(** * ADBench data generator: a shallow embedding of [data_generator.py]

    The development follows the methods of the Python class [DataGenerator]:
    [generate_realistic_synthetic], [add_duplicated_anomalies],
    [add_irrelevant_features], [add_label_contamination] and [generator].

    Modelling conventions.
    - A Python float is a binary64 number.  A finite one is the rational
      it denotes ([Q]; [is_double] says that a rational is a double).
      Where the code turns a float into an integer ([int], [ceil]: the
      number of labeled anomalies, of flipped labels, of noise columns)
      every operation is rounded as binary64 rounds it, to nearest with
      ties to even, overflowing to an infinity ([float64]).  The
      continuous quantities (samples, minima and maxima, the bounds of the
      uniform draws, mixture parameters) are left exact: rounding moves
      them by an ulp and decides nothing there.
    - A two-dimensional numpy array is a [matrix]: its rows together with
      its column count (which numpy keeps even when there is no row).
    - Label vectors are numpy integer arrays that the code mutates in
      place; they live in a store of cells addressed by locations, so that
      aliasing between the arrays handed around is explicit.
    - numpy's global generator, scikit-learn, copulas, the dataset files
      and [myutils] are collaborators outside the class: they are the
      fields of a [library] record and may fail ([None]).  Every call to
      them is logged in the [trace] of the world, in program order.
    - Python exceptions are values of [exn]; a raised exception aborts the
      computation ([inl]). *)

From Stdlib Require Import String List ZArith QArith Qround Qpower Qabs.
From Stdlib Require Import Lia Lqa Bool Floats.SpecFloat.
From Stdlib Require Import Arith Permutation.
Import ListNotations.

Local Open Scope nat_scope.

(* ================================================================== *)
(** ** Python numbers *)

(** [int(x)] on a finite float: truncation toward zero. *)
Definition py_int (x : Q) : Z := Z.quot (Qnum x) (Zpos (Qden x)).

(** [math.ceil(x)] on a finite float. *)
Definition py_ceil (x : Q) : Z := Qceiling x.

Definition Qof_nat (n : nat) : Q := inject_Z (Z.of_nat n).

Definition Qltb (a b : Q) : bool := negb (Qle_bool b a).

(* ================================================================== *)
(** ** binary64

    The doubles are the rationals [m * 2^e] with [|m| < 2^53] and
    [-1074 <= e]; the exponent of the largest is 971. *)

Definition pow2 (e : Z) : Q := (2 ^ e)%Q.

(** [floor(log2 q)] for a positive [q]. *)
Definition ilog2 (q : Q) : Z :=
  let e := (Z.log2 (Qnum q) - Z.log2 (Zpos (Qden q)))%Z in
  if Qle_bool (pow2 e) q then e else (e - 1)%Z.

(** The nearest integer, ties to the even one. *)
Definition rne (x : Q) : Z :=
  let f := Qfloor x in
  match (x - inject_Z f ?= 1 # 2)%Q with
  | Lt => f
  | Gt => (f + 1)%Z
  | Eq => if Z.even f then f else (f + 1)%Z
  end.

(** The spacing of the doubles around a positive [q]: 53 significant
    bits, and the fixed spacing [2^-1074] below [2^-1022]. *)
Definition ulp (q : Q) : Q := pow2 (Z.max (ilog2 q) (-1022) - 52).

Definition nearest_pos (q : Q) : Q := (inject_Z (rne (q / ulp q)) * ulp q)%Q.

(** Rounding to nearest, ties to even, before the test for overflow. *)
Definition nearest (q : Q) : Q :=
  match (q ?= 0)%Q with
  | Eq => 0%Q
  | Gt => nearest_pos q
  | Lt => (- nearest_pos (- q))%Q
  end.

(** A value of type [float]: a finite double, an infinity or a NaN.  The
    sign of a zero is not kept: [==], [int], [ceil] and the test for a
    zero divisor do not see it. *)
Inductive float64 : Type :=
| Fin (q : Q)
| Inf (negative : bool)
| NaN.

(** The double that an exact result becomes: a result that rounds to
    [2^1024] or beyond in size overflows. *)
Definition round64 (q : Q) : float64 :=
  let r := nearest q in
  if Qle_bool (pow2 1024) (Qabs r) then Inf (Qltb q 0) else Fin r.

(** The rational [q] is a (finite) double. *)
Definition is_double (q : Q) : Prop :=
  (nearest q == q)%Q /\ (Qabs q < pow2 1024)%Q.

(** The double that a decimal literal denotes (one in the finite
    range). *)
Definition double (q : Q) : Q := Qred (nearest q).

Definition max_double : Q := inject_Z (2 ^ 1024 - 2 ^ 971).

(** [x - y] and [x * y] on floats. *)
Definition fsub (x y : float64) : float64 :=
  match x, y with
  | NaN, _ | _, NaN => NaN
  | Fin a, Fin b => round64 (a - b)
  | Inf s, Fin _ => Inf s
  | Fin _, Inf t => Inf (negb t)
  | Inf s, Inf t => if Bool.eqb s t then NaN else Inf s
  end.

Definition fmul (x y : float64) : float64 :=
  match x, y with
  | NaN, _ | _, NaN => NaN
  | Fin a, Fin b => round64 (a * b)
  | Inf s, Fin b | Fin b, Inf s =>
      if Qeq_bool b 0 then NaN else Inf (xorb s (Qltb b 0))
  | Inf s, Inf t => Inf (xorb s t)
  end.

(* ================================================================== *)
(** ** numpy arrays *)

Record matrix : Type := Matrix { shape1 : nat; rows : list (list Q) }.

Definition shape0 (X : matrix) : nat := length (rows X).

(** [X[:, i]] *)
Definition column (X : matrix) (i : nat) : list Q :=
  map (fun r => nth i r 0%Q) (rows X).

(** The rows of a matrix all have [shape1] entries. *)
Definition well_shaped (X : matrix) : Prop :=
  Forall (fun r => length r = shape1 X) (rows X).

(** [np.where(y == v)[0]]: the increasing list of positions holding [v]. *)
Fixpoint where_from (i : nat) (v : Z) (y : list Z) : list nat :=
  match y with
  | [] => []
  | a :: y' => if Z.eqb a v then i :: where_from (S i) v y'
               else where_from (S i) v y'
  end.

Definition np_where (y : list Z) (v : Z) : list nat := where_from 0 v y.

(** [a[mask]] with a boolean mask: the mask must be as long as the array. *)
Fixpoint mask_select {A : Type} (mask : list bool) (l : list A)
  : option (list A) :=
  match mask, l with
  | [], [] => Some []
  | b :: mask', a :: l' =>
      match mask_select mask' l' with
      | Some r => Some (if b then a :: r else r)
      | None => None
      end
  | _, _ => None
  end.

(** [a[idx]] with an integer index array: every index must be in range. *)
Fixpoint take {A : Type} (idx : list nat) (l : list A) : option (list A) :=
  match idx with
  | [] => Some []
  | i :: idx' =>
      match nth_error l i, take idx' l with
      | Some a, Some r => Some (a :: r)
      | _, _ => None
      end
  end.

(** [X[mask]] and [X[idx]] select rows; [X[:, idx]] selects columns. *)
Definition mask_rows (mask : list bool) (X : matrix) : option matrix :=
  option_map (Matrix (shape1 X)) (mask_select mask (rows X)).

Definition take_rows (idx : list nat) (X : matrix) : option matrix :=
  option_map (Matrix (shape1 X)) (take idx (rows X)).

Definition take_cols (idx : list nat) (X : matrix) : option matrix :=
  if forallb (fun j => j <? shape1 X) idx
  then Some (Matrix (length idx)
               (map (fun r => map (fun j => nth j r 0%Q) idx) (rows X)))
  else None.

(** [np.concatenate((A, B), axis=0)]: the column counts must agree. *)
Definition concatenate0 (A B : matrix) : option matrix :=
  if shape1 A =? shape1 B
  then Some (Matrix (shape1 A) (rows A ++ rows B))
  else None.

(** [np.concatenate((A, B), axis=1)]: the row counts must agree. *)
Definition concatenate1 (A B : matrix) : option matrix :=
  if shape0 A =? shape0 B
  then Some (Matrix (shape1 A + shape1 B)
               (map (fun p => fst p ++ snd p) (combine (rows A) (rows B))))
  else None.

(** [np.array(cols).T] for a non-empty list of columns of length [n], and
    the column-wise filling of [np.zeros((n, d))]. *)
Definition of_columns (n : nat) (cols : list (list Q)) : matrix :=
  Matrix (length cols)
         (map (fun i => map (fun c => nth i c 0%Q) cols) (seq 0 n)).

(** [np.min] and [np.max]: undefined on an empty array. *)
Definition np_min (l : list Q) : option Q :=
  match l with
  | [] => None
  | a :: l' => Some (fold_left (fun m x => if Qltb x m then x else m) l' a)
  end.

Definition np_max (l : list Q) : option Q :=
  match l with
  | [] => None
  | a :: l' => Some (fold_left (fun m x => if Qltb m x then x else m) l' a)
  end.

(** [np.argmin]: the first position of the smallest entry. *)
Fixpoint argmin_from (i best_i : nat) (best : Q) (l : list Q) : nat :=
  match l with
  | [] => best_i
  | x :: l' => if Qltb x best then argmin_from (S i) i x l'
               else argmin_from (S i) best_i best l'
  end.

Definition np_argmin (l : list Q) : nat :=
  match l with
  | [] => 0
  | x :: l' => argmin_from 1 0 x l'
  end.

(** [a[idx] = v] and [a[idx] = vals]: assignments in index order. *)
Fixpoint set_nth {A : Type} (i : nat) (v : A) (l : list A) : list A :=
  match l, i with
  | [], _ => []
  | _ :: l', O => v :: l'
  | a :: l', S i' => a :: set_nth i' v l'
  end.

Fixpoint scatter (idx : list nat) (vals : list Z) (y : list Z)
  : option (list Z) :=
  match idx, vals with
  | [], _ => Some y
  | i :: idx', v :: vals' =>
      if i <? length y then scatter idx' vals' (set_nth i v y) else None
  | _ :: _, [] => None
  end.

Definition assign (idx : list nat) (v : Z) (y : list Z) : option (list Z) :=
  scatter idx (repeat v (length idx)) y.

(** [np.setdiff1d(a, b)]: the sorted distinct values of [a] not in [b]. *)
Fixpoint insert_sorted (x : nat) (l : list nat) : list nat :=
  match l with
  | [] => [x]
  | a :: l' => if x <? a then x :: l
               else if x =? a then l
               else a :: insert_sorted x l'
  end.

Definition np_unique (l : list nat) : list nat :=
  fold_right insert_sorted [] l.

Definition np_setdiff1d (a b : list nat) : list nat :=
  filter (fun x => negb (existsb (Nat.eqb x) b)) (np_unique a).

(* ================================================================== *)
(** ** Exceptions, collaborators and the world *)

Inductive exn : Type :=
| NotImplementedError
| AssertionError      (* raised when [la] exceeds the anomalies at hand *)
| ValueError
| IndexError
| ZeroDivisionError
| NameError
| AttributeError
| OverflowError
| ExternalError.      (* a collaborator raised *)

(** A pure computation that may raise. *)
Definition and_then {A B : Type} (r : exn + A) (f : A -> exn + B) : exn + B :=
  match r with
  | inl e => inl e
  | inr a => f a
  end.

(** [x / y] on floats: Python raises on a zero divisor. *)
Definition fdiv (x y : float64) : exn + float64 :=
  match y with
  | Fin b =>
      if Qeq_bool b 0 then inl ZeroDivisionError
      else match x with
           | Fin a => inr (round64 (a / b))
           | Inf s => inr (Inf (xorb s (Qltb b 0)))
           | NaN => inr NaN
           end
  | Inf _ => match x with
             | Fin _ => inr (Fin 0)
             | _ => inr NaN
             end
  | NaN => inr NaN
  end.

(** The conversion of an [int] operand of a float operation: it raises
    when the integer is beyond the doubles. *)
Definition float_of_int (z : Z) : exn + float64 :=
  match round64 (inject_Z z) with
  | Inf _ => inl OverflowError
  | x => inr x
  end.

(** [int(x)] and [math.ceil(x)] on a float. *)
Definition float_int (x : float64) : exn + Z :=
  match x with
  | Fin q => inr (py_int q)
  | Inf _ => inl OverflowError
  | NaN => inl ValueError
  end.

Definition float_ceil (x : float64) : exn + Z :=
  match x with
  | Fin q => inr (py_ceil q)
  | Inf _ => inl OverflowError
  | NaN => inl ValueError
  end.

(** The operations above are checked against the reference
    implementation of IEEE 754 in the standard library ([SpecFloat], the
    specification of Rocq's primitive floats) on a table of samples. *)
Module Reference.

Definition float64_of_spec (x : spec_float) : float64 :=
  match x with
  | S754_zero _ => Fin 0
  | S754_infinity s => Inf s
  | S754_nan => NaN
  | S754_finite s m e =>
      Fin ((if s then - inject_Z (Zpos m) else inject_Z (Zpos m)) * pow2 e)
  end.

Definition float64_eqb (x y : float64) : bool :=
  match x, y with
  | Fin a, Fin b => Qeq_bool a b
  | Inf s, Inf t => Bool.eqb s t
  | NaN, NaN => true
  | _, _ => false
  end.

Definition spec_double (m e : Z) : spec_float :=
  binary_normalize 53 1024 m e false.

Definition samples : list spec_float :=
  [ S754_zero false; S754_infinity false; S754_infinity true; S754_nan;
    spec_double 1261007895663739 (-54);   (* 0.07 *)
    spec_double 3152519739159347 (-52);   (* 0.7 *)
    spec_double 8106479329266893 (-54);   (* 0.45 *)
    spec_double 2573485501354569 (-54);   (* 1/7 *)
    spec_double 1 0; spec_double 6 0; spec_double 10 0; spec_double 33 0;
    spec_double 100 0; spec_double 500 0; spec_double (-5) (-1);
    spec_double 3 0;
    spec_double (2 ^ 53 - 1) 971;         (* the largest double *)
    spec_double 1 (-1074);                (* the smallest positive one *)
    spec_double (2 ^ 52 + 1) (-1074); spec_double 1 (-1022);
    spec_double (- (2 ^ 53 - 1)) 0; spec_double 1 1000 ]%Z.

Definition agree (x y : spec_float) : bool :=
  let fx := float64_of_spec x in
  let fy := float64_of_spec y in
  float64_eqb (fmul fx fy) (float64_of_spec (SFmul 53 1024 x y))
  && float64_eqb (fsub fx fy) (float64_of_spec (SFsub 53 1024 x y))
  && match fdiv fx fy with
     | inr q => float64_eqb q (float64_of_spec (SFdiv 53 1024 x y))
     | inl _ => float64_eqb fy (Fin 0)
     end.

End Reference.

(** Lines 366 and 368: [ceil(la * len(idx_anomaly))] and
    [int(la * len(idx_anomaly))]. *)
Definition labeled_target (la : Q) (at_least_one_labeled : bool) (n : nat)
  : exn + Z :=
  and_then (float_of_int (Z.of_nat n)) (fun n' =>
  let product := fmul (Fin la) n' in
  if at_least_one_labeled then float_ceil product else float_int product).

(** Line 195: [int(len(y) * noise_ratio)]. *)
Definition flip_target (n : nat) (noise_ratio : Q) : exn + Z :=
  and_then (float_of_int (Z.of_nat n)) (fun n' =>
  float_int (fmul n' (Fin noise_ratio))).

(** Line 171: [int(noise_ratio / (1 - noise_ratio) * X.shape[1])]. *)
Definition noise_dimension (noise_ratio : Q) (d : nat) : exn + Z :=
  and_then (fdiv (Fin noise_ratio) (fsub (Fin 1) (Fin noise_ratio))) (fun q =>
  and_then (float_of_int (Z.of_nat d)) (fun d' =>
  float_int (fmul q d'))).

(** The attributes of a fitted [sklearn.mixture.GaussianMixture] that the
    code reads or overwrites. *)
Record GaussianMixture : Type := FittedMixture {
  n_components : nat;
  random_state : Z;
  weights_ : list Q;
  means_ : list (list Q);
  covariances_ : list (list (list Q))
}.

(** Calls that leave the class, as logged in the trace. *)
Inductive event : Type :=
| EvSetSeed
| EvMixtureFit (k : nat)
| EvMixtureBic
| EvMixtureSample (n : nat)
| EvVineFit
| EvVineSample (n : nat)
| EvKdeFit (feature : nat)
| EvKdeSample (n : nat)
| EvUniform (size : nat)
| EvChoice (population : nat) (size : Z) (replace : bool)
| EvShuffle (n : nat)
| EvSplit
| EvScale.

Record library : Type := Library {
  rng_state : Type;   (* the global generators of numpy and of random *)
  vine : Type;        (* a fitted VineCopula *)
  kde : Type;         (* a fitted GaussianKDE *)
  scaler : Type;      (* a fitted MinMaxScaler *)
  (* numpy.random and random *)
  random_sample : rng_state -> Q * rng_state;
  permutation : nat -> rng_state -> list nat * rng_state;
  randint : nat -> rng_state -> nat * rng_state;
  shuffle_order : nat -> rng_state -> list nat * rng_state;
  (* myutils.Utils.set_seed *)
  set_seed : Z -> rng_state -> rng_state;
  (* GaussianMixture(n_components, random_state).fit / .bic / .sample;
     sampling uses the mixture's own seeded generator *)
  gm_fit : nat -> Z -> matrix -> option GaussianMixture;
  gm_bic : GaussianMixture -> matrix -> Q;
  gm_sample : GaussianMixture -> nat -> option matrix;
  (* VineCopula('center').fit / .sample and GaussianKDE().fit / .sample *)
  vine_fit : matrix -> rng_state -> option (vine * rng_state);
  vine_sample : vine -> nat -> rng_state -> option (matrix * rng_state);
  kde_fit : list Q -> option kde;
  kde_sample : kde -> nat -> rng_state -> option (list Q * rng_state);
  (* the dataset files and the table of precomputed dependency outliers *)
  load_dataset : string -> option (matrix * list Z);
  dependency_outlier : string -> option (matrix * list Z);
  (* train_test_split(..., shuffle=True, stratify=y): the positions that
     go to the training and to the testing split *)
  split_indices : list Z -> Q -> rng_state
                  -> option (list nat * list nat * rng_state);
  (* MinMaxScaler().fit and .transform *)
  scaler_fit : matrix -> option scaler;
  scaler_transform : scaler -> matrix -> option matrix
}.

(** What the documentation of the collaborators promises. *)
Record library_ok (L : library) : Prop := LibraryOk {
  random_sample_range : forall g,
    (0 <= fst (random_sample L g))%Q /\ (fst (random_sample L g) < 1)%Q;
  permutation_ok : forall n g,
    Permutation (seq 0 n) (fst (permutation L n g));
  randint_range : forall n g, 0 < n -> fst (randint L n g) < n;
  shuffle_order_ok : forall n g,
    Permutation (seq 0 n) (fst (shuffle_order L n g));
  gm_sample_rows : forall m n X, gm_sample L m n = Some X -> shape0 X = n;
  vine_sample_rows : forall v n g X g',
    vine_sample L v n g = Some (X, g') -> shape0 X = n;
  scaler_transform_rows : forall s X X',
    scaler_transform L s X = Some X' -> shape0 X' = shape0 X
}.

Definition loc : Type := nat.

Record world (L : library) : Type := World {
  rng : rng_state L;
  cells : loc -> list Z;     (* the label arrays *)
  next_loc : loc;
  trace : list event
}.

Arguments World {L}.
Arguments rng {L}.
Arguments cells {L}.
Arguments next_loc {L}.
Arguments trace {L}.

(* ================================================================== *)
(** ** The monad of effects *)

Section Effects.

Context {L : library}.

Definition M (A : Type) : Type := world L -> exn + (A * world L).

Definition ret {A : Type} (a : A) : M A := fun w => inr (a, w).

Definition bind {A B : Type} (m : M A) (f : A -> M B) : M B :=
  fun w => match m w with
           | inl e => inl e
           | inr (a, w') => f a w'
           end.

Definition raise {A : Type} (e : exn) : M A := fun _ => inl e.

(** A Python-level partial operation that raises [e]. *)
Definition lift {A : Type} (e : exn) (o : option A) : M A :=
  match o with
  | Some a => ret a
  | None => raise e
  end.

(** A pure computation that may raise, run in the world. *)
Definition attempt {A : Type} (r : exn + A) : M A :=
  match r with
  | inl e => raise e
  | inr a => ret a
  end.

Definition tick (e : event) : M unit :=
  fun w => inr (tt, World (rng w) (cells w) (next_loc w) (trace w ++ [e])).

(** A draw from the global generator. *)
Definition draw {A : Type} (f : rng_state L -> A * rng_state L) : M A :=
  fun w => let (a, g) := f (rng w) in
           inr (a, World g (cells w) (next_loc w) (trace w)).

(** A collaborator that may raise and may consume randomness. *)
Definition call {A : Type}
  (f : rng_state L -> option (A * rng_state L)) : M A :=
  fun w => match f (rng w) with
           | Some (a, g) => inr (a, World g (cells w) (next_loc w) (trace w))
           | None => inl ExternalError
           end.

Definition reseed (seed : Z) : M unit :=
  fun w => inr (tt, World (set_seed L seed (rng w)) (cells w) (next_loc w)
                          (trace w ++ [EvSetSeed])).

(** The store of label arrays. *)
Definition load (l : loc) : M (list Z) := fun w => inr (cells w l, w).

Definition store (l : loc) (v : list Z) : M unit :=
  fun w => inr (tt, World (rng w)
                          (fun l' => if l' =? l then v else cells w l')
                          (next_loc w) (trace w)).

Definition alloc (v : list Z) : M loc :=
  fun w => inr (next_loc w,
                World (rng w)
                      (fun l' => if l' =? next_loc w then v else cells w l')
                      (S (next_loc w)) (trace w)).

End Effects.

Arguments M : clear implicits.

Declare Scope eff_scope.
Delimit Scope eff_scope with eff.
Notation "x <- m ;; k" := (bind m (fun x => k))
  (at level 61, m at next level, right associativity) : eff_scope.
Notation "' p <- m ;; k" := (bind m (fun x => match x with p => k end))
  (at level 61, p pattern, m at next level, right associativity) : eff_scope.
Notation "m ;; k" := (bind m (fun _ => k))
  (at level 61, right associativity) : eff_scope.
Local Open Scope eff_scope.

(* ================================================================== *)
(** ** numpy.random *)

Section Random.

Context {L : library}.

Fixpoint random_samples (n : nat) : M L (list Q) :=
  match n with
  | O => ret []
  | S n' => u <- draw (random_sample L) ;;
            us <- random_samples n' ;;
            ret (u :: us)
  end.

Fixpoint randints (high n : nat) : M L (list nat) :=
  match n with
  | O => ret []
  | S n' => i <- draw (randint L high) ;;
            r <- randints high n' ;;
            ret (i :: r)
  end.

(** [np.random.uniform(low, high, size)]: [low + (high - low) * u] for
    [size] draws [u] of [random_sample]. *)
Definition np_random_uniform (low high : Q) (size : nat) : M L (list Q) :=
  tick (EvUniform size) ;;
  us <- random_samples size ;;
  ret (map (fun u => (low + (high - low) * u)%Q) us).

(** [np.random.choice(a, size, replace)] on a one-dimensional array [a]:
    positions come from [randint] with replacement and from the head of
    [permutation] without. *)
Definition np_random_choice (a : list nat) (size : Z) (replace : bool)
  : M L (list nat) :=
  tick (EvChoice (length a) size replace) ;;
  if (length a =? 0) && negb (size =? 0)%Z then raise ValueError
  else if replace then
    if (size <? 0)%Z then raise ValueError
    else idx <- randints (length a) (Z.to_nat size) ;;
         lift IndexError (take idx a)
  else
    if (Z.of_nat (length a) <? size)%Z then raise ValueError
    else if (size <? 0)%Z then raise ValueError
    else p <- draw (permutation L (length a)) ;;
         lift IndexError (take (firstn (Z.to_nat size) p) a).

(** [random.shuffle(idx)] *)
Definition random_shuffle (idx : list nat) : M L (list nat) :=
  tick (EvShuffle (length idx)) ;;
  p <- draw (shuffle_order L (length idx)) ;;
  lift IndexError (take p idx).

End Random.

(* ================================================================== *)
(** ** The class [DataGenerator] *)

Record DataGenerator : Type := Self {
  seed : Z;
  dataset : option string;
  test_size : Q;
  generate_duplicates : bool;
  n_samples_threshold : Z
}.

Definition in_list (s : string) (l : list string) : bool :=
  existsb (String.eqb s) l.

Definition n_components_list : list nat := seq 1 9.

(** [alpha * gm.covariances_] and [alpha * gm.means_] *)
Definition scale_covariances (alpha : Q) (gm : GaussianMixture)
  : GaussianMixture :=
  FittedMixture (n_components gm) (random_state gm) (weights_ gm) (means_ gm)
    (map (map (map (Qmult alpha))) (covariances_ gm)).

Definition scale_means (alpha : Q) (gm : GaussianMixture) : GaussianMixture :=
  FittedMixture (n_components gm) (random_state gm) (weights_ gm)
    (map (map (Qmult alpha)) (means_ gm)) (covariances_ gm).

(** [dest[:, i] = src] for a column of [n] entries: numpy broadcasts a
    source of one entry and rejects any other length mismatch. *)
Definition fill_column (n : nat) (src : list Q) : option (list Q) :=
  if length src =? n then Some src
  else match src with
       | [v] => Some (repeat v n)
       | _ => None
       end.

(** The argument [la] of [generator]: a float, an int, or anything else
    (the default is [None]). *)
Inductive labeled_anomalies : Type :=
| LaFloat (f : Q)
| LaInt (n : Z)
| LaOther.

(** The dictionary returned by [generator]. *)
Record dataset_split : Type := Split {
  X_train : matrix;
  y_train : loc;
  X_test : matrix;
  y_test : loc
}.

Definition numbered (stem : string) (count : list string) : list string :=
  map (fun i => (stem ++ i)%string) count.

Definition digits (n : nat) : list string :=
  firstn n ["0"; "1"; "2"; "3"; "4"; "5"; "6"; "7"; "8"; "9"]%string.

(** The names accepted by the chain of tests at lines 212-271. *)
Definition supported_datasets : list string :=
  List.concat
    [["annthyroid"; "cardio"; "mammography"; "musk"; "optdigits"; "pendigits";
      "satimage-2"; "speech"; "thyroid"; "vowels"; "cover"; "http"; "letter";
      "mnist"; "satellite"; "shuttle"; "smtp"; "breastw"; "vertebral"; "wine"];
     ["Waveform_withoutdupl_v10"; "InternetAds_withoutdupl_norm_19";
      "PageBlocks_withoutdupl_09"; "SpamBase_withoutdupl_40";
      "Wilt_withoutdupl_05"; "Cardiotocography_withoutdupl_22";
      "WBC_withoutdupl_v10"; "WDBC_withoutdupl_v10";
      "WPBC_withoutdupl_norm"; "Arrhythmia_withoutdupl_46";
      "HeartDisease_withoutdupl_44"; "Hepatitis_withoutdupl_16";
      "Parkinson_withoutdupl_75"; "Pima_withoutdupl_35";
      "Stamps_withoutdupl_09"];
     ["ALOI_withoutdupl"; "glass_withoutduplicates_normalized";
      "Ionosphere_withoutdupl_norm"; "Lymphography_withoutdupl_idf"];
     ["abalone.diff"; "comm.and.crime.diff"; "concrete.diff"; "fault.diff";
      "imgseg.diff"; "landsat.diff"; "magic.gamma.diff"; "skin.diff";
      "yeast.diff"];
     ["CCFD"; "TBP"];
     ["amazon"; "yelp"; "imdb"];
     numbered "agnews_" (digits 4);
     numbered "FashionMNIST_" (digits 10);
     numbered "CIFAR10_" (digits 10);
     numbered "SVHN_" (digits 10)]%string.

Definition is_noise (noise_type : option string) (name : string) : bool :=
  match noise_type with
  | Some s => String.eqb s name
  | None => false
  end.

(** The two blocks of rows of a synthetic dataset with [n] normal rows. *)
Definition normal_block (X : matrix) (n : nat) : matrix :=
  Matrix (shape1 X) (firstn n (rows X)).

Definition anomaly_block (X : matrix) (n : nat) : matrix :=
  Matrix (shape1 X) (skipn n (rows X)).

(** The library call that draws the synthetic normal rows, and the one
    that draws the synthetic anomalies, in each mode. *)
Definition normal_draw (mode : string) (n : nat) : event :=
  if String.eqb mode "dependency" then EvVineSample n else EvMixtureSample n.

Definition anomaly_draw (mode : string) (n : nat) : event :=
  if String.eqb mode "dependency" then EvKdeSample n
  else if String.eqb mode "global" then EvUniform n
  else EvMixtureSample n.

(** The log of the search over the candidate numbers of components. *)
Definition search_log (ks : list nat) : list event :=
  flat_map (fun k => [EvMixtureFit k; EvMixtureBic]) ks.

Section Methods.

Context {L : library}.
Variable self : DataGenerator.

(** *** [generate_realistic_synthetic] *)

Definition mixture_fit (k : nat) (X : matrix) : M L GaussianMixture :=
  tick (EvMixtureFit k) ;;
  lift ExternalError (gm_fit L k (seed self) X).

Definition mixture_bic (gm : GaussianMixture) (X : matrix) : M L Q :=
  tick EvMixtureBic ;;
  ret (gm_bic L gm X).

Definition mixture_sample (gm : GaussianMixture) (n : nat) : M L matrix :=
  tick (EvMixtureSample n) ;;
  lift ExternalError (gm_sample L gm n).

(** Lines 74-76: one fit and one BIC per candidate, appended in order. *)
Fixpoint bic_search (ks : list nat) (X : matrix) : M L (list Q) :=
  match ks with
  | [] => ret []
  | k :: ks' =>
      gm <- mixture_fit k X ;;
      b <- mixture_bic gm X ;;
      metric_list <- bic_search ks' X ;;
      ret (b :: metric_list)
  end.

(** Lines 69-100: the synthetic normal data.  The result carries the
    variables the rest of the method reads: [gm], [X] and
    [X_synthetic_normal] (unbound on the branch that only passes). *)
Definition synthetic_normal (mode : string) (X : matrix) (pts_n : nat)
  : M L (option GaussianMixture * matrix * option matrix) :=
  if in_list mode ["local"; "cluster"; "global"]%string then
    metric_list <- bic_search n_components_list X ;;
    let best_n_components :=
      nth (np_argmin metric_list) n_components_list 0 in
    gm <- mixture_fit best_n_components X ;;
    X_synthetic_normal <- mixture_sample gm pts_n ;;
    ret (Some gm, X, Some X_synthetic_normal)
  else if String.eqb mode "dependency" then
    X <- (if 50 <? shape1 X then
            idx <- np_random_choice (seq 0 (shape1 X)) 50 false ;;
            lift IndexError (take_cols idx X)
          else ret X) ;;
    tick EvVineFit ;;
    copula <- call (vine_fit L X) ;;
    tick (EvVineSample pts_n) ;;
    X_synthetic_normal <- call (vine_sample L copula pts_n) ;;
    ret (None, X, Some X_synthetic_normal)
  else ret (None, X, None).

(** Lines 117-120: one kernel density estimate per feature. *)
Fixpoint kde_columns (X : matrix) (pts_a : nat) (features : list nat)
  : M L (list (list Q)) :=
  match features with
  | [] => ret []
  | i :: features' =>
      tick (EvKdeFit i) ;;
      k <- lift ExternalError (kde_fit L (column X i)) ;;
      tick (EvKdeSample pts_a) ;;
      s <- call (kde_sample L k pts_a) ;;
      c <- lift ValueError (fill_column pts_a s) ;;
      cols <- kde_columns X pts_a features' ;;
      ret (c :: cols)
  end.

(** Lines 126-130: one uniform draw per feature of the synthetic normal
    data, between its scaled minimum and its scaled maximum. *)
Fixpoint global_columns (X_synthetic_normal : matrix) (percentage : Q)
  (pts_a : nat) (features : list nat) : M L (list (list Q)) :=
  match features with
  | [] => ret []
  | i :: features' =>
      lo <- lift ValueError (np_min (column X_synthetic_normal i)) ;;
      hi <- lift ValueError (np_max (column X_synthetic_normal i)) ;;
      let low := (lo * (1 + percentage))%Q in
      let high := (hi * (1 + percentage))%Q in
      c <- np_random_uniform low high pts_a ;;
      cols <- global_columns X_synthetic_normal percentage pts_a features' ;;
      ret (c :: cols)
  end.

(** Lines 103-135: the synthetic anomalies. *)
Definition synthetic_anomalies (mode : string) (alpha percentage : Q)
  (gm : option GaussianMixture) (X : matrix)
  (X_synthetic_normal : option matrix) (pts_a : nat) : M L (option matrix) :=
  if String.eqb mode "local" then
    gm <- lift NameError gm ;;
    Xa <- mixture_sample (scale_covariances alpha gm) pts_a ;;
    ret (Some Xa)
  else if String.eqb mode "cluster" then
    gm <- lift NameError gm ;;
    Xa <- mixture_sample (scale_means alpha gm) pts_a ;;
    ret (Some Xa)
  else if String.eqb mode "dependency" then
    cols <- kde_columns X pts_a (seq 0 (shape1 X)) ;;
    ret (Some (of_columns pts_a cols))
  else if String.eqb mode "global" then
    Xn <- lift NameError X_synthetic_normal ;;
    cols <- global_columns Xn percentage pts_a (seq 0 (shape1 Xn)) ;;
    match cols with
    | [] =>
        (* [np.array([]).T] is one-dimensional: line 137 cannot
           concatenate it with the two-dimensional normal data *)
        raise ValueError
    | _ :: _ => ret (Some (of_columns pts_a cols))
    end
  else ret None.

Definition generate_realistic_synthetic (X : matrix) (y : loc)
  (realistic_synthetic_mode : string) (alpha percentage : Q)
  : M L (matrix * loc) :=
  if in_list realistic_synthetic_mode
       ["local"; "cluster"; "dependency"; "global"]%string
  then
    yv <- load y ;;
    let pts_n := length (np_where yv 0) in
    let pts_a := length (np_where yv 1) in
    X <- lift IndexError (mask_rows (map (Z.eqb 0) yv) X) ;;
    ' (gm, X, X_synthetic_normal) <-
        synthetic_normal realistic_synthetic_mode X pts_n ;;
    X_synthetic_anomalies <-
        synthetic_anomalies realistic_synthetic_mode alpha percentage
                            gm X X_synthetic_normal pts_a ;;
    Xn <- lift NameError X_synthetic_normal ;;
    Xa <- lift NameError X_synthetic_anomalies ;;
    X <- lift ValueError (concatenate0 Xn Xa) ;;
    y <- alloc (repeat 0%Z (shape0 Xn) ++ repeat 1%Z (shape0 Xa)) ;;
    ret (X, y)
  else raise NotImplementedError.

(** *** The three kinds of noise *)

(** Line 159.  [duplicate_times] is an [int]: its product with the count
    is an exact integer, which [int] leaves as it is. *)
Definition add_duplicated_anomalies (X : matrix) (y : loc)
  (duplicate_times : Q) : M L (matrix * loc) :=
  if Qle_bool duplicate_times 1 then ret (X, y)
  else
    yv <- load y ;;
    let idx_n := np_where yv 0 in
    let idx_a := np_where yv 1 in
    idx_a <- np_random_choice idx_a
               (py_int (Qof_nat (length idx_a) * duplicate_times)) true ;;
    idx <- random_shuffle (idx_n ++ idx_a) ;;
    X <- lift IndexError (take_rows idx X) ;;
    yv <- lift IndexError (take idx yv) ;;
    y <- alloc yv ;;
    ret (X, y).

(** Lines 174-179: each noise column copies the range of one feature
    picked at random. *)
Fixpoint noise_columns (X : matrix) (noise_dim : nat) : M L (list (list Q)) :=
  match noise_dim with
  | O => ret []
  | S noise_dim' =>
      idx <- np_random_choice (seq 0 (shape1 X)) 1 true ;;
      Xi <- lift IndexError (take_cols idx X) ;;
      X_min <- lift ValueError (np_min (concat (rows Xi))) ;;
      X_max <- lift ValueError (np_max (concat (rows Xi))) ;;
      c <- np_random_uniform X_min X_max (shape0 X) ;;
      X_noise <- noise_columns X noise_dim' ;;
      ret (c :: X_noise)
  end.

(** Lines 173-186: the noise columns are appended and the columns of the
    widened matrix are put in a random order. *)
Definition append_noise (X : matrix) (noise_dim : Z) : M L matrix :=
  X_noise <- noise_columns X (Z.to_nat noise_dim) ;;
  let X_noise := of_columns (shape0 X) X_noise in
  X <- lift ValueError (concatenate1 X X_noise) ;;
  idx <- np_random_choice (seq 0 (shape1 X)) (Z.of_nat (shape1 X)) false ;;
  lift IndexError (take_cols idx X).

Definition add_irrelevant_features (X : matrix) (y : loc) (noise_ratio : Q)
  : M L (matrix * loc) :=
  if Qeq_bool noise_ratio 0 then ret (X, y)
  else
    noise_dim <- attempt (noise_dimension noise_ratio (shape1 X)) ;;
    if (0 <? noise_dim)%Z then
      X <- append_noise X noise_dim ;;
      ret (X, y)
    else ret (X, y).

(** [y[idx_flips] = 1 - y[idx_flips]] writes into the array it was given. *)
Definition add_label_contamination (X : matrix) (y : loc) (noise_ratio : Q)
  : M L (matrix * loc) :=
  if Qeq_bool noise_ratio 0 then ret (X, y)
  else
    yv <- load y ;;
    size <- attempt (flip_target (length yv) noise_ratio) ;;
    idx_flips <- np_random_choice (seq 0 (length yv)) size false ;;
    flipped <- lift IndexError (take idx_flips yv) ;;
    yv <- lift IndexError
            (scatter idx_flips (map (fun v => (1 - v)%Z) flipped) yv) ;;
    store y yv ;;
    ret (X, y).

(** *** [generator] *)

(** Lines 212-275: the arrays of the dataset named by [self.dataset]. *)
Definition load_data : M L (matrix * loc) :=
  match dataset self with
  | Some name =>
      if in_list name supported_datasets then
        ' (X, yv) <- lift ExternalError (load_dataset L name) ;;
        y <- alloc yv ;;
        ret (X, y)
      else raise NotImplementedError
  | None => raise NotImplementedError
  end.

(** Lines 278-286: [n_labeled_anomalies] is computed and never read; only
    the test on the type of [la] has an effect. *)
Definition check_la (la : labeled_anomalies) : M L unit :=
  match la with
  | LaFloat _ => ret tt
  | LaInt _ => ret tt
  | LaOther => raise NotImplementedError
  end.

(** Lines 289-302: small datasets are resampled with replacement up to the
    threshold, large ones are subsampled to 10000 rows. *)
Definition resample (X : matrix) (y : loc) (size : Z) (replace : bool)
  : M L (matrix * loc) :=
  yv <- load y ;;
  reseed (seed self) ;;
  idx <- np_random_choice (seq 0 (length yv)) size replace ;;
  X <- lift IndexError (take_rows idx X) ;;
  yv <- lift IndexError (take idx yv) ;;
  y <- alloc yv ;;
  ret (X, y).

Definition normalise_size (X : matrix) (y : loc) : M L (matrix * loc) :=
  yv <- load y ;;
  ' (X, y) <-
      (if (Z.of_nat (length yv) <? n_samples_threshold self)%Z
          && generate_duplicates self
       then resample X y (n_samples_threshold self) true
       else ret (X, y)) ;;
  yv <- load y ;;
  if (10000 <? Z.of_nat (length yv))%Z
  then resample X y 10000 false
  else ret (X, y).

(** Lines 305-319 *)
Definition synthesise (X : matrix) (y : loc)
  (realistic_synthetic_mode : option string) (alpha percentage : Q)
  : M L (matrix * loc) :=
  match realistic_synthetic_mode with
  | None => ret (X, y)
  | Some mode =>
      if String.eqb mode "dependency" then
        match dataset self with
        | Some name =>
            match dependency_outlier L name with
            | Some (X, yv) => y <- alloc yv ;; ret (X, y)
            | None => raise NotImplementedError
            end
        | None => raise NotImplementedError
        end
      else generate_realistic_synthetic X y mode alpha percentage
  end.

(** Lines 322-336: before the split only irrelevant features are added. *)
Definition noise_before_split (X : matrix) (y : loc)
  (noise_type : option string) (noise_ratio : Q) : M L (matrix * loc) :=
  match noise_type with
  | None => ret (X, y)
  | Some s =>
      if String.eqb s "duplicated_anomalies" then ret (X, y)
      else if String.eqb s "irrelevant_features"
      then add_irrelevant_features X y noise_ratio
      else if String.eqb s "label_contamination" then ret (X, y)
      else raise NotImplementedError
  end.

(** Line 344: the four arrays of the split are new arrays. *)
Definition split (X : matrix) (y : loc) : M L dataset_split :=
  yv <- load y ;;
  tick EvSplit ;;
  ' (train, test) <- call (split_indices L yv (test_size self)) ;;
  Xtr <- lift IndexError (take_rows train X) ;;
  Xte <- lift IndexError (take_rows test X) ;;
  ytr <- lift IndexError (take train yv) ;;
  yte <- lift IndexError (take test yv) ;;
  ytr <- alloc ytr ;;
  yte <- alloc yte ;;
  ret (Split Xtr ytr Xte yte).

(** Lines 347-353 *)
Definition noise_after_split (d : dataset_split)
  (noise_type : option string) (duplicate_times noise_ratio : Q)
  : M L dataset_split :=
  if is_noise noise_type "duplicated_anomalies" then
    ' (Xtr, ytr) <-
        add_duplicated_anomalies (X_train d) (y_train d) duplicate_times ;;
    ' (Xte, yte) <-
        add_duplicated_anomalies (X_test d) (y_test d) duplicate_times ;;
    ret (Split Xtr ytr Xte yte)
  else if is_noise noise_type "label_contamination" then
    ' (Xtr, ytr) <-
        add_label_contamination (X_train d) (y_train d) noise_ratio ;;
    ret (Split Xtr ytr (X_test d) (y_test d))
  else ret d.

(** Lines 356-358 *)
Definition minmax_scale (d : dataset_split) : M L dataset_split :=
  tick EvScale ;;
  sc <- lift ExternalError (scaler_fit L (X_train d)) ;;
  Xtr <- lift ExternalError (scaler_transform L sc (X_train d)) ;;
  Xte <- lift ExternalError (scaler_transform L sc (X_test d)) ;;
  ret (Split Xtr (y_train d) Xte (y_test d)).

(** Lines 364-375: the anomalies that keep their label. *)
Definition select_labeled (la : labeled_anomalies)
  (at_least_one_labeled : bool) (idx_anomaly : list nat) : M L (list nat) :=
  match la with
  | LaFloat la =>
      size <- attempt (labeled_target la at_least_one_labeled
                                      (length idx_anomaly)) ;;
      np_random_choice idx_anomaly size false
  | LaInt la =>
      if (Z.of_nat (length idx_anomaly) <? la)%Z then raise AssertionError
      else np_random_choice idx_anomaly la false
  | LaOther => raise NotImplementedError
  end.

(** Lines 361-389: the label partition, written into [y_train].  The
    result is [idx_labeled_anomaly].  The class has no method
    [remove_anomaly_contamination]. *)
Definition partition_labels (y_train : loc) (la : labeled_anomalies)
  (at_least_one_labeled : bool) (noise_type : option string)
  : M L (list nat) :=
  yv <- load y_train ;;
  let idx_normal := np_where yv 0 in
  let idx_anomaly := np_where yv 1 in
  idx_labeled_anomaly <- select_labeled la at_least_one_labeled idx_anomaly ;;
  let idx_unlabeled_anomaly := np_setdiff1d idx_anomaly idx_labeled_anomaly in
  idx_unlabeled_anomaly <-
    (if is_noise noise_type "anomaly_contamination"
     then raise AttributeError
     else ret idx_unlabeled_anomaly) ;;
  let idx_unlabeled := idx_normal ++ idx_unlabeled_anomaly in
  yv <- load y_train ;;
  yv <- lift IndexError (assign idx_unlabeled 0 yv) ;;
  store y_train yv ;;
  yv <- load y_train ;;
  yv <- lift IndexError (assign idx_labeled_anomaly 1 yv) ;;
  store y_train yv ;;
  ret idx_labeled_anomaly.

(** Lines 209-319: the data as loaded, resized and synthesised. *)
Definition before_noise (la : labeled_anomalies)
  (realistic_synthetic_mode : option string) (alpha percentage : Q)
  : M L (matrix * loc) :=
  reseed (seed self) ;;
  ' (X, y) <- load_data ;;
  check_la la ;;
  ' (X, y) <- normalise_size X y ;;
  synthesise X y realistic_synthetic_mode alpha percentage.

(** Lines 209-336: everything up to the split. *)
Definition before_split (la : labeled_anomalies)
  (realistic_synthetic_mode : option string) (alpha percentage : Q)
  (noise_type : option string) (noise_ratio : Q) : M L (matrix * loc) :=
  ' (X, y) <- before_noise la realistic_synthetic_mode alpha percentage ;;
  noise_before_split X y noise_type noise_ratio.

(** Lines 346-358: from the split to the scaled arrays. *)
Definition after_split (d : dataset_split) (noise_type : option string)
  (duplicate_times noise_ratio : Q) : M L dataset_split :=
  d <- noise_after_split d noise_type duplicate_times noise_ratio ;;
  minmax_scale d.

(** Lines 209-358: everything up to the label partition. *)
Definition prepare (la : labeled_anomalies)
  (realistic_synthetic_mode : option string) (alpha percentage : Q)
  (noise_type : option string) (duplicate_times noise_ratio : Q)
  : M L dataset_split :=
  ' (X, y) <- before_split la realistic_synthetic_mode alpha percentage
                           noise_type noise_ratio ;;
  d <- split X y ;;
  after_split d noise_type duplicate_times noise_ratio.

(** The whole method.  What it prints ([data_description] included) is
    not modelled. *)
Definition generator (la : labeled_anomalies) (at_least_one_labeled : bool)
  (realistic_synthetic_mode : option string) (alpha percentage : Q)
  (noise_type : option string) (duplicate_times contam_ratio noise_ratio : Q)
  : M L dataset_split :=
  d <- prepare la realistic_synthetic_mode alpha percentage noise_type
               duplicate_times noise_ratio ;;
  partition_labels (y_train d) la at_least_one_labeled noise_type ;;
  ret d.

End Methods.

(* ================================================================== *)
(** ** An executable library

    A deterministic stand-in for the collaborators, used to run the
    methods on concrete data.  When [strict] it refuses, like
    scikit-learn, to fit more components than there are rows and to
    sample fewer than one row; otherwise it serves every request. *)

Module Toy.

Definition toy_fit (strict : bool) (k : nat) (seed : Z) (X : matrix)
  : option GaussianMixture :=
  if negb strict || ((k <=? shape0 X) && (1 <=? k))
  then Some (FittedMixture k seed (repeat (1 # Pos.of_nat k) k)
               (firstn k (rows X))
               (repeat (repeat (repeat 1%Q (shape1 X)) (shape1 X)) k))
  else None.

Definition toy_sample (strict : bool) (gm : GaussianMixture) (n : nat)
  : option matrix :=
  if strict && (n <? 1) then None
  else
    let d := length (hd [] (hd [] (covariances_ gm))) in
    let mean := hd (repeat 0%Q d) (means_ gm) in
    let spread := hd 0%Q (hd [] (hd [] (covariances_ gm))) in
    Some (Matrix d
            (map (fun i => map (fun m => (m + Qof_nat i * spread)%Q) mean)
                 (seq 0 n))).

Definition toy_split (yv : list Z) (test_size : Q) (g : nat)
  : option (list nat * list nat * nat) :=
  let n := length yv in
  let k := Z.to_nat (py_int (Qof_nat n * test_size)) in
  Some (seq k (n - k), seq 0 k, S g).

(** The library is parameterised by whether the mixture is [strict] about
    its sizes, by the BIC it reports for each number of components and by
    the dataset it serves under every supported name. *)
Definition lib (strict : bool) (bic : nat -> Q) (data : matrix * list Z)
  : library :=
  {| rng_state := nat;
     vine := matrix;
     kde := list Q;
     scaler := unit;
     random_sample := fun g => ((Z.of_nat (g mod 4) # 4)%Q, S g);
     permutation := fun n g => (rev (seq 0 n), S g);
     randint := fun n g => (g mod n, S g);
     shuffle_order := fun n g => (rev (seq 0 n), S g);
     set_seed := fun s _ => Z.to_nat s;
     gm_fit := toy_fit strict;
     gm_bic := fun gm _ => bic (n_components gm);
     gm_sample := toy_sample strict;
     vine_fit := fun X g => if shape0 X =? 0 then None else Some (X, g);
     vine_sample := fun v n g =>
       Some (Matrix (shape1 v) (repeat (hd [] (rows v)) n), S g);
     kde_fit := fun c => match c with [] => None | _ => Some c end;
     kde_sample := fun k n g => Some (repeat (hd 0%Q k) n, S g);
     load_dataset := fun _ => Some data;
     dependency_outlier := fun _ => None;
     split_indices := toy_split;
     scaler_fit := fun _ => Some tt;
     scaler_transform := fun _ X => Some X |}.

(** A world whose store holds the given label arrays. *)
Definition world_of (L : library) (g : rng_state L) (ys : list (list Z))
  : world L :=
  World g (fun l => nth l ys []) (length ys) [].

Definition self : DataGenerator :=
  Self 42 (Some "wine"%string) (3 # 10) true 10.

(** Twelve rows with two features; the last two rows are anomalies. *)
Definition X12 : matrix :=
  Matrix 2 (map (fun i => [Qof_nat i; (Qof_nat i * 2)%Q]) (seq 1 12)).

Definition y12 : list Z := (repeat 0 10 ++ repeat 1 2)%Z.

Definition flat (_ : nat) : Q := 0%Q.

Definition L0 : library := lib true flat (X12, y12).

Definition w12 : world L0 := world_of L0 0 [y12].

(** The world [generator] starts from: nothing stored, nothing logged. *)
Definition w_init : world L0 := world_of L0 0 [].

(** The same data served by a library that accepts every size. *)
Definition L1 : library := lib false flat (X12, y12).

(** Twelve rows that are all anomalies, and twelve that are all normal. *)
Definition w_ones : world L1 := world_of L1 0 [repeat 1%Z 12].

Definition w_zeros : world L0 := world_of L0 0 [repeat 0%Z 12].

(** A BIC that is minimal from three components on. *)
Definition tied (k : nat) : Q := if k <? 3 then 1%Q else 0%Q.

Definition L2 : library := lib true tied (X12, y12).

Definition w_tied : world L2 := world_of L2 0 [y12].

(** The same rows with anomalies among the first three, which the split
    of this library sends to the test set. *)
Definition y12b : list Z := [1; 0; 1; 0; 0; 0; 0; 0; 0; 0; 1; 1]%Z.

Definition L3 : library := lib true flat (X12, y12b).

Definition w_init3 : world L3 := world_of L3 0 [].

(** On the twelve rows the mode returns twelve rows, ten labels 0 and two
    labels 1. *)
Definition returns_blocks (mode : string) : Prop :=
  exists X' y' w',
    generate_realistic_synthetic self X12 0 mode 5 (1 # 10) w12
    = inr ((X', y'), w') /\
    shape0 X' = 12 /\
    cells w' y' = (repeat 0 10 ++ repeat 1 2)%Z.

(** [n] rows with [d] features and distinct values in every column. *)
Definition grid (n d : nat) : matrix :=
  Matrix d (map (fun i => map (fun j => Qof_nat (i + j)) (seq 0 d))
                (seq 1 n)).

(** The library [L] with a table of precomputed dependency outliers. *)
Definition with_outliers (L : library)
  (table : string -> option (matrix * list Z)) : library :=
  {| rng_state := rng_state L;
     vine := vine L;
     kde := kde L;
     scaler := scaler L;
     random_sample := random_sample L;
     permutation := permutation L;
     randint := randint L;
     shuffle_order := shuffle_order L;
     set_seed := set_seed L;
     gm_fit := gm_fit L;
     gm_bic := gm_bic L;
     gm_sample := gm_sample L;
     vine_fit := vine_fit L;
     vine_sample := vine_sample L;
     kde_fit := kde_fit L;
     kde_sample := kde_sample L;
     load_dataset := load_dataset L;
     dependency_outlier := table;
     split_indices := split_indices L;
     scaler_fit := scaler_fit L;
     scaler_transform := scaler_transform L |}.

(** Three precomputed rows, stored for the wine dataset only. *)
Definition outliers3 : matrix * list Z :=
  (Matrix 2 [[1; 2]; [3; 4]; [9; 0]]%Q, [0; 0; 1]%Z).

Definition L4 : library :=
  with_outliers L0
    (fun name => if String.eqb name "wine" then Some outliers3 else None).

Definition w_init4 : world L4 := world_of L4 0 [].

End Toy.

(* ================================================================== *)
(** ** Vocabulary of the statements *)

Definition binary (v : Z) : Prop := v = 0%Z \/ v = 1%Z.

(** A label vector goes with a matrix when it has one binary label per
    row. *)
Definition aligned (X : matrix) (yv : list Z) : Prop :=
  length yv = shape0 X /\ Forall binary yv.

(** A point [u] of the unit interval, as [random_sample] draws it. *)
Definition unit_interval (u : Q) : Prop := (0 <= u)%Q /\ (u < 1)%Q.

(** Column [c] holds uniform draws between the scaled minimum and the
    scaled maximum of feature [i] of [Xn]. *)
Definition global_column (L : library) (Xn : matrix) (percentage : Q) (a i : nat)
  (c : list Q) : Prop :=
  exists lo hi us,
    np_min (column Xn i) = Some lo /\ np_max (column Xn i) = Some hi /\
    length us = a /\ (library_ok L -> Forall unit_interval us) /\
    c = map (fun u => (lo * (1 + percentage)
                       + (hi * (1 + percentage) - lo * (1 + percentage)) * u)%Q)
            us.

(** Column [c] has one value per row of [X], all of them between the
    minimum and the maximum of the feature [s] of [X]. *)
Definition noise_column (X : matrix) (s : nat) (c : list Q) : Prop :=
  s < shape1 X /\ length c = shape0 X /\
  exists lo hi,
    np_min (column X s) = Some lo /\ np_max (column X s) = Some hi /\
    Forall (fun v => (lo <= v)%Q /\ (v <= hi)%Q) c.

Section Vocabulary.

Context {L : library}.

(** The store is untouched and nothing is logged. *)
Definition quiet (w w' : world L) : Prop :=
  cells w' = cells w /\ next_loc w' = next_loc w /\ trace w' = trace w.

(** The store is untouched and [t] is logged. *)
Definition logs (t : list event) (w w' : world L) : Prop :=
  cells w' = cells w /\ next_loc w' = next_loc w /\
  trace w' = trace w ++ t.

End Vocabulary.

(* ================================================================== *)
(** * Properties *)

(** ** Numbers *)

Lemma py_int_nonneg (x : Q) : (0 <= x)%Q -> py_int x = Qfloor x.
Proof.
  destruct x as [a b]. unfold Qle, py_int, Qfloor. simpl. intros H.
  rewrite Z.quot_div_nonneg; lia.
Qed.

Lemma Qltb_lt (a b : Q) : Qltb a b = true <-> (a < b)%Q.
Proof.
  unfold Qltb. rewrite negb_true_iff. split; intros H.
  - apply Qnot_le_lt. intros Hle. apply Qle_bool_iff in Hle. congruence.
  - destruct (Qle_bool b a) eqn:E; [|reflexivity].
    apply Qle_bool_iff in E. apply Qle_not_lt in E. contradiction.
Qed.

Lemma Qltb_ge (a b : Q) : Qltb a b = false <-> (b <= a)%Q.
Proof.
  unfold Qltb. rewrite negb_false_iff. apply Qle_bool_iff.
Qed.

Lemma Qof_nat_nonneg (n : nat) : (0 <= Qof_nat n)%Q.
Proof.
  unfold Qof_nat, Qle. simpl. lia.
Qed.

(** A point of the segment from [lo] to [hi]. *)
Lemma uniform_between (lo hi u : Q) :
  (lo <= hi)%Q -> (0 <= u)%Q -> (u < 1)%Q ->
  (lo <= lo + (hi - lo) * u)%Q /\ (lo + (hi - lo) * u <= hi)%Q.
Proof.
  intros Hlh H0 H1. split; nra.
Qed.

Lemma py_int_nonpos (x : Q) : (x <= 0)%Q -> (py_int x <= 0)%Z.
Proof.
  destruct x as [a b]. unfold Qle, py_int. simpl. intros H.
  change 0%Z with (Z.quot 0 (Z.pos b)). apply Z.quot_le_mono; lia.
Qed.

(** ** binary64 rounding *)


Lemma pow2_pos (e : Z) : (0 < pow2 e)%Q.
Proof. apply Qpower_0_lt. reflexivity. Qed.

Lemma pow2_add (a b : Z) : (pow2 (a + b) == pow2 a * pow2 b)%Q.
Proof. apply Qpower_plus. discriminate. Qed.

Lemma pow2_le (a b : Z) : (a <= b)%Z -> (pow2 a <= pow2 b)%Q.
Proof. intros H. apply Qpower_le_compat_l; [exact H|discriminate]. Qed.

Lemma pow2_lt (a b : Z) : (a < b)%Z -> (pow2 a < pow2 b)%Q.
Proof. intros H. apply Qpower_lt_compat_l; [exact H|reflexivity]. Qed.

Lemma pow2_inject (e : Z) : (0 <= e)%Z -> (pow2 e == inject_Z (2 ^ e))%Q.
Proof. intros H. symmetry. apply (Zpower_Qpower 2 e H). Qed.

Lemma pow2_succ (e : Z) : (pow2 (e + 1) == 2 * pow2 e)%Q.
Proof. rewrite pow2_add. change (pow2 1) with 2%Q. ring. Qed.

Lemma ilog2_bounds (q : Q) (e : Z) :
  (0 < q)%Q -> e = (Z.log2 (Qnum q) - Z.log2 (Zpos (Qden q)))%Z ->
  (pow2 (e - 1) <= q)%Q /\ (q < pow2 (e + 1))%Q.
Proof.
  intros Hq He. destruct q as [a b].
  change (e = (Z.log2 a - Z.log2 (Zpos b))%Z) in He.
  assert (Ha : (0 < a)%Z) by (unfold Qlt in Hq; simpl in Hq; lia).
  pose proof (Z.log2_spec a Ha) as [Ha1 Ha2].
  pose proof (Z.log2_spec (Zpos b) eq_refl) as [Hb1 Hb2].
  pose proof (Z.log2_nonneg a) as Hla.
  pose proof (Z.log2_nonneg (Zpos b)) as Hlb.
  set (la := Z.log2 a) in *. set (lb := Z.log2 (Zpos b)) in *.
  assert (HA1 : (pow2 la <= inject_Z a)%Q)
    by (rewrite pow2_inject by lia; rewrite <- Zle_Qle; exact Ha1).
  assert (HA2 : (inject_Z a < pow2 (la + 1))%Q)
    by (rewrite pow2_inject by lia; rewrite <- Zlt_Qlt; exact Ha2).
  assert (HB1 : (pow2 lb <= inject_Z (Zpos b))%Q)
    by (rewrite pow2_inject by lia; rewrite <- Zle_Qle; exact Hb1).
  assert (HB2 : (inject_Z (Zpos b) < pow2 (lb + 1))%Q)
    by (rewrite pow2_inject by lia; rewrite <- Zlt_Qlt; exact Hb2).
  assert (Hq' : (a # b) * inject_Z (Zpos b) == inject_Z a).
  { unfold Qeq, Qmult, inject_Z. simpl. lia. }
  assert (HB0 : (0 < inject_Z (Zpos b))%Q) by reflexivity.
  assert (E1 : (pow2 (e + 1) * pow2 lb == pow2 (la + 1))%Q).
  { rewrite <- pow2_add. replace (e + 1 + lb)%Z with (la + 1)%Z by lia.
    reflexivity. }
  assert (E2 : (pow2 (e - 1) * pow2 (lb + 1) == pow2 la)%Q).
  { rewrite <- pow2_add. replace (e - 1 + (lb + 1))%Z with la by lia.
    reflexivity. }
  pose proof (pow2_pos (e + 1)) as P1. pose proof (pow2_pos (e - 1)) as P2.
  pose proof (pow2_pos lb) as P3.
  split.
  - apply Qnot_lt_le. intros Hc.
    assert ((a # b) * inject_Z (Zpos b) < pow2 (e - 1) * pow2 (lb + 1))%Q.
    { apply Qle_lt_trans with (pow2 (e - 1) * inject_Z (Zpos b))%Q.
      - apply Qmult_le_compat_r; apply Qlt_le_weak; [exact Hc|exact HB0].
      - rewrite !(Qmult_comm (pow2 (e - 1))).
        apply Qmult_lt_compat_r; assumption. }
    rewrite Hq', E2 in H. apply Qlt_not_le in H. contradiction.
  - apply Qnot_le_lt. intros Hc.
    assert (pow2 (e + 1) * pow2 lb <= (a # b) * inject_Z (Zpos b))%Q.
    { apply Qle_trans with (pow2 (e + 1) * inject_Z (Zpos b))%Q.
      - rewrite !(Qmult_comm (pow2 (e + 1))).
        apply Qmult_le_compat_r; [exact HB1|apply Qlt_le_weak; exact P1].
      - apply Qmult_le_compat_r; [exact Hc|apply Qlt_le_weak; exact HB0]. }
    rewrite Hq', E1 in H. apply Qle_not_lt in H. contradiction.
Qed.

Lemma ilog2_spec (q : Q) :
  (0 < q)%Q -> (pow2 (ilog2 q) <= q)%Q /\ (q < pow2 (ilog2 q + 1))%Q.
Proof.
  intros Hq. unfold ilog2.
  destruct (ilog2_bounds q _ Hq eq_refl) as [H1 H2].
  set (e := (Z.log2 (Qnum q) - Z.log2 (Zpos (Qden q)))%Z) in *.
  destruct (Qle_bool (pow2 e) q) eqn:E.
  - apply Qle_bool_iff in E. auto.
  - split; [exact H1|]. replace (e - 1 + 1)%Z with e by lia.
    apply Qnot_le_lt. intros Hc. apply Qle_bool_iff in Hc. congruence.
Qed.

Lemma ilog2_unique (q : Q) (e : Z) :
  (pow2 e <= q)%Q -> (q < pow2 (e + 1))%Q -> ilog2 q = e.
Proof.
  intros H1 H2.
  assert (Hq : (0 < q)%Q) by (eapply Qlt_le_trans; [apply pow2_pos|exact H1]).
  destruct (ilog2_spec q Hq) as [H3 H4].
  assert (A : (ilog2 q < e + 1)%Z).
  { apply (Qpower_lt_compat_l_inv 2); [|reflexivity].
    eapply Qle_lt_trans; [exact H3|exact H2]. }
  assert (B : (e < ilog2 q + 1)%Z).
  { apply (Qpower_lt_compat_l_inv 2); [|reflexivity].
    eapply Qle_lt_trans; [exact H1|exact H4]. }
  lia.
Qed.

Lemma ilog2_mono (p q : Q) : (0 < p)%Q -> (p <= q)%Q -> (ilog2 p <= ilog2 q)%Z.
Proof.
  intros Hp Hpq.
  assert (Hq : (0 < q)%Q) by (eapply Qlt_le_trans; eauto).
  destruct (ilog2_spec p Hp) as [H1 _]. destruct (ilog2_spec q Hq) as [_ H2].
  assert (A : (ilog2 p < ilog2 q + 1)%Z).
  { apply (Qpower_lt_compat_l_inv 2); [|reflexivity].
    eapply Qle_lt_trans; [exact H1|].
    eapply Qle_lt_trans; [exact Hpq|exact H2]. }
  lia.
Qed.

Lemma ilog2_comp (p q : Q) : (0 < p)%Q -> (p == q)%Q -> ilog2 p = ilog2 q.
Proof.
  intros Hp E. destruct (ilog2_spec p Hp) as [H1 H2].
  symmetry. apply ilog2_unique; rewrite <- E; assumption.
Qed.

(** ** Rounding to the nearest integer *)

Lemma rne_comp (x y : Q) : (x == y)%Q -> rne x = rne y.
Proof.
  intros E. unfold rne. rewrite (Qfloor_comp _ _ E).
  assert (E' : (x - inject_Z (Qfloor y) == y - inject_Z (Qfloor y))%Q)
    by (rewrite E; reflexivity).
  rewrite (Qcompare_comp _ _ E' _ _ (Qeq_refl (1 # 2))). reflexivity.
Qed.

Lemma rne_floor (x : Q) : (Qfloor x <= rne x <= Qfloor x + 1)%Z.
Proof.
  unfold rne. destruct (_ ?= _)%Q; [destruct (Z.even _)| |]; lia.
Qed.

Lemma rne_mono (x y : Q) : (x <= y)%Q -> (rne x <= rne y)%Z.
Proof.
  intros H. pose proof (Qfloor_resp_le _ _ H) as Hf.
  pose proof (rne_floor x) as Hx. pose proof (rne_floor y) as Hy.
  destruct (Z.eq_dec (Qfloor x) (Qfloor y)) as [E|NE]; [|lia].
  unfold rne. rewrite <- E.
  destruct (x - inject_Z (Qfloor x) ?= 1 # 2)%Q eqn:Cx;
    destruct (y - inject_Z (Qfloor x) ?= 1 # 2)%Q eqn:Cy;
    try (destruct (Z.even (Qfloor x))); try lia; exfalso;
    repeat match goal with
    | [ C : (_ ?= _)%Q = Eq |- _ ] => apply <- Qeq_alt in C
    | [ C : (_ ?= _)%Q = Lt |- _ ] => apply <- Qlt_alt in C
    | [ C : (_ ?= _)%Q = Gt |- _ ] => apply <- Qgt_alt in C
    end; lra.
Qed.

Lemma rne_Z (z : Z) : rne (inject_Z z) = z.
Proof.
  unfold rne. rewrite Qfloor_Z.
  assert (E : (inject_Z z - inject_Z z ?= 1 # 2)%Q = Lt).
  { apply -> Qlt_alt. lra. }
  rewrite E. reflexivity.
Qed.

Lemma rne_ge (x : Q) (k : Z) : (inject_Z k <= x)%Q -> (k <= rne x)%Z.
Proof. intros H. rewrite <- (rne_Z k). apply rne_mono. exact H. Qed.

Lemma rne_le (x : Q) (k : Z) : (x <= inject_Z k)%Q -> (rne x <= k)%Z.
Proof. intros H. rewrite <- (rne_Z k). apply rne_mono. exact H. Qed.

(** ** Rounding to the nearest double *)

Lemma ilog2_lt (q : Q) (e : Z) : (0 < q)%Q -> (q < pow2 e)%Q -> (ilog2 q < e)%Z.
Proof.
  intros Hq H. destruct (ilog2_spec q Hq) as [H1 _].
  apply (Qpower_lt_compat_l_inv 2); [|reflexivity].
  eapply Qle_lt_trans; [exact H1|exact H].
Qed.

Lemma ilog2_ge (q : Q) (e : Z) : (pow2 e <= q)%Q -> (e <= ilog2 q)%Z.
Proof.
  intros H.
  assert (Hq : (0 < q)%Q) by (eapply Qlt_le_trans; [apply pow2_pos|exact H]).
  destruct (ilog2_spec q Hq) as [_ H2].
  assert (e < ilog2 q + 1)%Z; [|lia].
  apply (Qpower_lt_compat_l_inv 2); [|reflexivity].
  eapply Qle_lt_trans; [exact H|exact H2].
Qed.

Lemma ilog2_pow2 (e : Z) : ilog2 (pow2 e) = e.
Proof.
  apply ilog2_unique; [apply Qle_refl|apply pow2_lt; lia].
Qed.

Lemma ulp_pos (q : Q) : (0 < ulp q)%Q.
Proof. apply pow2_pos. Qed.

Lemma ulp_comp (p q : Q) : (0 < p)%Q -> (p == q)%Q -> ulp p = ulp q.
Proof. intros Hp E. unfold ulp. rewrite (ilog2_comp p q Hp E). reflexivity. Qed.

Lemma nearest_pos_comp (p q : Q) :
  (0 < p)%Q -> (p == q)%Q -> (nearest_pos p == nearest_pos q)%Q.
Proof.
  intros Hp E. unfold nearest_pos. rewrite (ulp_comp p q Hp E).
  assert (E' : (p / ulp q == q / ulp q)%Q) by (rewrite E; reflexivity).
  rewrite (rne_comp _ _ E'). reflexivity.
Qed.

Lemma pow2_split (e : Z) :
  (pow2 (e + 1) == inject_Z (2 ^ 53) * pow2 (e - 52))%Q.
Proof.
  rewrite <- (pow2_inject 53) by lia. rewrite <- pow2_add.
  replace (53 + (e - 52))%Z with (e + 1)%Z by lia. reflexivity.
Qed.

Lemma pow2_split' (e : Z) : (pow2 e == inject_Z (2 ^ 52) * pow2 (e - 52))%Q.
Proof.
  rewrite <- (pow2_inject 52) by lia. rewrite <- pow2_add.
  replace (52 + (e - 52))%Z with e by lia. reflexivity.
Qed.

Lemma nearest_pos_nonneg (q : Q) : (0 < q)%Q -> (0 <= nearest_pos q)%Q.
Proof.
  intros Hq. unfold nearest_pos. apply Qmult_le_0_compat.
  - change 0%Q with (inject_Z 0). rewrite <- Zle_Qle. apply rne_ge.
    apply Qle_shift_div_l; [apply ulp_pos|]. simpl. rewrite Qmult_0_l.
    apply Qlt_le_weak. exact Hq.
  - apply Qlt_le_weak. apply ulp_pos.
Qed.

Lemma nearest_pos_le_top (q : Q) :
  (0 < q)%Q -> (nearest_pos q <= pow2 (Z.max (ilog2 q) (-1022) + 1))%Q.
Proof.
  intros Hq. unfold nearest_pos, ulp. set (e := Z.max (ilog2 q) (-1022)).
  rewrite (pow2_split e).
  apply Qmult_le_compat_r; [|apply Qlt_le_weak, pow2_pos].
  rewrite <- Zle_Qle. apply rne_le.
  apply Qle_shift_div_r; [apply pow2_pos|]. rewrite <- pow2_split.
  destruct (ilog2_spec q Hq) as [_ H]. apply Qlt_le_weak.
  eapply Qlt_le_trans; [exact H|]. apply pow2_le. lia.
Qed.

Lemma nearest_pos_ge_bottom (q : Q) :
  (pow2 (-1022) <= q)%Q -> (pow2 (ilog2 q) <= nearest_pos q)%Q.
Proof.
  intros Hn.
  assert (Hq : (0 < q)%Q) by (eapply Qlt_le_trans; [apply pow2_pos|exact Hn]).
  pose proof (ilog2_ge q _ Hn) as He.
  unfold nearest_pos, ulp. rewrite Z.max_l by lia. set (e := ilog2 q).
  rewrite (pow2_split' e) at 1.
  apply Qmult_le_compat_r; [|apply Qlt_le_weak, pow2_pos].
  rewrite <- Zle_Qle. apply rne_ge.
  apply Qle_shift_div_l; [apply pow2_pos|]. rewrite <- pow2_split'.
  destruct (ilog2_spec q Hq) as [H _]. exact H.
Qed.

Lemma nearest_pos_mono (p q : Q) :
  (0 < p)%Q -> (p <= q)%Q -> (nearest_pos p <= nearest_pos q)%Q.
Proof.
  intros Hp Hpq.
  assert (Hq : (0 < q)%Q) by (eapply Qlt_le_trans; eauto).
  pose proof (ilog2_mono p q Hp Hpq) as He.
  destruct (Z.eq_dec (Z.max (ilog2 p) (-1022)) (Z.max (ilog2 q) (-1022)))
    as [E|NE].
  - unfold nearest_pos, ulp. rewrite E.
    apply Qmult_le_compat_r; [|apply Qlt_le_weak, pow2_pos].
    rewrite <- Zle_Qle. apply rne_mono.
    apply Qmult_le_compat_r; [exact Hpq|].
    apply Qlt_le_weak, Qinv_lt_0_compat, pow2_pos.
  - assert (Hlt : (Z.max (ilog2 p) (-1022) < ilog2 q)%Z) by lia.
    assert (Hn : (pow2 (-1022) <= q)%Q).
    { destruct (ilog2_spec q Hq) as [H _].
      eapply Qle_trans; [|exact H]. apply pow2_le. lia. }
    eapply Qle_trans; [apply nearest_pos_le_top; exact Hp|].
    eapply Qle_trans; [|apply nearest_pos_ge_bottom; exact Hn].
    apply pow2_le. lia.
Qed.

Lemma nearest_zero (q : Q) : (q == 0)%Q -> nearest q = 0%Q.
Proof.
  intros E. assert (C : (q ?= 0)%Q = Eq) by (apply -> Qeq_alt; exact E).
  unfold nearest. rewrite C. reflexivity.
Qed.

Lemma nearest_of_pos (q : Q) : (0 < q)%Q -> nearest q = nearest_pos q.
Proof.
  intros H. assert (C : (q ?= 0)%Q = Gt) by (apply -> Qgt_alt; exact H).
  unfold nearest. rewrite C. reflexivity.
Qed.

Lemma nearest_of_neg (q : Q) : (q < 0)%Q -> nearest q = (- nearest_pos (- q))%Q.
Proof.
  intros H. assert (C : (q ?= 0)%Q = Lt) by (apply -> Qlt_alt; exact H).
  unfold nearest. rewrite C. reflexivity.
Qed.

Lemma nearest_nonneg (q : Q) : (0 <= q)%Q -> (0 <= nearest q)%Q.
Proof.
  intros H. destruct (Qlt_le_dec 0 q) as [Hp|Hz].
  - rewrite nearest_of_pos by exact Hp. apply nearest_pos_nonneg. exact Hp.
  - rewrite nearest_zero; [apply Qle_refl|]. apply Qle_antisym; assumption.
Qed.

Lemma nearest_nonpos (q : Q) : (q <= 0)%Q -> (nearest q <= 0)%Q.
Proof.
  intros H. destruct (Qlt_le_dec q 0) as [Hn|Hz].
  - rewrite nearest_of_neg by exact Hn.
    assert (0 <= nearest_pos (- q))%Q by (apply nearest_pos_nonneg; lra). lra.
  - rewrite nearest_zero; [apply Qle_refl|]. apply Qle_antisym; assumption.
Qed.

Lemma nearest_mono (p q : Q) : (p <= q)%Q -> (nearest p <= nearest q)%Q.
Proof.
  intros H. destruct (Qlt_le_dec 0 p) as [Hp|Hp].
  - assert (Hq : (0 < q)%Q) by lra.
    rewrite !nearest_of_pos by assumption. apply nearest_pos_mono; assumption.
  - destruct (Qlt_le_dec q 0) as [Hq|Hq].
    + assert (Hp' : (p < 0)%Q) by lra.
      rewrite !nearest_of_neg by assumption.
      assert (nearest_pos (- q) <= nearest_pos (- p))%Q
        by (apply nearest_pos_mono; lra).
      lra.
    + apply Qle_trans with 0%Q; [apply nearest_nonpos|apply nearest_nonneg];
        assumption.
Qed.

Lemma nearest_comp (p q : Q) : (p == q)%Q -> (nearest p == nearest q)%Q.
Proof.
  intros E. apply Qle_antisym; apply nearest_mono; rewrite E; apply Qle_refl.
Qed.

#[global] Instance nearest_proper : Proper (Qeq ==> Qeq) nearest.
Proof. intros p q E. apply nearest_comp. exact E. Qed.

#[global] Instance rne_proper : Proper (Qeq ==> eq) rne.
Proof. intros p q E. apply rne_comp. exact E. Qed.

Lemma nearest_opp (q : Q) : (nearest (- q) == - nearest q)%Q.
Proof.
  destruct (Qlt_le_dec 0 q) as [Hp|Hp].
  - rewrite (nearest_of_pos q Hp), nearest_of_neg by lra.
    rewrite (nearest_pos_comp (- - q) q); [reflexivity|lra|ring].
  - destruct (Qlt_le_dec q 0) as [Hn|Hn].
    + rewrite (nearest_of_neg q Hn), nearest_of_pos by lra. ring.
    + rewrite !nearest_zero; [reflexivity|lra|lra].
Qed.

(** A positive multiple of [2^k] is a double as soon as [2^k] is no finer
    than the spacing of the doubles around it. *)
Lemma nearest_fix (q : Q) (m k : Z) :
  (0 < q)%Q -> (q == inject_Z m * pow2 k)%Q ->
  (Z.max (ilog2 q) (-1022) - 52 <= k)%Z -> (nearest q == q)%Q.
Proof.
  intros Hq E Hk. rewrite nearest_of_pos by exact Hq.
  unfold nearest_pos, ulp. set (u := (Z.max (ilog2 q) (-1022) - 52)%Z) in *.
  assert (Ediv : (q / pow2 u == inject_Z (m * 2 ^ (k - u)))%Q).
  { rewrite inject_Z_mult, <- (pow2_inject (k - u)) by lia.
    rewrite E. replace k with ((k - u) + u)%Z at 1 by lia.
    rewrite pow2_add. field. pose proof (pow2_pos u). lra. }
  rewrite (rne_comp _ _ Ediv), rne_Z, <- Ediv. field.
  pose proof (pow2_pos u). lra.
Qed.

Lemma nearest_pow2 (k : Z) : (-1074 <= k)%Z -> (nearest (pow2 k) == pow2 k)%Q.
Proof.
  intros Hk. apply (nearest_fix _ 1 k); [apply pow2_pos|ring|].
  rewrite ilog2_pow2. lia.
Qed.

Lemma nearest_Z (z : Z) :
  (Z.abs z <= 2 ^ 53)%Z -> (nearest (inject_Z z) == inject_Z z)%Q.
Proof.
  assert (Hpos : forall z, (0 < z <= 2 ^ 53)%Z ->
                           (nearest (inject_Z z) == inject_Z z)%Q).
  { intros p [H0 Hp]. destruct (Z.eq_dec p (2 ^ 53)) as [->|Hne].
    - rewrite <- (pow2_inject 53) by lia. apply nearest_pow2. lia.
    - apply (nearest_fix _ p 0).
      + change 0%Q with (inject_Z 0). rewrite <- Zlt_Qlt. exact H0.
      + change (pow2 0) with 1%Q. ring.
      + assert (ilog2 (inject_Z p) < 53)%Z; [|lia].
        apply ilog2_lt.
        * change 0%Q with (inject_Z 0). rewrite <- Zlt_Qlt. exact H0.
        * rewrite pow2_inject by lia. rewrite <- Zlt_Qlt. lia. }
  intros Hz. destruct (Z.lt_trichotomy z 0) as [Hn|[->|Hp]].
  - assert (E : (inject_Z z == - inject_Z (- z))%Q)
      by (rewrite inject_Z_opp; ring).
    rewrite (nearest_comp _ _ E), nearest_opp, Hpos by lia.
    rewrite inject_Z_opp. ring.
  - reflexivity.
  - apply Hpos. lia.
Qed.


Lemma Qabs_le_iff (q b : Q) : (Qabs q <= b)%Q <-> (- b <= q)%Q /\ (q <= b)%Q.
Proof. apply Qabs_Qle_condition. Qed.

Lemma nearest_abs_le (q b : Q) :
  (Qabs q <= b)%Q -> (nearest b == b)%Q -> (Qabs (nearest q) <= b)%Q.
Proof.
  intros H Hb. apply Qabs_le_iff in H. destruct H as [H1 H2].
  apply Qabs_le_iff. split.
  - rewrite <- Hb at 1. rewrite <- nearest_opp. apply nearest_mono. exact H1.
  - rewrite <- Hb. apply nearest_mono. exact H2.
Qed.

Lemma round64_fin (q : Q) :
  (Qabs (nearest q) < pow2 1024)%Q -> round64 q = Fin (nearest q).
Proof.
  intros H. unfold round64.
  destruct (Qle_bool (pow2 1024) (Qabs (nearest q))) eqn:E; [|reflexivity].
  apply Qle_bool_iff in E. apply Qle_not_lt in E. contradiction.
Qed.

Lemma round64_bounded (q : Q) (k : Z) :
  (Qabs q <= pow2 k)%Q -> (-1074 <= k < 1024)%Z ->
  round64 q = Fin (nearest q) /\ (Qabs (nearest q) <= pow2 k)%Q.
Proof.
  intros H Hk.
  assert (Hb : (Qabs (nearest q) <= pow2 k)%Q)
    by (apply nearest_abs_le; [exact H|apply nearest_pow2; lia]).
  split; [|exact Hb]. apply round64_fin.
  eapply Qle_lt_trans; [exact Hb|]. apply pow2_lt. lia.
Qed.

(** On every pair of the samples the product, the difference and the
    quotient are those of the reference implementation. *)
Lemma float64_agrees_with_reference :
  forallb (fun x => forallb (Reference.agree x) Reference.samples)
          Reference.samples = true.
Proof. vm_compute. reflexivity. Qed.

Lemma nearest_max_double : (nearest max_double == max_double)%Q.
Proof. vm_compute. reflexivity. Qed.

Lemma nearest_above_max : (nearest (max_double + 1) == max_double)%Q.
Proof. vm_compute. reflexivity. Qed.

Lemma double_grid (q : Q) :
  (0 < q)%Q -> (nearest q == q)%Q ->
  exists m, (q == inject_Z m * ulp q)%Q /\ (0 < m <= 2 ^ 53)%Z.
Proof.
  intros Hq E. rewrite nearest_of_pos in E by exact Hq.
  exists (rne (q / ulp q)). split; [symmetry; exact E|].
  pose proof (ulp_pos q) as Hu. split.
  - destruct (Z_lt_le_dec 0 (rne (q / ulp q))) as [H|H]; [exact H|exfalso].
    unfold nearest_pos in E.
    assert (inject_Z (rne (q / ulp q)) <= 0)%Q
      by (change 0%Q with (inject_Z 0); rewrite <- Zle_Qle; exact H).
    assert (inject_Z (rne (q / ulp q)) * ulp q <= 0 * ulp q)%Q
      by (apply Qmult_le_compat_r; [assumption|apply Qlt_le_weak; exact Hu]).
    lra.
  - apply rne_le. apply Qle_shift_div_r; [exact Hu|].
    unfold ulp. rewrite <- pow2_split.
    destruct (ilog2_spec q Hq) as [_ H]. apply Qlt_le_weak.
    eapply Qlt_le_trans; [exact H|]. apply pow2_le. lia.
Qed.

Lemma grid_below (m b : Z) (u q : Q) :
  (0 < u)%Q -> (q == inject_Z m * u)%Q -> (q < inject_Z b * u)%Q ->
  (q <= inject_Z (b - 1) * u)%Q.
Proof.
  intros Hu E H. rewrite E in *.
  assert (m < b)%Z.
  { destruct (Z_lt_le_dec m b) as [Hlt|Hge]; [exact Hlt|exfalso].
    assert (inject_Z b * u <= inject_Z m * u)%Q.
    { apply Qmult_le_compat_r; [rewrite <- Zle_Qle; exact Hge|].
      apply Qlt_le_weak. exact Hu. }
    lra. }
  apply Qmult_le_compat_r; [rewrite <- Zle_Qle; lia|].
  apply Qlt_le_weak; exact Hu.
Qed.

Lemma grid_above (m b : Z) (u q : Q) :
  (0 < u)%Q -> (q == inject_Z m * u)%Q -> (inject_Z b * u < q)%Q ->
  (inject_Z (b + 1) * u <= q)%Q.
Proof.
  intros Hu E H. rewrite E in *.
  assert (b < m)%Z.
  { destruct (Z_lt_le_dec b m) as [Hlt|Hge]; [exact Hlt|exfalso].
    assert (inject_Z m * u <= inject_Z b * u)%Q.
    { apply Qmult_le_compat_r; [rewrite <- Zle_Qle; exact Hge|].
      apply Qlt_le_weak. exact Hu. }
    lra. }
  apply Qmult_le_compat_r; [rewrite <- Zle_Qle; lia|].
  apply Qlt_le_weak; exact Hu.
Qed.

Lemma ulp_of_binade (q : Q) (e : Z) :
  (pow2 e <= q)%Q -> (q < pow2 (e + 1))%Q -> (-1022 <= e)%Z ->
  ulp q = pow2 (e - 52).
Proof.
  intros H1 H2 He. unfold ulp. rewrite (ilog2_unique q e H1 H2).
  rewrite Z.max_l by lia. reflexivity.
Qed.

(** The doubles next to 1. *)
Lemma double_below_one (r : Q) :
  (nearest r == r)%Q -> (r < 1)%Q -> (r <= 1 - pow2 (-53))%Q.
Proof.
  intros E H1.
  assert (Hs : (pow2 (-53) <= 1 # 2)%Q)
    by (change (1 # 2) with (pow2 (-1)); apply pow2_le; lia).
  destruct (Qlt_le_dec r (1 # 2)) as [Hlt|Hge]; [lra|].
  assert (Hr : (0 < r)%Q) by lra.
  destruct (double_grid r Hr E) as (m & Em & _).
  rewrite (ulp_of_binade r (-1)) in Em; [|exact Hge|exact H1|lia].
  assert (E1 : (1 == inject_Z (2 ^ 53) * pow2 (-1 - 52))%Q)
    by (rewrite <- (pow2_split (-1)); reflexivity).
  assert (H : (r < inject_Z (2 ^ 53) * pow2 (-1 - 52))%Q)
    by (rewrite <- E1; exact H1).
  pose proof (grid_below m _ _ r (pow2_pos _) Em H) as Hb.
  eapply Qle_trans; [exact Hb|].
  rewrite E1 at 1. change (-1 - 52)%Z with (-53)%Z.
  assert (inject_Z (2 ^ 53 - 1) == inject_Z (2 ^ 53) - 1)%Q as ->
    by (unfold Qeq; simpl; lia).
  apply Qle_lteq. right. ring.
Qed.

Lemma double_above_one (r : Q) :
  (nearest r == r)%Q -> (1 < r)%Q -> (1 + pow2 (-52) <= r)%Q.
Proof.
  intros E H1.
  assert (Hs : (pow2 (-52) <= 1)%Q)
    by (change 1%Q with (pow2 0); apply pow2_le; lia).
  destruct (Qlt_le_dec r 2) as [Hlt|Hge]; [|lra].
  assert (Hr : (0 < r)%Q) by lra.
  destruct (double_grid r Hr E) as (m & Em & _).
  rewrite (ulp_of_binade r 0) in Em;
    [|apply Qlt_le_weak; exact H1|exact Hlt|lia].
  assert (E1 : (1 == inject_Z (2 ^ 52) * pow2 (0 - 52))%Q)
    by (rewrite <- (pow2_split' 0); reflexivity).
  assert (H : (inject_Z (2 ^ 52) * pow2 (0 - 52) < r)%Q)
    by (rewrite <- E1; exact H1).
  pose proof (grid_above m _ _ r (pow2_pos _) Em H) as Hb.
  eapply Qle_trans; [|exact Hb].
  rewrite E1 at 1. change (0 - 52)%Z with (-52)%Z.
  assert (inject_Z (2 ^ 52 + 1) == inject_Z (2 ^ 52) + 1)%Q as ->
    by (unfold Qeq; simpl; lia).
  apply Qle_lteq. right. ring.
Qed.

Lemma is_double_opp (r : Q) : is_double r -> is_double (- r).
Proof.
  intros [E H]. split.
  - rewrite nearest_opp, E. reflexivity.
  - rewrite Qabs_opp. exact H.
Qed.

(** The largest double. *)
Lemma double_le_max (r : Q) : is_double r -> (Qabs r <= max_double)%Q.
Proof.
  assert (Hmax : (pow2 1023 <= max_double)%Q).
  { rewrite pow2_inject by lia. unfold max_double. rewrite <- Zle_Qle.
    vm_compute. discriminate. }
  assert (Hpos : forall r, (0 < r)%Q -> is_double r -> (r <= max_double)%Q).
  { intros q Hq [E H]. rewrite Qabs_pos in H by (apply Qlt_le_weak; exact Hq).
    destruct (Qlt_le_dec q (pow2 1023)) as [Hlt|Hge]; [lra|].
    destruct (double_grid q Hq E) as (m & Em & _).
    rewrite (ulp_of_binade q 1023) in Em; [|exact Hge|exact H|lia].
    assert (E1 : (pow2 1024 == inject_Z (2 ^ 53) * pow2 (1023 - 52))%Q)
      by (rewrite <- (pow2_split 1023); reflexivity).
    assert (H' : (q < inject_Z (2 ^ 53) * pow2 (1023 - 52))%Q)
      by (rewrite <- E1; exact H).
    pose proof (grid_below m _ _ q (pow2_pos _) Em H') as Hb.
    eapply Qle_trans; [exact Hb|]. apply Qle_lteq. right.
    rewrite pow2_inject by lia. vm_compute. reflexivity. }
  intros Hr. destruct (Qlt_le_dec 0 r) as [Hp|Hp].
  - rewrite Qabs_pos by (apply Qlt_le_weak; exact Hp). apply Hpos; assumption.
  - destruct (Qlt_le_dec r 0) as [Hn|Hn].
    + rewrite Qabs_neg by exact Hp.
      apply Hpos; [lra|apply is_double_opp; exact Hr].
    + assert (E0 : (r == 0)%Q) by lra. rewrite E0. vm_compute. discriminate.
Qed.

(** Rounding loses less than half of a normal number. *)
Lemma nearest_gt_half (q : Q) : (pow2 (-1022) <= q)%Q -> (q < 2 * nearest q)%Q.
Proof.
  intros Hn.
  assert (Hq : (0 < q)%Q) by (eapply Qlt_le_trans; [apply pow2_pos|exact Hn]).
  rewrite nearest_of_pos by exact Hq.
  pose proof (nearest_pos_ge_bottom q Hn) as Hb.
  destruct (ilog2_spec q Hq) as [_ H]. rewrite pow2_succ in H. lra.
Qed.

(** ** The three sizes *)

Lemma Qabs_inject_le (z b : Z) :
  (Z.abs z <= b)%Z -> (Qabs (inject_Z z) <= inject_Z b)%Q.
Proof.
  intros H. apply Qabs_le_iff. rewrite <- inject_Z_opp, <- !Zle_Qle. lia.
Qed.

Lemma float_of_int_bounded (z k : Z) :
  (Z.abs z <= 2 ^ k)%Z -> (0 <= k < 1024)%Z ->
  float_of_int z = inr (Fin (nearest (inject_Z z))) /\
  (Qabs (nearest (inject_Z z)) <= pow2 k)%Q.
Proof.
  intros Hz Hk.
  assert (Hq : (Qabs (inject_Z z) <= pow2 k)%Q).
  { rewrite pow2_inject by lia. apply Qabs_inject_le. exact Hz. }
  destruct (round64_bounded _ k Hq) as [E Hb]; [lia|].
  split; [|exact Hb]. unfold float_of_int. rewrite E. reflexivity.
Qed.

Lemma float_of_nat_exact (n : nat) :
  (Z.of_nat n <= 2 ^ 53)%Z ->
  float_of_int (Z.of_nat n) = inr (Fin (nearest (Qof_nat n))) /\
  (nearest (Qof_nat n) == Qof_nat n)%Q.
Proof.
  intros Hn. split.
  - apply (float_of_int_bounded _ 53); lia.
  - apply nearest_Z. lia.
Qed.

Lemma Qceiling_range (x : Q) (n : Z) :
  (0 <= x)%Q -> (x <= inject_Z n)%Q -> (0 <= Qceiling x <= n)%Z.
Proof.
  intros H0 H1. split.
  - change 0%Z with (Qceiling 0). apply Qceiling_resp_le. exact H0.
  - rewrite <- (Qceiling_Z n). apply Qceiling_resp_le. exact H1.
Qed.

Lemma Qfloor_range (x : Q) (n : Z) :
  (0 <= x)%Q -> (x <= inject_Z n)%Q -> (0 <= Qfloor x <= n)%Z.
Proof.
  intros H0 H1. split.
  - change 0%Z with (Qfloor 0). apply Qfloor_resp_le. exact H0.
  - rewrite <- (Qfloor_Z n). apply Qfloor_resp_le. exact H1.
Qed.

(** A product of a ratio of [[0, 1]] and a count that is a double. *)
Lemma ratio_of_count (f : Q) (n : nat) :
  (0 <= f)%Q -> (f <= 1)%Q -> (Z.of_nat n <= 2 ^ 53)%Z ->
  round64 (f * nearest (Qof_nat n)) = Fin (nearest (f * nearest (Qof_nat n))) /\
  (nearest (f * nearest (Qof_nat n)) == nearest (f * Qof_nat n))%Q /\
  (0 <= nearest (f * Qof_nat n))%Q /\
  (nearest (f * Qof_nat n) <= Qof_nat n)%Q.
Proof.
  intros H0 H1 Hn.
  pose proof (nearest_Z (Z.of_nat n) ltac:(lia)) as En. fold (Qof_nat n) in En.
  pose proof (Qof_nat_nonneg n) as Hq.
  assert (Hp0 : (0 <= f * Qof_nat n)%Q)
    by (apply Qmult_le_0_compat; assumption).
  assert (Hpn : (f * Qof_nat n <= Qof_nat n)%Q).
  { rewrite <- (Qmult_1_l (Qof_nat n)) at 2.
    apply Qmult_le_compat_r; assumption. }
  assert (E : (nearest (f * nearest (Qof_nat n)) == nearest (f * Qof_nat n))%Q)
    by (rewrite En; reflexivity).
  assert (Hup : (nearest (f * Qof_nat n) <= Qof_nat n)%Q)
    by (rewrite <- En at 2; apply nearest_mono; exact Hpn).
  assert (Hlo : (0 <= nearest (f * Qof_nat n))%Q)
    by (apply nearest_nonneg; exact Hp0).
  split; [|split; [exact E|split; assumption]].
  apply round64_fin. rewrite E, Qabs_pos by exact Hlo.
  eapply Qle_lt_trans; [exact Hup|].
  apply Qle_lt_trans with (pow2 53); [|apply pow2_lt; lia].
  rewrite pow2_inject by lia. unfold Qof_nat. rewrite <- Zle_Qle. exact Hn.
Qed.

Lemma labeled_target_range (f : Q) (alo : bool) (n : nat) :
  (0 <= f)%Q -> (f <= 1)%Q -> (Z.of_nat n <= 2 ^ 53)%Z ->
  let size := if alo then Qceiling (nearest (f * Qof_nat n))
              else Qfloor (nearest (f * Qof_nat n)) in
  labeled_target f alo n = inr size /\ (0 <= size <= Z.of_nat n)%Z.
Proof.
  intros H0 H1 Hn size.
  destruct (float_of_nat_exact n Hn) as [Hconv _].
  destruct (ratio_of_count f n H0 H1 Hn) as (Hfin & E & Hlo & Hup).
  split.
  - unfold labeled_target. rewrite Hconv. unfold and_then, fmul.
    rewrite Hfin. unfold size, float_ceil, float_int, py_ceil.
    destruct alo.
    + rewrite (Qceiling_comp _ _ E). reflexivity.
    + rewrite py_int_nonneg by (rewrite E; exact Hlo).
      rewrite (Qfloor_comp _ _ E). reflexivity.
  - unfold size. destruct alo;
      [apply Qceiling_range|apply Qfloor_range]; assumption.
Qed.

Lemma flip_target_range (n : nat) (r : Q) :
  (0 <= r)%Q -> (r <= 1)%Q -> (Z.of_nat n <= 2 ^ 53)%Z ->
  let size := Qfloor (nearest (Qof_nat n * r)) in
  flip_target n r = inr size /\ (0 <= size <= Z.of_nat n)%Z.
Proof.
  intros H0 H1 Hn size.
  destruct (float_of_nat_exact n Hn) as [Hconv _].
  destruct (ratio_of_count r n H0 H1 Hn) as (Hfin & E & Hlo & Hup).
  assert (Ec : (nearest (nearest (Qof_nat n) * r)
                == nearest (Qof_nat n * r))%Q).
  { rewrite <- (nearest_comp _ _ (Qmult_comm r (Qof_nat n))), <- E.
    apply nearest_comp. apply Qmult_comm. }
  assert (Hlo' : (0 <= nearest (Qof_nat n * r))%Q)
    by (rewrite (nearest_comp _ _ (Qmult_comm (Qof_nat n) r)); exact Hlo).
  assert (Hup' : (nearest (Qof_nat n * r) <= Qof_nat n)%Q)
    by (rewrite (nearest_comp _ _ (Qmult_comm (Qof_nat n) r)); exact Hup).
  split.
  - unfold flip_target. rewrite Hconv. unfold and_then, fmul.
    rewrite (round64_fin (nearest (Qof_nat n) * r)).
    + unfold float_int, size. rewrite py_int_nonneg by (rewrite Ec; exact Hlo').
      rewrite (Qfloor_comp _ _ Ec). reflexivity.
    + rewrite Ec, Qabs_pos by exact Hlo'.
      eapply Qle_lt_trans; [exact Hup'|].
      apply Qle_lt_trans with (pow2 53); [|apply pow2_lt; lia].
      rewrite pow2_inject by lia. unfold Qof_nat. rewrite <- Zle_Qle. exact Hn.
  - unfold size. apply Qfloor_range; assumption.
Qed.

Lemma flip_target_zero (n : nat) (r : Q) (k : Z) :
  (r == 0)%Q -> flip_target n r = inr k -> k = 0%Z.
Proof.
  intros E. unfold flip_target, and_then.
  destruct (float_of_int (Z.of_nat n)) as [e|[q|s|]]; try discriminate.
  - unfold fmul.
    assert (Ez : (q * r == 0)%Q) by (rewrite E; ring).
    rewrite round64_fin.
    + rewrite (nearest_zero _ Ez). simpl. intros H. inversion H. reflexivity.
    + rewrite (nearest_zero _ Ez). reflexivity.
  - unfold fmul. apply Qeq_bool_iff in E. rewrite E. discriminate.
Qed.

Lemma py_int_opp (x : Q) : py_int (- x) = (- py_int x)%Z.
Proof.
  destruct x as [a b]. unfold py_int. simpl. apply Z.quot_opp_l. discriminate.
Qed.

Lemma py_int_comp (x y : Q) : (x == y)%Q -> py_int x = py_int y.
Proof.
  intros E. destruct (Qlt_le_dec x 0) as [Hn|Hp].
  - assert (Hx : (0 <= - x)%Q) by lra.
    assert (Hy : (0 <= - y)%Q) by lra.
    assert (Ho : forall z, py_int z = (- py_int (- z))%Z)
      by (intros z; rewrite py_int_opp; lia).
    rewrite (Ho x), (Ho y), (py_int_nonneg _ Hx), (py_int_nonneg _ Hy).
    f_equal. apply Qfloor_comp. rewrite E. reflexivity.
  - rewrite !py_int_nonneg by lra. apply Qfloor_comp. exact E.
Qed.


(** ** The noise dimension *)

Lemma nearest_one : (nearest 1 == 1)%Q.
Proof. vm_compute. reflexivity. Qed.

Lemma one_minus_finite (r : Q) :
  is_double r -> round64 (1 - r) = Fin (nearest (1 - r)).
Proof.
  intros Hr. pose proof (double_le_max r Hr) as Hm.
  apply Qabs_le_iff in Hm. destruct Hm as [Hm1 Hm2].
  apply round64_fin.
  apply Qle_lt_trans with max_double; [|vm_compute; reflexivity].
  apply Qabs_le_iff. split.
  - rewrite <- nearest_above_max, <- nearest_opp. apply nearest_mono. lra.
  - rewrite <- nearest_above_max. apply nearest_mono. lra.
Qed.

Lemma Qdiv_nonpos_pos (a b : Q) : (a <= 0)%Q -> (0 < b)%Q -> (a / b <= 0)%Q.
Proof.
  intros Ha Hb. apply Qle_shift_div_r; [exact Hb|]. lra.
Qed.

Lemma Qdiv_nonneg_pos (a b : Q) : (0 <= a)%Q -> (0 < b)%Q -> (0 <= a / b)%Q.
Proof.
  intros Ha Hb. apply Qle_shift_div_l; [exact Hb|]. lra.
Qed.

Lemma Qdiv_neg_flip (a b : Q) : (b < 0)%Q -> (a / b == (- a) / (- b))%Q.
Proof. intros Hb. field. lra. Qed.

(** The quotient [r / (1 - r)] of a double [r] other than 1: the
    difference is a nonzero double, and the quotient stays below [2^53]
    in size. *)
Lemma quotient_bound (r : Q) :
  is_double r -> ~ (r == 1)%Q ->
  let s := nearest (1 - r) in
  round64 (1 - r) = Fin s /\ ~ (s == 0)%Q /\
  (Qabs (r / s) <= pow2 53)%Q /\
  ((0 <= r)%Q -> (r < 1)%Q -> (0 <= r / s)%Q) /\
  ((r < 0)%Q \/ (1 < r)%Q -> (r / s <= 0)%Q).
Proof.
  intros Hr Hne s. split; [apply one_minus_finite; exact Hr|].
  destruct Hr as [Er Hfin].
  assert (P53 : (1 <= pow2 53)%Q)
    by (change 1%Q with (pow2 0); apply pow2_le; lia).
  destruct (Qlt_le_dec r 0) as [Hneg|Hnn].
  - (* r < 0: the difference is at least 1 and at least -r *)
    assert (Hs1 : (1 <= s)%Q).
    { apply Qle_trans with (nearest 1).
      - rewrite nearest_one. apply Qle_refl.
      - apply nearest_mono. lra. }
    assert (Hs2 : (- r <= s)%Q).
    { unfold s. rewrite <- Er at 1. rewrite <- nearest_opp.
      apply nearest_mono. lra. }
    assert (Hq1 : (r / s <= 0)%Q) by (apply Qdiv_nonpos_pos; lra).
    assert (Hq2 : (- (1) <= r / s)%Q).
    { apply Qle_shift_div_l; [lra|]. lra. }
    split; [lra|]. split.
    + apply Qabs_le_iff. split; lra.
    + split; [intros; lra|intros _; exact Hq1].
  - destruct (Qlt_le_dec r 1) as [Hlt|Hge].
    + (* 0 <= r < 1: the difference is at least 2^-53 *)
      pose proof (double_below_one r Er Hlt) as Hb.
      pose proof (pow2_pos (-53)) as Hp.
      assert (Hs : (pow2 (-53) <= s)%Q).
      { unfold s. rewrite <- (nearest_pow2 (-53)) by lia.
        apply nearest_mono. lra. }
      assert (Hq1 : (0 <= r / s)%Q) by (apply Qdiv_nonneg_pos; lra).
      assert (Hq2 : (r / s <= pow2 53)%Q).
      { apply Qle_shift_div_r; [lra|].
        apply Qle_trans with (pow2 53 * pow2 (-53))%Q.
        - rewrite <- pow2_add. change (pow2 (53 + -53)) with 1%Q. lra.
        - rewrite !(Qmult_comm (pow2 53)).
          apply Qmult_le_compat_r; [exact Hs|lra]. }
      split; [lra|]. split.
      * apply Qabs_le_iff. split; lra.
      * split; [intros; exact Hq1|intros [H|H]; lra].
    + (* 1 < r: the difference is at most -2^-52, and more than
         (r - 1) / 2 in size *)
      assert (Hgt : (1 < r)%Q).
      { destruct (Qlt_le_dec 1 r) as [H|H]; [exact H|].
        exfalso. apply Hne. apply Qle_antisym; assumption. }
      pose proof (double_above_one r Er Hgt) as Ha.
      pose proof (pow2_pos (-52)) as Hp.
      assert (Es : (s == - nearest (r - 1))%Q).
      { unfold s. rewrite <- nearest_opp. apply nearest_comp. ring. }
      assert (Hs : (pow2 (-52) <= nearest (r - 1))%Q).
      { rewrite <- (nearest_pow2 (-52)) by lia. apply nearest_mono. lra. }
      assert (Hsneg : (s < 0)%Q) by lra.
      assert (Hq1 : (r / s <= 0)%Q).
      { rewrite Qdiv_neg_flip by exact Hsneg. apply Qdiv_nonpos_pos; lra. }
      assert (Hq2 : (- pow2 53 <= r / s)%Q).
      { rewrite Qdiv_neg_flip by exact Hsneg.
        apply Qle_shift_div_l; [lra|]. rewrite Es.
        destruct (Qlt_le_dec r 2) as [H2|H2].
        - assert (pow2 53 * pow2 (-52) <= pow2 53 * nearest (r - 1))%Q.
          { rewrite !(Qmult_comm (pow2 53)).
            apply Qmult_le_compat_r; [exact Hs|lra]. }
          assert (pow2 53 * pow2 (-52) == 2)%Q
            by (rewrite <- pow2_add; reflexivity).
          lra.
        - assert (Hn : (pow2 (-1022) <= r - 1)%Q).
          { apply Qle_trans with 1%Q; [|lra].
            change 1%Q with (pow2 0). apply pow2_le. lia. }
          pose proof (nearest_gt_half (r - 1) Hn) as Hh.
          assert (4 * nearest (r - 1) <= pow2 53 * nearest (r - 1))%Q.
          { apply Qmult_le_compat_r; [|lra].
            change 4%Q with (pow2 2). apply pow2_le. lia. }
          lra. }
      split; [lra|]. split.
      * apply Qabs_le_iff. split; lra.
      * split; [intros; lra|intros _; exact Hq1].
Qed.

Lemma round64_product (a b : Q) (ka kb : Z) :
  (Qabs a <= pow2 ka)%Q -> (Qabs b <= pow2 kb)%Q ->
  (-1074 <= ka + kb < 1024)%Z ->
  round64 (a * b) = Fin (nearest (a * b)).
Proof.
  intros Ha Hb Hk. apply (round64_bounded _ (ka + kb)); [|exact Hk].
  rewrite Qabs_Qmult, pow2_add.
  apply Qle_trans with (pow2 ka * Qabs b)%Q.
  - apply Qmult_le_compat_r; [exact Ha|apply Qabs_nonneg].
  - rewrite !(Qmult_comm (pow2 ka)).
    apply Qmult_le_compat_r; [exact Hb|apply Qlt_le_weak, pow2_pos].
Qed.

(** For a double [r] other than 1 and a matrix of fewer than [2^63]
    columns the noise dimension is computed without overflow; it is not
    negative for [0 <= r < 1] and not positive outside. *)
Lemma noise_dimension_finite (r : Q) (d : nat) :
  is_double r -> ~ (r == 1)%Q -> (Z.of_nat d < 2 ^ 63)%Z ->
  let x := nearest (nearest (r / nearest (1 - r)) * nearest (Qof_nat d)) in
  noise_dimension r d = inr (py_int x) /\
  ((0 <= r)%Q -> (r < 1)%Q -> (0 <= x)%Q) /\
  ((r < 0)%Q \/ (1 < r)%Q -> (x <= 0)%Q).
Proof.
  intros Hr Hne Hd x.
  destruct (quotient_bound r Hr Hne) as (Hs & Hs0 & Hq & Hpos & Hneg).
  set (s := nearest (1 - r)) in *.
  destruct (float_of_int_bounded (Z.of_nat d) 63) as [Hconv Hdb]; [lia|lia|].
  fold (Qof_nat d) in Hconv, Hdb.
  pose proof (nearest_nonneg _ (Qof_nat_nonneg d)) as Hd0.
  destruct (round64_bounded (r / s) 53 Hq) as [Hqf Hqb]; [lia|].
  pose proof (round64_product _ _ 53 63 Hqb Hdb ltac:(lia)) as Hpf.
  split.
  - unfold noise_dimension, fsub. rewrite Hs. unfold fdiv.
    assert (Qeq_bool s 0 = false) as ->.
    { destruct (Qeq_bool s 0) eqn:E; [|reflexivity].
      apply Qeq_bool_iff in E. contradiction. }
    unfold and_then. rewrite Hconv, Hqf. unfold fmul. rewrite Hpf.
    reflexivity.
  - split.
    + intros H0 H1. unfold x.
      apply nearest_nonneg. apply Qmult_le_0_compat; [|exact Hd0].
      apply nearest_nonneg. apply Hpos; assumption.
    + intros Hout. unfold x. apply nearest_nonpos.
      pose proof (nearest_nonpos _ (Hneg Hout)) as Hq0.
      assert (nearest (r / s) * nearest (Qof_nat d)
              <= 0 * nearest (Qof_nat d))%Q
        by (apply Qmult_le_compat_r; assumption).
      lra.
Qed.

Lemma noise_dimension_one (r : Q) (d : nat) :
  (r == 1)%Q -> noise_dimension r d = inl ZeroDivisionError.
Proof.
  intros E. unfold noise_dimension, fsub, round64.
  assert (Ez : (1 - r == 0)%Q) by (rewrite E; ring).
  rewrite (nearest_zero _ Ez). reflexivity.
Qed.

(** Up to [2^53] labels and a ratio of no absurd size: the product is
    finite and [int] truncates its binary64 value. *)
Lemma flip_target_finite (n : nat) (r : Q) :
  (Z.of_nat n <= 2 ^ 53)%Z -> (Qabs r <= pow2 960)%Q ->
  flip_target n r = inr (py_int (nearest (Qof_nat n * r))).
Proof.
  intros Hn Hr. destruct (float_of_nat_exact n Hn) as [Hconv En].
  destruct (float_of_int_bounded (Z.of_nat n) 53) as [_ Hb]; [lia|lia|].
  fold (Qof_nat n) in Hb.
  unfold flip_target. rewrite Hconv. unfold and_then, fmul.
  rewrite (round64_product _ _ 53 960 Hb Hr) by lia.
  unfold float_int. f_equal. apply py_int_comp. apply nearest_comp.
  rewrite En. reflexivity.
Qed.

(** ** Arrays *)

Lemma where_from_In (y : list Z) : forall s v i,
  In i (where_from s v y) <-> s <= i /\ nth_error y (i - s) = Some v.
Proof.
  induction y as [|a y IH]; intros s v i; simpl.
  - split; [tauto|]. intros [_ H]. destruct (i - s); discriminate.
  - destruct (Z.eqb_spec a v) as [->|Hne]; simpl; rewrite IH.
    + split.
      * intros [<-|[Hle H]].
        -- rewrite Nat.sub_diag. auto.
        -- split; [lia|]. replace (i - s) with (S (i - S s)) by lia. exact H.
      * intros [Hle H]. destruct (Nat.eq_dec s i) as [|Hn]; [auto|right].
        split; [lia|]. replace (i - s) with (S (i - S s)) in H by lia.
        exact H.
    + split.
      * intros [Hle H]. split; [lia|].
        replace (i - s) with (S (i - S s)) by lia. exact H.
      * intros [Hle H]. destruct (Nat.eq_dec s i) as [<-|Hn].
        -- rewrite Nat.sub_diag in H. simpl in H. congruence.
        -- split; [lia|]. replace (i - s) with (S (i - S s)) in H by lia.
           exact H.
Qed.

Lemma np_where_In (y : list Z) (v : Z) (i : nat) :
  In i (np_where y v) <-> nth_error y i = Some v.
Proof.
  unfold np_where. rewrite where_from_In, Nat.sub_0_r.
  split; [tauto|]. intros H. split; [lia|exact H].
Qed.

Lemma np_where_lt (y : list Z) (v : Z) (i : nat) :
  In i (np_where y v) -> i < length y.
Proof.
  rewrite np_where_In. intros H. apply nth_error_Some. congruence.
Qed.

Lemma where_from_NoDup (y : list Z) : forall s v, NoDup (where_from s v y).
Proof.
  induction y as [|a y IH]; intros s v; simpl; [constructor|].
  destruct (Z.eqb a v); [|apply IH].
  constructor; [|apply IH]. rewrite where_from_In. lia.
Qed.

Lemma np_where_NoDup (y : list Z) (v : Z) : NoDup (np_where y v).
Proof. apply where_from_NoDup. Qed.

Lemma take_length {A : Type} (idx : list nat) (l r : list A) :
  take idx l = Some r -> length r = length idx.
Proof.
  revert r. induction idx as [|i idx IH]; simpl; intros r H.
  - inversion H. reflexivity.
  - destruct (nth_error l i); [|discriminate].
    destruct (take idx l) as [r'|]; [|discriminate].
    inversion H. simpl. f_equal. apply IH. reflexivity.
Qed.

Lemma take_In {A : Type} (idx : list nat) (l r : list A) (x : A) :
  take idx l = Some r -> In x r ->
  exists i, In i idx /\ nth_error l i = Some x.
Proof.
  revert r. induction idx as [|i idx IH]; simpl; intros r H Hin.
  - inversion H. subst. contradiction.
  - destruct (nth_error l i) as [a|] eqn:Ei; [|discriminate].
    destruct (take idx l) as [r'|]; [|discriminate].
    inversion H. subst. destruct Hin as [<-|Hin].
    + exists i. auto.
    + destruct (IH r' eq_refl Hin) as (j & Hj & Hx). exists j. auto.
Qed.

Lemma take_incl {A : Type} (idx : list nat) (l r : list A) :
  take idx l = Some r -> incl r l.
Proof.
  intros H x Hin. destruct (take_In _ _ _ _ H Hin) as (i & _ & Hx).
  eapply nth_error_In. exact Hx.
Qed.

Lemma take_Forall {A : Type} (P : A -> Prop) (idx : list nat) (l r : list A) :
  take idx l = Some r -> Forall P l -> Forall P r.
Proof.
  intros H Hl. apply Forall_forall. intros x Hin.
  rewrite Forall_forall in Hl. apply Hl. eapply take_incl; eauto.
Qed.

Lemma take_total {A : Type} (idx : list nat) (l : list A) :
  Forall (fun i => i < length l) idx -> exists r, take idx l = Some r.
Proof.
  induction 1 as [|i idx Hi _ [r IH]]; simpl.
  - eauto.
  - destruct (nth_error l i) eqn:E.
    + rewrite IH. eauto.
    + apply nth_error_Some in Hi. contradiction.
Qed.

Lemma take_NoDup {A : Type} (idx : list nat) (l r : list A) :
  NoDup l -> NoDup idx -> take idx l = Some r -> NoDup r.
Proof.
  intros Hl. revert r. induction idx as [|i idx IH]; simpl; intros r Hidx H.
  - inversion H. constructor.
  - destruct (nth_error l i) as [a|] eqn:Ei; [|discriminate].
    destruct (take idx l) as [r'|] eqn:Et; [|discriminate].
    inversion H. subst. inversion Hidx as [|? ? Hni Hnd]. subst.
    constructor; [|apply IH; auto].
    intros Hin. destruct (take_In _ _ _ _ Et Hin) as (j & Hj & Hx).
    assert (i = j).
    { apply (proj1 (NoDup_nth_error l) Hl i j).
      - apply nth_error_Some. congruence.
      - congruence. }
    subst. contradiction.
Qed.

Lemma NoDup_firstn {A : Type} (n : nat) (l : list A) :
  NoDup l -> NoDup (firstn n l).
Proof.
  intros H. rewrite <- (firstn_skipn n l) in H.
  eapply NoDup_app_remove_r. exact H.
Qed.

Lemma incl_firstn {A : Type} (n : nat) (l : list A) : incl (firstn n l) l.
Proof.
  intros x Hin. rewrite <- (firstn_skipn n l). apply in_or_app. auto.
Qed.

Lemma set_nth_length {A : Type} (i : nat) (v : A) (l : list A) :
  length (set_nth i v l) = length l.
Proof.
  revert i. induction l as [|a l IH]; intros [|i]; simpl; auto.
Qed.

Lemma set_nth_same {A : Type} (i : nat) (v : A) (l : list A) :
  i < length l -> nth_error (set_nth i v l) i = Some v.
Proof.
  revert i. induction l as [|a l IH]; intros [|i]; simpl; try lia; auto.
  intros H. apply IH. lia.
Qed.

Lemma set_nth_other {A : Type} (i j : nat) (v : A) (l : list A) :
  j <> i -> nth_error (set_nth i v l) j = nth_error l j.
Proof.
  revert i j. induction l as [|a l IH]; intros [|i] [|j] H; simpl; auto;
    try congruence.
Qed.

Lemma set_nth_Forall {A : Type} (P : A -> Prop) (i : nat) (v : A)
  (l : list A) : P v -> Forall P l -> Forall P (set_nth i v l).
Proof.
  intros Hv. revert i. induction l as [|a l IH]; intros [|i] H; simpl; auto;
    inversion H; subst; constructor; auto.
Qed.

Lemma scatter_length (idx : list nat) : forall vals y y',
  scatter idx vals y = Some y' -> length y' = length y.
Proof.
  induction idx as [|i idx IH]; intros vals y y' H; simpl in H.
  - inversion H. reflexivity.
  - destruct vals as [|v vals]; [discriminate|].
    destruct (i <? length y); [|discriminate].
    apply IH in H. rewrite set_nth_length in H. exact H.
Qed.

Lemma scatter_Forall (P : Z -> Prop) (idx : list nat) : forall vals y y',
  scatter idx vals y = Some y' -> Forall P vals -> Forall P y -> Forall P y'.
Proof.
  induction idx as [|i idx IH]; intros vals y y' H Hv Hy; simpl in H.
  - inversion H. subst. exact Hy.
  - destruct vals as [|v vals]; [discriminate|].
    destruct (i <? length y); [|discriminate].
    inversion Hv. subst. eapply IH; eauto. apply set_nth_Forall; auto.
Qed.

Lemma assign_length (idx : list nat) (v : Z) (y y' : list Z) :
  assign idx v y = Some y' -> length y' = length y.
Proof. apply scatter_length. Qed.

Lemma assign_in (idx : list nat) (v : Z) : forall y y' j,
  assign idx v y = Some y' -> In j idx -> nth_error y' j = Some v.
Proof.
  unfold assign. induction idx as [|i idx IH]; intros y y' j H Hin.
  - contradiction.
  - simpl in H. destruct (Nat.ltb_spec i (length y)) as [Hi|]; [|discriminate].
    destruct (in_dec Nat.eq_dec j idx) as [Hj|Hj].
    + eapply IH; eauto.
    + destruct Hin as [->|]; [|contradiction].
      clear IH. revert H Hj.
      generalize (set_nth_same j v y Hi). generalize (set_nth j v y).
      induction idx as [|k idx IH]; intros l Hl H Hj.
      * simpl in H. inversion H. subst. exact Hl.
      * simpl in H. destruct (k <? length l); [|discriminate].
        apply IH in H; auto.
        -- rewrite set_nth_other; [exact Hl|]. intros ->. apply Hj. left.
           reflexivity.
        -- intros Hin. apply Hj. right. exact Hin.
Qed.

Lemma assign_out (idx : list nat) (v : Z) : forall y y' j,
  assign idx v y = Some y' -> ~ In j idx -> nth_error y' j = nth_error y j.
Proof.
  unfold assign. induction idx as [|i idx IH]; intros y y' j H Hj.
  - simpl in H. inversion H. reflexivity.
  - simpl in H. destruct (i <? length y); [|discriminate].
    rewrite (IH _ _ j H).
    + apply set_nth_other. intros ->. apply Hj. left. reflexivity.
    + intros Hin. apply Hj. right. exact Hin.
Qed.

Lemma assign_total (idx : list nat) (v : Z) : forall y,
  Forall (fun i => i < length y) idx -> exists y', assign idx v y = Some y'.
Proof.
  unfold assign. induction idx as [|i idx IH]; intros y H; simpl.
  - eauto.
  - inversion H as [|? ? Hi Hr]. subst.
    destruct (Nat.ltb_spec i (length y)); [|lia].
    apply IH. rewrite set_nth_length. exact Hr.
Qed.

Lemma insert_sorted_In (x a : nat) (l : list nat) :
  In x (insert_sorted a l) <-> x = a \/ In x l.
Proof.
  induction l as [|b l IH]; simpl.
  - intuition.
  - destruct (a <? b); simpl; [intuition|].
    destruct (Nat.eqb_spec a b) as [->|]; simpl; [intuition|].
    rewrite IH. intuition.
Qed.

Lemma np_unique_In (x : nat) (l : list nat) : In x (np_unique l) <-> In x l.
Proof.
  unfold np_unique. induction l as [|a l IH]; simpl; [tauto|].
  rewrite insert_sorted_In, IH. intuition.
Qed.

Lemma np_setdiff1d_In (x : nat) (a b : list nat) :
  In x (np_setdiff1d a b) <-> In x a /\ ~ In x b.
Proof.
  unfold np_setdiff1d. rewrite filter_In, np_unique_In, negb_true_iff.
  split; intros [Ha Hb]; split; auto.
  - intros Hin. assert (existsb (Nat.eqb x) b = true); [|congruence].
    apply existsb_exists. exists x. split; [exact Hin|apply Nat.eqb_refl].
  - destruct (existsb (Nat.eqb x) b) eqn:E; [|reflexivity].
    apply existsb_exists in E. destruct E as (z & Hz & Heq).
    apply Nat.eqb_eq in Heq. subst. contradiction.
Qed.

Lemma fold_min_spec (l : list Q) : forall a,
  let m := fold_left (fun m x => if Qltb x m then x else m) l a in
  (m <= a)%Q /\ Forall (fun x => (m <= x)%Q) l.
Proof.
  induction l as [|x l IH]; intros a; simpl.
  - split; [apply Qle_refl|constructor].
  - destruct (Qltb x a) eqn:E.
    + apply Qltb_lt in E. destruct (IH x) as [H1 H2]. split.
      * apply Qlt_le_weak. eapply Qle_lt_trans; eauto.
      * constructor; auto.
    + apply Qltb_ge in E. destruct (IH a) as [H1 H2]. split; auto.
      constructor; auto. eapply Qle_trans; eauto.
Qed.

Lemma fold_max_spec (l : list Q) : forall a,
  let m := fold_left (fun m x => if Qltb m x then x else m) l a in
  (a <= m)%Q /\ Forall (fun x => (x <= m)%Q) l.
Proof.
  induction l as [|x l IH]; intros a; simpl.
  - split; [apply Qle_refl|constructor].
  - destruct (Qltb a x) eqn:E.
    + apply Qltb_lt in E. destruct (IH x) as [H1 H2]. split.
      * apply Qlt_le_weak. eapply Qlt_le_trans; eauto.
      * constructor; auto.
    + apply Qltb_ge in E. destruct (IH a) as [H1 H2]. split; auto.
      constructor; auto. eapply Qle_trans; eauto.
Qed.

Lemma np_min_le (l : list Q) (m : Q) :
  np_min l = Some m -> Forall (fun x => (m <= x)%Q) l.
Proof.
  destruct l as [|a l]; simpl; intros H; inversion H as [Hm].
  destruct (fold_min_spec l a) as [Ha Hl]. constructor; auto.
Qed.

Lemma np_max_ge (l : list Q) (m : Q) :
  np_max l = Some m -> Forall (fun x => (x <= m)%Q) l.
Proof.
  destruct l as [|a l]; simpl; intros H; inversion H as [Hm].
  destruct (fold_max_spec l a) as [Ha Hl]. constructor; auto.
Qed.

Lemma np_min_le_max (l : list Q) (lo hi : Q) :
  np_min l = Some lo -> np_max l = Some hi -> (lo <= hi)%Q.
Proof.
  intros Hlo Hhi. destruct l as [|a l]; [discriminate|].
  apply np_min_le in Hlo. apply np_max_ge in Hhi.
  inversion Hlo. inversion Hhi. subst. eapply Qle_trans; eauto.
Qed.

Lemma np_min_some (l : list Q) : l <> [] -> exists m, np_min l = Some m.
Proof. destruct l; [congruence|simpl; eauto]. Qed.

Lemma np_max_some (l : list Q) : l <> [] -> exists m, np_max l = Some m.
Proof. destruct l; [congruence|simpl; eauto]. Qed.

(** [np.argmin] returns a position of the list, its entry is a minimum,
    and every earlier entry is strictly larger. *)
Lemma argmin_from_spec (l : list Q) : forall pre bi b,
  bi < length pre -> nth bi pre 0%Q = b ->
  (forall j, j < length pre -> (b <= nth j pre 0)%Q) ->
  (forall j, j < bi -> (b < nth j pre 0)%Q) ->
  let r := argmin_from (length pre) bi b l in
  r < length (pre ++ l) /\
  (forall j, j < length (pre ++ l) ->
     (nth r (pre ++ l) 0 <= nth j (pre ++ l) 0)%Q) /\
  (forall j, j < r -> (nth r (pre ++ l) 0 < nth j (pre ++ l) 0)%Q).
Proof.
  induction l as [|x l IH]; intros pre bi b Hbi Hb Hmin Hfirst; simpl.
  - rewrite app_nil_r. rewrite Hb. auto.
  - replace (pre ++ x :: l) with ((pre ++ [x]) ++ l)
      by (rewrite <- app_assoc; reflexivity).
    replace (S (length pre)) with (length (pre ++ [x]))
      by (rewrite length_app; simpl; lia).
    destruct (Qltb x b) eqn:E.
    + apply Qltb_lt in E. apply IH.
      * rewrite length_app. simpl. lia.
      * rewrite app_nth2, Nat.sub_diag; [reflexivity|lia].
      * intros j Hj. rewrite length_app in Hj. simpl in Hj.
        destruct (Nat.lt_ge_cases j (length pre)) as [Hlt|Hge].
        -- rewrite app_nth1 by exact Hlt. apply Qlt_le_weak.
           eapply Qlt_le_trans; [exact E|]. apply Hmin. exact Hlt.
        -- replace j with (length pre) by lia.
           rewrite app_nth2, Nat.sub_diag; [apply Qle_refl|lia].
      * intros j Hj. rewrite app_nth1 by exact Hj.
        eapply Qlt_le_trans; [exact E|]. apply Hmin. exact Hj.
    + apply Qltb_ge in E. apply IH.
      * rewrite length_app. simpl. lia.
      * rewrite app_nth1 by exact Hbi. exact Hb.
      * intros j Hj. rewrite length_app in Hj. simpl in Hj.
        destruct (Nat.lt_ge_cases j (length pre)) as [Hlt|Hge].
        -- rewrite app_nth1 by exact Hlt. apply Hmin. exact Hlt.
        -- replace j with (length pre) by lia.
           rewrite app_nth2, Nat.sub_diag; [exact E|lia].
      * intros j Hj. rewrite app_nth1 by lia. apply Hfirst. exact Hj.
Qed.

Lemma np_argmin_spec (l : list Q) :
  l <> [] ->
  np_argmin l < length l /\
  (forall j, j < length l -> (nth (np_argmin l) l 0 <= nth j l 0)%Q) /\
  (forall j, j < np_argmin l -> (nth (np_argmin l) l 0 < nth j l 0)%Q).
Proof.
  destruct l as [|x l]; [congruence|]. intros _.
  apply (argmin_from_spec l [x] 0 x); simpl.
  - lia.
  - reflexivity.
  - intros j Hj. replace j with 0 by lia. apply Qle_refl.
  - intros j Hj. lia.
Qed.

(** ** Matrices *)

Lemma shape0_of_columns (n : nat) (cols : list (list Q)) :
  shape0 (of_columns n cols) = n.
Proof. unfold shape0, of_columns. simpl. rewrite length_map, length_seq. reflexivity. Qed.

Lemma nth_map_entry (i j : nat) (cols : list (list Q)) :
  nth j (map (fun c => nth i c 0%Q) cols) 0%Q = nth i (nth j cols []) 0%Q.
Proof.
  revert j. induction cols as [|c cols IH]; intros [|j]; simpl; auto;
    destruct i; reflexivity.
Qed.

Lemma map_nth_seq_id (c : list Q) :
  map (fun i => nth i c 0%Q) (seq 0 (length c)) = c.
Proof.
  induction c as [|a c IH]; simpl; [reflexivity|]. f_equal.
  rewrite <- seq_shift, map_map. exact IH.
Qed.

Lemma column_of_columns (n : nat) (cols : list (list Q)) (j : nat) :
  length (nth j cols []) = n ->
  column (of_columns n cols) j = nth j cols [].
Proof.
  intros Hlen. unfold column, of_columns. simpl. rewrite map_map.
  rewrite (map_ext _ (fun i => nth i (nth j cols []) 0%Q))
    by (intros i; apply nth_map_entry).
  subst n. apply map_nth_seq_id.
Qed.

Lemma concat_singletons (j : nat) (rs : list (list Q)) :
  concat (map (fun r => map (fun k => nth k r 0%Q) [j]) rs)
  = map (fun r => nth j r 0%Q) rs.
Proof.
  induction rs as [|r rs IH]; simpl in *; [reflexivity|]. f_equal. exact IH.
Qed.

Lemma concatenate0_rows (A B X : matrix) :
  concatenate0 A B = Some X ->
  rows X = rows A ++ rows B /\ shape1 X = shape1 A /\ shape1 B = shape1 A.
Proof.
  unfold concatenate0. destruct (Nat.eqb_spec (shape1 A) (shape1 B));
    intros H; inversion H. simpl. auto.
Qed.

(** ** Effects *)

Section EffectLemmas.

Context {L : library}.

Lemma bind_inr {A B : Type} (m : M L A) (f : A -> M L B) w r :
  bind m f w = inr r -> exists a w1, m w = inr (a, w1) /\ f a w1 = inr r.
Proof.
  unfold bind. destruct (m w) as [e|[a w1]]; [discriminate|]. eauto.
Qed.

Lemma bind_ok {A B : Type} (m : M L A) (f : A -> M L B) w a w1 :
  m w = inr (a, w1) -> bind m f w = f a w1.
Proof. unfold bind. intros ->. reflexivity. Qed.

Lemma bind_fail {A B : Type} (m : M L A) (f : A -> M L B) w e :
  m w = inl e -> bind m f w = inl e.
Proof. unfold bind. intros ->. reflexivity. Qed.

Lemma lift_inr {A : Type} (e : exn) (o : option A) (w : world L) a w' :
  lift e o w = inr (a, w') -> o = Some a /\ w' = w.
Proof.
  destruct o; simpl; unfold ret, raise; intros H; inversion H. auto.
Qed.

Lemma attempt_inr {A : Type} (r : exn + A) (w : world L) a w' :
  attempt r w = inr (a, w') -> r = inr a /\ w' = w.
Proof.
  destruct r; simpl; unfold ret, raise; intros H; inversion H. auto.
Qed.

Lemma bind_attempt_ok {A B : Type} (a : A) (f : A -> M L B) (w : world L) :
  bind (attempt (inr a)) f w = f a w.
Proof. reflexivity. Qed.

Lemma bind_attempt_fail {A B : Type} (e : exn) (f : A -> M L B)
  (w : world L) : bind (attempt (inl e)) f w = inl e.
Proof. reflexivity. Qed.

Lemma draw_inr {A : Type} (f : rng_state L -> A * rng_state L) w a w' :
  draw f w = inr (a, w') ->
  a = fst (f (rng w)) /\
  w' = World (snd (f (rng w))) (cells w) (next_loc w) (trace w).
Proof.
  unfold draw. destruct (f (rng w)). intros H. inversion H. auto.
Qed.

Lemma call_inr {A : Type} (f : rng_state L -> option (A * rng_state L))
  w a w' :
  call f w = inr (a, w') ->
  exists g, f (rng w) = Some (a, g) /\
            w' = World g (cells w) (next_loc w) (trace w).
Proof.
  unfold call. destruct (f (rng w)) as [[a' g]|]; intros H; inversion H.
  eauto.
Qed.

End EffectLemmas.

(** [run H] splits a successful run [H : m w = inr r] along the binds of
    [m] and resolves the primitive effects it meets. *)
Ltac run_prim H :=
  match type of H with
  | ret _ _ = inr _ => unfold ret in H; inversion H; subst; clear H
  | raise _ _ = inr _ => discriminate H
  | tick _ _ = inr _ => unfold tick in H; inversion H; subst; clear H
  | reseed _ _ = inr _ => unfold reseed in H; inversion H; subst; clear H
  | load _ _ = inr _ => unfold load in H; inversion H; subst; clear H
  | store _ _ _ = inr _ => unfold store in H; inversion H; subst; clear H
  | alloc _ _ = inr _ => unfold alloc in H; inversion H; subst; clear H
  | lift _ _ _ = inr _ =>
      let E := fresh "E" in
      apply lift_inr in H; destruct H as [E H]; subst
  | draw _ _ = inr _ =>
      let E := fresh "E" in
      apply draw_inr in H; destruct H as [E H]; subst
  | call _ _ = inr _ =>
      let g := fresh "g" in
      let E := fresh "E" in
      apply call_inr in H; destruct H as (g & E & H); subst
  | _ => idtac
  end.

Ltac run H :=
  match type of H with
  | bind _ _ _ = inr _ =>
      let a := fresh "a" in
      let w := fresh "w" in
      let H1 := fresh "H" in
      apply bind_inr in H; destruct H as (a & w & H1 & H);
      run_prim H1; run H
  | _ => run_prim H
  end.

Section RandomLemmas.

Context {L : library}.

Lemma random_samples_spec (n : nat) : forall w : world L,
  exists us w', random_samples n w = inr (us, w') /\ length us = n /\
                quiet w w' /\
                (library_ok L ->
                 Forall (fun u => (0 <= u)%Q /\ (u < 1)%Q) us).
Proof.
  induction n as [|n IH]; intros w; simpl.
  - exists [], w. unfold ret, quiet. repeat split; auto.
  - unfold bind at 1. unfold draw.
    destruct (random_sample L (rng w)) as [u g] eqn:Eu.
    destruct (IH (World g (cells w) (next_loc w) (trace w)))
      as (us & w' & Hrun & Hlen & (Hc & Hn & Ht) & Hok).
    exists (u :: us), w'. rewrite (bind_ok _ _ _ _ _ Hrun).
    unfold ret, quiet. simpl in *. repeat split; auto.
    intros OK. constructor; auto.
    pose proof (random_sample_range L OK (rng w)) as Hr.
    rewrite Eu in Hr. exact Hr.
Qed.

Lemma np_random_uniform_spec (low high : Q) (n : nat) (w : world L) :
  exists us w',
    np_random_uniform low high n w
    = inr (map (fun u => (low + (high - low) * u)%Q) us, w') /\
    length us = n /\ logs [EvUniform n] w w' /\
    (library_ok L -> Forall (fun u => (0 <= u)%Q /\ (u < 1)%Q) us).
Proof.
  unfold np_random_uniform.
  destruct (random_samples_spec n
              (World (rng w) (cells w) (next_loc w) (trace w ++ [EvUniform n])))
    as (us & w' & Hrun & Hlen & (Hc & Hn & Ht) & Hok).
  exists us, w'. unfold bind at 1, tick. rewrite (bind_ok _ _ _ _ _ Hrun).
  unfold ret, logs. simpl in *. repeat split; auto.
Qed.

Lemma randints_spec (high n : nat) : forall w : world L,
  exists r w', randints high n w = inr (r, w') /\ length r = n /\
               quiet w w' /\
               (library_ok L -> 0 < high -> Forall (fun i => i < high) r).
Proof.
  induction n as [|n IH]; intros w; simpl.
  - exists [], w. unfold ret, quiet. repeat split; auto.
  - unfold bind at 1. unfold draw.
    destruct (randint L high (rng w)) as [i g] eqn:Ei.
    destruct (IH (World g (cells w) (next_loc w) (trace w)))
      as (r & w' & Hrun & Hlen & (Hc & Hn & Ht) & Hok).
    exists (i :: r), w'. rewrite (bind_ok _ _ _ _ _ Hrun).
    unfold ret, quiet. simpl in *. repeat split; auto.
    intros OK Hpos. constructor; auto.
    pose proof (randint_range L OK high (rng w) Hpos) as Hr.
    rewrite Ei in Hr. exact Hr.
Qed.

(** Whatever [np.random.choice] returns is made of entries of [a]. *)
Lemma np_random_choice_inv (a : list nat) (size : Z) (replace : bool)
  (w : world L) r w' :
  np_random_choice a size replace w = inr (r, w') ->
  incl r a /\ logs [EvChoice (length a) size replace] w w'.
Proof.
  unfold np_random_choice. intros H. run H.
  destruct ((length a =? 0) && negb (size =? 0)%Z); [discriminate|].
  destruct replace.
  - destruct (size <? 0)%Z; [discriminate|].
    destruct (randints_spec (length a) (Z.to_nat size)
                (World (rng w) (cells w) (next_loc w)
                   (trace w ++ [EvChoice (length a) size true])))
      as (idx & w1 & Hrun & _ & (Hc & Hn & Ht) & _).
    rewrite (bind_ok _ _ _ _ _ Hrun) in H. run H.
    split; [eapply take_incl; eauto|]. unfold logs. simpl in *. auto.
  - destruct (Z.of_nat (length a) <? size)%Z; [discriminate|].
    destruct (size <? 0)%Z; [discriminate|].
    run H. split; [eapply take_incl; eauto|]. unfold logs. simpl. auto.
Qed.

(** Without replacement, any size between 0 and the population is served
    with that many distinct entries. *)
Lemma np_random_choice_distinct (a : list nat) (size : Z) (w : world L) :
  library_ok L -> (0 <= size <= Z.of_nat (length a))%Z ->
  exists r w',
    np_random_choice a size false w = inr (r, w') /\
    length r = Z.to_nat size /\ incl r a /\ (NoDup a -> NoDup r) /\
    logs [EvChoice (length a) size false] w w'.
Proof.
  intros OK [H0 Hle]. unfold np_random_choice.
  unfold bind at 1, tick.
  assert ((length a =? 0) && negb (size =? 0)%Z = false) as ->.
  { destruct (Nat.eqb_spec (length a) 0) as [E|]; [|reflexivity].
    simpl. apply negb_false_iff. apply Z.eqb_eq. lia. }
  destruct (Z.ltb_spec (Z.of_nat (length a)) size); [lia|].
  destruct (Z.ltb_spec size 0); [lia|].
  unfold bind, draw. simpl.
  destruct (permutation L (length a) (rng w)) as [p g] eqn:Ep.
  pose proof (permutation_ok L OK (length a) (rng w)) as Hp.
  rewrite Ep in Hp. simpl in Hp.
  assert (Hnd : NoDup (firstn (Z.to_nat size) p)).
  { apply NoDup_firstn. eapply Permutation_NoDup; [exact Hp|apply seq_NoDup]. }
  assert (Hlt : Forall (fun i => i < length a) (firstn (Z.to_nat size) p)).
  { apply Forall_forall. intros i Hi. apply incl_firstn in Hi.
    apply Permutation_sym in Hp. apply (Permutation_in _ Hp) in Hi.
    apply in_seq in Hi. lia. }
  destruct (take_total _ a Hlt) as [r Hr]. rewrite Hr. simpl.
  exists r, (World g (cells w) (next_loc w)
               (trace w ++ [EvChoice (length a) size false])).
  unfold ret, logs. simpl. split; [reflexivity|]. split; [|split; [|split]].
  - rewrite (take_length _ _ _ Hr), length_firstn.
    rewrite <- (Permutation_length Hp), length_seq. lia.
  - eapply take_incl. exact Hr.
  - intros Ha. eapply take_NoDup; [exact Ha|exact Hnd|exact Hr].
  - auto.
Qed.

End RandomLemmas.

(** ** The label partition *)

Section PartitionLemmas.

Context {L : library}.

Lemma select_labeled_inv (la : labeled_anomalies) (alo : bool)
  (idx : list nat) (w : world L) r w1 :
  select_labeled la alo idx w = inr (r, w1) ->
  incl r idx /\ exists size, logs [EvChoice (length idx) size false] w w1.
Proof.
  unfold select_labeled. intros H. destruct la as [f|n|].
  - apply bind_inr in H. destruct H as (size & w0 & Hsize & H).
    apply attempt_inr in Hsize. destruct Hsize as [_ ->].
    apply np_random_choice_inv in H; destruct H; eauto.
  - destruct (Z.of_nat (length idx) <? n)%Z; [discriminate|].
    apply np_random_choice_inv in H; destruct H; eauto.
  - discriminate.
Qed.

(** Once the labeled anomalies are drawn, the two assignments of lines
    388-389 go through and leave 1 exactly on the drawn positions. *)
Lemma partition_labels_run (y : loc) (la : labeled_anomalies) (alo : bool)
  (noise_type : option string) (w : world L) labeled w1 :
  select_labeled la alo (np_where (cells w y) 1) w = inr (labeled, w1) ->
  is_noise noise_type "anomaly_contamination" = false ->
  exists w',
    partition_labels y la alo noise_type w = inr (labeled, w') /\
    (forall l, l <> y -> cells w' l = cells w l) /\
    next_loc w' = next_loc w /\
    length (cells w' y) = length (cells w y) /\
    (forall i, In i (np_where (cells w' y) 1) <-> In i labeled) /\
    (Forall binary (cells w y) -> Forall binary (cells w' y)).
Proof.
  intros Hsel Hnoise.
  destruct (select_labeled_inv _ _ _ _ _ _ Hsel)
    as (Hincl & size & Hc & Hn & Ht).
  set (yv := cells w y) in *.
  set (unl := np_where yv 0 ++ np_setdiff1d (np_where yv 1) labeled).
  assert (Hunl : Forall (fun i => i < length yv) unl).
  { apply Forall_forall. intros i Hi. apply in_app_or in Hi.
    destruct Hi as [Hi|Hi]; [eapply np_where_lt; eauto|].
    apply np_setdiff1d_In in Hi. eapply np_where_lt. apply Hi. }
  destruct (assign_total unl 0 yv Hunl) as [yv1 H1].
  assert (Hlab : Forall (fun i => i < length yv1) labeled).
  { apply Forall_forall. intros i Hi. rewrite (assign_length _ _ _ _ H1).
    eapply np_where_lt. apply Hincl. exact Hi. }
  destruct (assign_total labeled 1 yv1 Hlab) as [yv2 H2].
  eexists. split; [|split; [|split; [|split; [|split]]]].
  - unfold partition_labels. unfold bind at 1, load. fold yv.
    rewrite (bind_ok _ _ _ _ _ Hsel). rewrite Hnoise.
    unfold bind, ret, load, store, lift. simpl. rewrite Hc. fold yv. fold unl.
    rewrite H1. simpl. rewrite Nat.eqb_refl. rewrite H2. simpl. reflexivity.
  - intros l Hl. simpl. apply Nat.eqb_neq in Hl. rewrite !Hl. rewrite Hc.
    reflexivity.
  - simpl. exact Hn.
  - simpl. rewrite Nat.eqb_refl.
    rewrite (assign_length _ _ _ _ H2), (assign_length _ _ _ _ H1).
    reflexivity.
  - simpl. rewrite Nat.eqb_refl. intros i. rewrite np_where_In. split.
    + intros Hi. destruct (in_dec Nat.eq_dec i labeled) as [|Hni]; [assumption|].
      exfalso. rewrite (assign_out _ _ _ _ i H2 Hni) in Hi.
      destruct (in_dec Nat.eq_dec i unl) as [Hu|Hnu].
      * rewrite (assign_in _ _ _ _ i H1 Hu) in Hi. discriminate.
      * rewrite (assign_out _ _ _ _ i H1 Hnu) in Hi. apply Hnu.
        apply in_or_app. right. apply np_setdiff1d_In. split; [|exact Hni].
        apply np_where_In. exact Hi.
    + intros Hi. eapply assign_in; eauto.
  - simpl. rewrite Nat.eqb_refl. intros Hb.
    eapply scatter_Forall; [exact H2| |].
    + apply Forall_forall. intros v Hv. apply repeat_spec in Hv. subst.
      right. reflexivity.
    + eapply scatter_Forall; [exact H1| |exact Hb].
      apply Forall_forall. intros v Hv. apply repeat_spec in Hv. subst.
      left. reflexivity.
Qed.

Lemma partition_labels_inv (y : loc) (la : labeled_anomalies) (alo : bool)
  (noise_type : option string) (w : world L) labeled w' :
  partition_labels y la alo noise_type w = inr (labeled, w') ->
  exists w1,
    select_labeled la alo (np_where (cells w y) 1) w = inr (labeled, w1) /\
    is_noise noise_type "anomaly_contamination" = false.
Proof.
  unfold partition_labels. intros H.
  apply bind_inr in H. destruct H as (yv & w0 & H0 & H). run_prim H0.
  apply bind_inr in H. destruct H as (r & w1 & Hsel & H).
  destruct (is_noise noise_type "anomaly_contamination").
  - apply bind_inr in H. destruct H as (? & ? & Hr & _). discriminate.
  - run H. eauto.
Qed.

End PartitionLemmas.

(** ** The executable library keeps the promises of [library_ok] *)

Lemma toy_lib_ok (strict : bool) (bic : nat -> Q) (data : matrix * list Z) :
  library_ok (Toy.lib strict bic data).
Proof.
  constructor; cbn -[Nat.modulo].
  - intros g. unfold Qle, Qlt. cbn -[Nat.modulo].
    pose proof (Nat.mod_upper_bound g 4). lia.
  - intros n g. apply Permutation_rev.
  - intros n g Hn. apply Nat.mod_upper_bound. lia.
  - intros n g. apply Permutation_rev.
  - intros m n X. unfold Toy.toy_sample.
    destruct (strict && (n <? 1)); [discriminate|].
    intros H. inversion H. unfold shape0. simpl.
    rewrite length_map, length_seq. reflexivity.
  - intros v n g X g' H. inversion H. unfold shape0. simpl.
    apply repeat_length.
  - intros s X X' H. inversion H. reflexivity.
Qed.

(** ** Labeled anomalies given as a fraction or as a count *)

Section Partition.

Context {L : library}.
Hypothesis OK : library_ok L.

(** C2, as the code computes it.  For a float [la = f] of the
    documented range and [n] anomalies in the training labels (a count
    that is a double, as every length of an array is), the partition
    succeeds and labels exactly [ceil(p)] of them when
    [at_least_one_labeled] is set and exactly [floor(p)] otherwise, where
    [p] is the binary64 product of [f] and [n]: the exact product rounded
    to the nearest double.  The labeled positions are distinct, are
    anomalies of the training labels, and are exactly the positions that
    hold 1 afterwards; with the ceiling at least one anomaly is labeled as
    soon as there is one and [f > 0].  The anomalies are the positions
    holding 1 in the training labels as they reach the partition.  The
    noise setting that would call the missing method
    [remove_anomaly_contamination] is left out: [generator] refuses it
    before the split. *)
Theorem float_la_labeled_count (y : loc) (f : Q) (at_least_one_labeled : bool)
  (noise_type : option string) (w : world L) :
  is_double f -> (0 <= f)%Q -> (f <= 1)%Q ->
  is_noise noise_type "anomaly_contamination" = false ->
  let anomalies := np_where (cells w y) 1 in
  (Z.of_nat (length anomalies) <= 2 ^ 53)%Z ->
  exists labeled w',
    partition_labels y (LaFloat f) at_least_one_labeled noise_type w
    = inr (labeled, w') /\
    Z.of_nat (length labeled)
    = (if at_least_one_labeled
       then Qceiling (nearest (f * Qof_nat (length anomalies)))
       else Qfloor (nearest (f * Qof_nat (length anomalies)))) /\
    NoDup labeled /\ incl labeled anomalies /\
    (forall i, In i (np_where (cells w' y) 1) <-> In i labeled) /\
    (at_least_one_labeled = true -> (0 < f)%Q -> 0 < length anomalies ->
     1 <= length labeled).
Proof.
  intros Hd Hf0 Hf1 Hnoise anomalies Hn.
  set (n := length anomalies) in *.
  destruct (labeled_target_range f at_least_one_labeled n Hf0 Hf1 Hn)
    as [Htarget Hrange].
  set (size := if at_least_one_labeled
               then Qceiling (nearest (f * Qof_nat n))
               else Qfloor (nearest (f * Qof_nat n))) in *.
  destruct (np_random_choice_distinct anomalies size w OK Hrange)
    as (labeled & w1 & Hrun & Hlen & Hincl & Hnd & _).
  assert (Hsel : select_labeled (LaFloat f) at_least_one_labeled anomalies w
                 = inr (labeled, w1)).
  { unfold select_labeled. fold n. rewrite Htarget, bind_attempt_ok.
    exact Hrun. }
  destruct (partition_labels_run y _ _ noise_type w labeled w1 Hsel Hnoise)
    as (w' & Hpart & _ & _ & _ & Hones & _).
  exists labeled, w'. split; [exact Hpart|]. split; [|split; [|split; [|split]]].
  - rewrite Hlen. lia.
  - apply Hnd. apply np_where_NoDup.
  - exact Hincl.
  - exact Hones.
  - intros Halo Hfpos Hpos. subst at_least_one_labeled.
    assert (0 < size)%Z; [|lia]. unfold size. rewrite Zlt_Qlt.
    eapply Qlt_le_trans; [|apply Qle_ceiling].
    eapply Qlt_le_trans; [exact Hfpos|].
    destruct Hd as [Ef _]. rewrite <- Ef at 1. apply nearest_mono.
    rewrite <- (Qmult_1_r f) at 1.
    rewrite !(Qmult_comm f). apply Qmult_le_compat_r; [|exact Hf0].
    unfold Qof_nat. change 1%Q with (inject_Z 1). rewrite <- Zle_Qle. lia.
Qed.




End Partition.

(** Two anomalies and [la = 0.1]: the product is below one and the ceiling
    still labels one anomaly. *)
Lemma float_la_labeled_count_witness :
  is_double (double (1 # 10)) /\
  (0 <= double (1 # 10))%Q /\ (double (1 # 10) <= 1)%Q /\
  exists labeled w',
    partition_labels 0 (LaFloat (double (1 # 10))) true None Toy.w12
    = inr (labeled, w') /\
    length labeled = 1 /\
    np_where (cells w' 0) 1 = labeled.
Proof.
  assert (Hd : is_double (double (1 # 10))) by (split; vm_compute; reflexivity).
  assert (H0 : (0 <= double (1 # 10))%Q) by (vm_compute; discriminate).
  assert (H1 : (double (1 # 10) <= 1)%Q) by (vm_compute; discriminate).
  split; [exact Hd|]. split; [exact H0|]. split; [exact H1|].
  destruct (float_la_labeled_count (toy_lib_ok true Toy.flat (Toy.X12, Toy.y12))
              0 (double (1 # 10)) true None Toy.w12 Hd H0 H1 eq_refl)
    as (labeled & w' & Hrun & Hcount & _ & _ & _ & _);
    [vm_compute; discriminate|].
  vm_compute in Hrun. injection Hrun as <- <-.
  eexists. eexists. split; [vm_compute; reflexivity|].
  split; reflexivity.
Defined.

(** The count is not the ceiling or the floor of the exact product.  With
    [la = 0.07] and 500 anomalies the code labels 35 of them, the ceiling
    of the exact product of that double and 500 being 36; with 100
    anomalies it labels 8, the ceiling of [7/100 * 100] being 7; and with
    [la = 0.7], 10 anomalies and no minimum it labels 7, the floor of the
    exact product of that double and 10 being 6. *)
Lemma float_la_count_is_not_exact :
  (is_double (double (7 # 100)) /\
   exists labeled w',
     partition_labels 0 (LaFloat (double (7 # 100))) true None
                      (Toy.world_of Toy.L0 0 [repeat 1%Z 500])
     = inr (labeled, w') /\
     length labeled = 35 /\
     Qceiling (double (7 # 100) * Qof_nat 500) = 36%Z) /\
  (exists labeled w',
     partition_labels 0 (LaFloat (double (7 # 100))) true None
                      (Toy.world_of Toy.L0 0 [repeat 1%Z 100])
     = inr (labeled, w') /\
     length labeled = 8 /\
     Qceiling ((7 # 100) * Qof_nat 100) = 7%Z) /\
  (is_double (double (7 # 10)) /\
   exists labeled w',
     partition_labels 0 (LaFloat (double (7 # 10))) false None
                      (Toy.world_of Toy.L0 0 [repeat 1%Z 10])
     = inr (labeled, w') /\
     length labeled = 7 /\
     Qfloor (double (7 # 10) * Qof_nat 10) = 6%Z).
Proof.
  split; [split; [split; vm_compute; reflexivity|]|split; [|split;
    [split; vm_compute; reflexivity|]]].
  - destruct (partition_labels 0 (LaFloat (double (7 # 100))) true None
                (Toy.world_of Toy.L0 0 [repeat 1%Z 500]))
      as [e|[labeled w']] eqn:Hrun.
    + vm_compute in Hrun. discriminate Hrun.
    + exists labeled, w'. split; [reflexivity|].
      vm_compute in Hrun. injection Hrun as <- <-.
      split; vm_compute; reflexivity.
  - destruct (partition_labels 0 (LaFloat (double (7 # 100))) true None
                (Toy.world_of Toy.L0 0 [repeat 1%Z 100]))
      as [e|[labeled w']] eqn:Hrun.
    + vm_compute in Hrun. discriminate Hrun.
    + exists labeled, w'. split; [reflexivity|].
      vm_compute in Hrun. injection Hrun as <- <-.
      split; vm_compute; reflexivity.
  - destruct (partition_labels 0 (LaFloat (double (7 # 10))) false None
                (Toy.world_of Toy.L0 0 [repeat 1%Z 10]))
      as [e|[labeled w']] eqn:Hrun.
    + vm_compute in Hrun. discriminate Hrun.
    + exists labeled, w'. split; [reflexivity|].
      vm_compute in Hrun. injection Hrun as <- <-.
      split; vm_compute; reflexivity.
Qed.


(** ** Synthetic outliers *)

Section Synthesis.

Context {L : library}.
Variable self : DataGenerator.

Lemma in_list_modes (mode : string) :
  in_list mode ["local"; "cluster"; "dependency"; "global"]%string = true ->
  mode = "local"%string \/ mode = "cluster"%string \/
  mode = "dependency"%string \/ mode = "global"%string.
Proof.
  unfold in_list. simpl.
  destruct (String.eqb_spec mode "local"); auto.
  destruct (String.eqb_spec mode "cluster"); auto.
  destruct (String.eqb_spec mode "dependency"); auto.
  destruct (String.eqb_spec mode "global"); auto.
  discriminate.
Qed.

Lemma logs_refl (w : world L) : logs [] w w.
Proof. unfold logs. rewrite app_nil_r. auto. Qed.

Lemma logs_trans (t1 t2 : list event) (w1 w2 w3 : world L) :
  logs t1 w1 w2 -> logs t2 w2 w3 -> logs (t1 ++ t2) w1 w3.
Proof.
  intros (Hc1 & Hn1 & Ht1) (Hc2 & Hn2 & Ht2). unfold logs.
  rewrite Hc2, Hn2, Ht2, Hc1, Hn1, Ht1, app_assoc. auto.
Qed.

Lemma mixture_fit_inv (k : nat) (X : matrix) (w : world L) gm w1 :
  mixture_fit self k X w = inr (gm, w1) ->
  gm_fit L k (seed self) X = Some gm /\ logs [EvMixtureFit k] w w1.
Proof.
  unfold mixture_fit. intros H. run H. unfold logs. simpl. auto.
Qed.

Lemma mixture_sample_inv (gm : GaussianMixture) (n : nat) (w : world L)
  X w1 :
  mixture_sample gm n w = inr (X, w1) ->
  gm_sample L gm n = Some X /\ logs [EvMixtureSample n] w w1.
Proof.
  unfold mixture_sample. intros H. run H. unfold logs. simpl. auto.
Qed.

(** The search fits every candidate in turn and records its BIC. *)
Lemma bic_search_inv (X : matrix) (ks : list nat) : forall (w : world L) ml w1,
  bic_search self ks X w = inr (ml, w1) ->
  Forall2 (fun k b => exists gm, gm_fit L k (seed self) X = Some gm /\
                                 b = gm_bic L gm X) ks ml /\
  logs (search_log ks) w w1.
Proof.
  induction ks as [|k ks IH]; intros w ml w1 H; simpl in H.
  - run H. split; [constructor|apply logs_refl].
  - apply bind_inr in H. destruct H as (gm & w2 & Hfit & H).
    apply mixture_fit_inv in Hfit. destruct Hfit as [Hfit Hl1].
    unfold mixture_bic in H.
    apply bind_inr in H. destruct H as (b & w3 & Hb & H). run Hb.
    apply bind_inr in H. destruct H as (ml' & w4 & Hrest & H). run H.
    apply IH in Hrest. destruct Hrest as [Hf2 Hl2]. split.
    + constructor; eauto.
    + change (search_log (k :: ks))
        with ([EvMixtureFit k] ++ [EvMixtureBic] ++ search_log ks).
      eapply logs_trans; [exact Hl1|].
      eapply logs_trans; [|exact Hl2]. unfold logs. simpl. auto.
Qed.

Lemma synthetic_normal_mixture (mode : string) (X : matrix) (n : nat)
  (w : world L) gm X1 Xsn w1 :
  in_list mode ["local"; "cluster"; "global"]%string = true ->
  synthetic_normal self mode X n w = inr ((gm, X1, Xsn), w1) ->
  exists ml g Xn,
    Forall2 (fun k b => exists gm, gm_fit L k (seed self) X = Some gm /\
                                   b = gm_bic L gm X) n_components_list ml /\
    gm_fit L (nth (np_argmin ml) n_components_list 0) (seed self) X = Some g /\
    gm_sample L g n = Some Xn /\
    gm = Some g /\ X1 = X /\ Xsn = Some Xn /\
    logs (search_log n_components_list
          ++ [EvMixtureFit (nth (np_argmin ml) n_components_list 0);
              EvMixtureSample n]) w w1.
Proof.
  intros Hmode H. unfold synthetic_normal in H. rewrite Hmode in H.
  apply bind_inr in H. destruct H as (ml & w2 & Hs & H).
  apply bic_search_inv in Hs. destruct Hs as [Hf Hl].
  apply bind_inr in H. destruct H as (g & w3 & Hfit & H).
  apply mixture_fit_inv in Hfit. destruct Hfit as [Hfit Hl2].
  apply bind_inr in H. destruct H as (Xn & w4 & Hsam & H).
  apply mixture_sample_inv in Hsam. destruct Hsam as [Hsam Hl3].
  run H. exists ml, g, Xn.
  split; [exact Hf|]. split; [exact Hfit|]. split; [exact Hsam|].
  split; [reflexivity|]. split; [reflexivity|]. split; [reflexivity|].
  eapply logs_trans; [exact Hl|].
  change [EvMixtureFit (nth (np_argmin ml) n_components_list 0);
          EvMixtureSample n]
    with ([EvMixtureFit (nth (np_argmin ml) n_components_list 0)]
          ++ [EvMixtureSample n]).
  eapply logs_trans; [exact Hl2|exact Hl3].
Qed.

Lemma synthetic_normal_dependency (X : matrix) (n : nat) (w : world L)
  gm X1 Xsn w1 :
  synthetic_normal self "dependency" X n w = inr ((gm, X1, Xsn), w1) ->
  exists Xn t,
    gm = None /\ Xsn = Some Xn /\ (library_ok L -> shape0 Xn = n) /\
    logs (t ++ [EvVineFit; EvVineSample n]) w w1.
Proof.
  unfold synthetic_normal. simpl. intros H.
  apply bind_inr in H. destruct H as (X2 & w2 & Hsub & H).
  assert (Hpre : exists t, logs t w w2).
  { destruct (50 <? shape1 X).
    - apply bind_inr in Hsub. destruct Hsub as (idx & w3 & Hch & Hsub).
      apply np_random_choice_inv in Hch. destruct Hch as [_ Hl].
      run Hsub. eauto.
    - run Hsub. exists []. apply logs_refl. }
  destruct Hpre as (t & Hc & Hn & Htr).
  apply bind_inr in H. destruct H as (u1 & w3 & Ht1 & H). run_prim Ht1.
  apply bind_inr in H. destruct H as (copula & w4 & Hfit & H). run_prim Hfit.
  apply bind_inr in H. destruct H as (u2 & w5 & Ht2 & H). run_prim Ht2.
  apply bind_inr in H. destruct H as (Xn & w6 & Hsam & H). run_prim Hsam.
  run_prim H. exists Xn, t.
  split; [reflexivity|]. split; [reflexivity|]. split.
  - intros OK. eapply vine_sample_rows; eauto.
  - unfold logs. simpl. rewrite Hc, Hn, Htr, <- !app_assoc. auto.
Qed.

(** In every mode the synthetic normal rows come from one logged draw of
    [n] rows. *)
Lemma synthetic_normal_draw (mode : string) (X : matrix) (n : nat)
  (w : world L) gm X1 Xsn w1 :
  in_list mode ["local"; "cluster"; "dependency"; "global"]%string = true ->
  synthetic_normal self mode X n w = inr ((gm, X1, Xsn), w1) ->
  exists Xn t,
    Xsn = Some Xn /\ (library_ok L -> shape0 Xn = n) /\
    logs t w w1 /\ In (normal_draw mode n) t.
Proof.
  intros Hmode H. apply in_list_modes in Hmode.
  destruct Hmode as [-> | [-> | [-> | ->]]].
  2: { apply synthetic_normal_mixture in H; [|reflexivity].
       destruct H as (ml & g & Xn & _ & _ & Hs & _ & _ & -> & Hl).
       eexists. eexists. split; [reflexivity|].
       split; [intros OK; eapply gm_sample_rows; eauto|].
       split; [exact Hl|]. apply in_or_app. right. simpl. auto. }
  2: { apply synthetic_normal_dependency in H.
       destruct H as (Xn & t & _ & -> & Hrows & Hl).
       eexists. eexists. split; [reflexivity|]. split; [exact Hrows|].
       split; [exact Hl|]. apply in_or_app. right. simpl. auto. }
  all: apply synthetic_normal_mixture in H; [|reflexivity];
    destruct H as (ml & g & Xn & _ & _ & Hs & _ & _ & -> & Hl);
    eexists; eexists; (split; [reflexivity|]);
    (split; [intros OK; eapply gm_sample_rows; eauto|]);
    (split; [exact Hl|]); apply in_or_app; right; simpl; auto.
Qed.

Lemma fill_column_length (n : nat) (src c : list Q) :
  fill_column n src = Some c -> length c = n.
Proof.
  unfold fill_column. destruct (Nat.eqb_spec (length src) n).
  - intros H. inversion H. subst. reflexivity.
  - destruct src as [|v [|]]; intros H; inversion H. apply repeat_length.
Qed.

Lemma kde_columns_inv (X : matrix) (a : nat) (features : list nat) :
  forall (w : world L) cols w1,
  kde_columns X a features w = inr (cols, w1) ->
  length cols = length features /\
  Forall (fun c => length c = a) cols /\
  exists t, logs t w w1 /\ (features <> [] -> In (EvKdeSample a) t).
Proof.
  induction features as [|i features IH]; intros w cols w1 H; simpl in H.
  - run H. repeat split; auto. exists []. split; [apply logs_refl|congruence].
  - apply bind_inr in H. destruct H as (u1 & w2 & Ht1 & H). run_prim Ht1.
    apply bind_inr in H. destruct H as (k & w3 & Hk & H). run_prim Hk.
    apply bind_inr in H. destruct H as (u2 & w4 & Ht2 & H). run_prim Ht2.
    apply bind_inr in H. destruct H as (s0 & w5 & Hs & H). run_prim Hs.
    apply bind_inr in H. destruct H as (c & w6 & Hfill & H). run_prim Hfill.
    apply bind_inr in H. destruct H as (cols' & w7 & Hrest & H). run_prim H.
    apply IH in Hrest.
    destruct Hrest as (Hlen & Hall & t & (Hc & Hn & Ht) & _).
    split; [simpl; congruence|]. split.
    + constructor; [eapply fill_column_length; eauto|exact Hall].
    + exists ([EvKdeFit i; EvKdeSample a] ++ t). split.
      * unfold logs. rewrite Hc, Hn, Ht. simpl. rewrite <- !app_assoc.
        auto.
      * intros _. simpl. auto.
Qed.

Lemma global_columns_inv (Xn : matrix) (percentage : Q) (a : nat)
  (features : list nat) : forall (w : world L) cols w1,
  global_columns Xn percentage a features w = inr (cols, w1) ->
  Forall2 (global_column L Xn percentage a) features cols /\
  exists t, logs t w w1 /\ (features <> [] -> In (EvUniform a) t).
Proof.
  induction features as [|i features IH]; intros w cols w1 H; simpl in H.
  - run H. split; [constructor|]. exists [].
    split; [apply logs_refl|congruence].
  - apply bind_inr in H. destruct H as (lo & w2 & Hlo & H). run Hlo.
    apply bind_inr in H. destruct H as (hi & w3 & Hhi & H). run Hhi.
    apply bind_inr in H. destruct H as (c & w4 & Hu & H).
    destruct (np_random_uniform_spec (lo * (1 + percentage))
                (hi * (1 + percentage)) a w)
      as (us & w5 & Hrun & Hlen & Hl & Hus).
    rewrite Hrun in Hu. inversion Hu. subst. clear Hu.
    apply bind_inr in H. destruct H as (cols' & w6 & Hrest & H). run H.
    apply IH in Hrest. destruct Hrest as (Hall & t & Hl2 & _). split.
    + constructor; [|exact Hall]. exists lo, hi, us. repeat split; auto.
    + exists ([EvUniform (length us)] ++ t). split.
      * eapply logs_trans; eauto.
      * intros _. simpl. auto.
Qed.

Lemma synthetic_anomalies_global (alpha percentage : Q)
  (gm : option GaussianMixture) (X1 Xn : matrix) (a : nat) (w : world L)
  Xsa w1 :
  synthetic_anomalies "global" alpha percentage gm X1 (Some Xn) a w
  = inr (Xsa, w1) ->
  exists cols t,
    Xsa = Some (of_columns a cols) /\ cols <> [] /\
    Forall2 (global_column L Xn percentage a) (seq 0 (shape1 Xn)) cols /\
    logs t w w1 /\ In (EvUniform a) t.
Proof.
  unfold synthetic_anomalies. simpl. intros H.
  apply bind_inr in H. destruct H as (Xn' & w2 & Hn & H). run_prim Hn.
  apply bind_inr in H. destruct H as (cols & w3 & Hcols & H).
  apply global_columns_inv in Hcols. destruct Hcols as (Hall & t & Hl & Hin).
  destruct cols as [|c cols]; [discriminate|]. run_prim H.
  exists (c :: cols), t. split; [reflexivity|]. split; [congruence|].
  split; [exact Hall|]. split; [exact Hl|]. apply Hin.
  intros E. rewrite E in Hall. inversion Hall.
Qed.

(** In every mode the synthetic anomalies come from logged draws of [a]
    values, and they form [a] rows. *)
Lemma synthetic_anomalies_draw (mode : string) (alpha percentage : Q)
  (gm : option GaussianMixture) (X1 Xn : matrix) (a : nat) (w : world L)
  Xsa w1 :
  in_list mode ["local"; "cluster"; "dependency"; "global"]%string = true ->
  synthetic_anomalies mode alpha percentage gm X1 (Some Xn) a w
  = inr (Xsa, w1) ->
  exists Xa t,
    Xsa = Some Xa /\ (library_ok L -> shape0 Xa = a) /\
    logs t w w1 /\ (0 < shape1 Xa -> In (anomaly_draw mode a) t).
Proof.
  intros Hmode H. apply in_list_modes in Hmode.
  destruct Hmode as [-> | [-> | [-> | ->]]].
  - unfold synthetic_anomalies in H. simpl in H.
    apply bind_inr in H. destruct H as (g & w2 & Hg & H). run_prim Hg.
    apply bind_inr in H. destruct H as (Xa & w3 & Hs & H). run_prim H.
    apply mixture_sample_inv in Hs. destruct Hs as [Hs Hl].
    exists Xa, [EvMixtureSample a]. split; [reflexivity|].
    split; [intros OK; eapply gm_sample_rows; eauto|].
    split; [exact Hl|]. intros _. simpl. auto.
  - unfold synthetic_anomalies in H. simpl in H.
    apply bind_inr in H. destruct H as (g & w2 & Hg & H). run_prim Hg.
    apply bind_inr in H. destruct H as (Xa & w3 & Hs & H). run_prim H.
    apply mixture_sample_inv in Hs. destruct Hs as [Hs Hl].
    exists Xa, [EvMixtureSample a]. split; [reflexivity|].
    split; [intros OK; eapply gm_sample_rows; eauto|].
    split; [exact Hl|]. intros _. simpl. auto.
  - unfold synthetic_anomalies in H. simpl in H.
    apply bind_inr in H. destruct H as (cols & w2 & Hcols & H). run_prim H.
    apply kde_columns_inv in Hcols.
    destruct Hcols as (Hlen & _ & t & Hl & Hin).
    exists (of_columns a cols), t. split; [reflexivity|].
    split; [intros _; apply shape0_of_columns|].
    split; [exact Hl|]. simpl. intros Hpos. apply Hin.
    rewrite Hlen, length_seq in Hpos. destruct (shape1 X1); [lia|discriminate].
  - apply synthetic_anomalies_global in H.
    destruct H as (cols & t & -> & _ & _ & Hl & Hin).
    exists (of_columns a cols), t. split; [reflexivity|].
    split; [intros _; apply shape0_of_columns|].
    split; [exact Hl|]. intros _. exact Hin.
Qed.

Lemma firstn_exact {A : Type} (l l' : list A) :
  firstn (length l) (l ++ l') = l.
Proof. induction l; simpl; congruence. Qed.

Lemma skipn_exact {A : Type} (l l' : list A) :
  skipn (length l) (l ++ l') = l'.
Proof. induction l; simpl; congruence. Qed.

Lemma blocks_of_concatenate0 (Xn Xa X : matrix) :
  concatenate0 Xn Xa = Some X ->
  normal_block X (shape0 Xn) = Xn /\ anomaly_block X (shape0 Xn) = Xa /\
  shape0 X = shape0 Xn + shape0 Xa.
Proof.
  destruct Xn as [dn rn], Xa as [da ra]. unfold concatenate0. simpl.
  destruct (Nat.eqb_spec dn da) as [->|]; intros H; inversion H.
  unfold normal_block, anomaly_block, shape0. simpl.
  rewrite firstn_exact, skipn_exact, length_app. auto.
Qed.

(** The shape of a successful run of [generate_realistic_synthetic]: the
    rows selected by the mask, the two blocks, their concatenation and
    the new label array. *)
Lemma generate_realistic_synthetic_inv (X : matrix) (y : loc) (mode : string)
  (alpha percentage : Q) (w : world L) X' y' w' :
  generate_realistic_synthetic self X y mode alpha percentage w
  = inr ((X', y'), w') ->
  let n := length (np_where (cells w y) 0) in
  let a := length (np_where (cells w y) 1) in
  exists Xm gm X1 Xn Xa w1 w2,
    in_list mode ["local"; "cluster"; "dependency"; "global"]%string = true /\
    mask_rows (map (Z.eqb 0) (cells w y)) X = Some Xm /\
    synthetic_normal self mode Xm n w = inr ((gm, X1, Some Xn), w1) /\
    synthetic_anomalies mode alpha percentage gm X1 (Some Xn) a w1
    = inr (Some Xa, w2) /\
    concatenate0 Xn Xa = Some X' /\
    y' = next_loc w2 /\
    cells w' y' = repeat 0%Z (shape0 Xn) ++ repeat 1%Z (shape0 Xa) /\
    (forall l, l <> y' -> cells w' l = cells w2 l) /\
    trace w' = trace w2.
Proof.
  intros H n a. unfold generate_realistic_synthetic in H.
  destruct (in_list mode _) eqn:Hmode; [|discriminate].
  apply bind_inr in H. destruct H as (yv & wa & Hy & H).
  unfold load in Hy. inversion Hy. subst yv wa. clear Hy.
  apply bind_inr in H. destruct H as (Xm & wb & Hm & H).
  apply lift_inr in Hm. destruct Hm as [Hm ->].
  apply bind_inr in H. destruct H as ([[gm X1] Xsn] & w1 & Hnorm & H).
  apply bind_inr in H. destruct H as (Xsa & w2 & Hanom & H).
  apply bind_inr in H. destruct H as (Xn & wc & Hn & H).
  apply lift_inr in Hn. destruct Hn as [-> ->].
  apply bind_inr in H. destruct H as (Xa & wd & Ha & H).
  apply lift_inr in Ha. destruct Ha as [-> ->].
  apply bind_inr in H. destruct H as (Xc & we & Hc & H).
  apply lift_inr in Hc. destruct Hc as [Hc ->].
  apply bind_inr in H. destruct H as (l & wf & Hl & H).
  unfold alloc in Hl. inversion Hl. subst l wf. clear Hl.
  unfold ret in H. inversion H. subst. clear H.
  exists Xm, gm, X1, Xn, Xa, w1, w2. simpl. rewrite Nat.eqb_refl.
  repeat split; auto.
  intros l Hne. apply Nat.eqb_neq in Hne. rewrite Hne. reflexivity.
Qed.

End Synthesis.

Lemma Forall2_nth {A B : Type} (P : A -> B -> Prop) (l1 : list A)
  (l2 : list B) (d1 : A) (d2 : B) :
  Forall2 P l1 l2 -> forall j, j < length l1 -> P (nth j l1 d1) (nth j l2 d2).
Proof.
  induction 1 as [|x y l1 l2 Hxy _ IH]; intros [|j] Hj; simpl in *;
    try lia; auto. apply IH. lia.
Qed.

Lemma Forall2_length {A B : Type} (P : A -> B -> Prop) (l1 : list A)
  (l2 : list B) : Forall2 P l1 l2 -> length l1 = length l2.
Proof. induction 1; simpl; congruence. Qed.

Section SynthesisTheorems.

Context {L : library}.
Hypothesis OK : library_ok L.
Variable self : DataGenerator.

(** C1. Whenever [generate_realistic_synthetic] returns (it only does so
    in one of the four modes), the matrix has [n + a] rows, where [n] and
    [a] count the labels 0 and 1 of the input: the first [n] rows are the
    synthetic normal data produced by [synthetic_normal], the last [a]
    rows are the synthetic anomalies produced by [synthetic_anomalies],
    and the new label vector is [n] zeros followed by [a] ones. *)
Theorem synthetic_blocks (X : matrix) (y : loc) (mode : string)
  (alpha percentage : Q) (w : world L) X' y' w' :
  generate_realistic_synthetic self X y mode alpha percentage w
  = inr ((X', y'), w') ->
  let n := length (np_where (cells w y) 0) in
  let a := length (np_where (cells w y) 1) in
  In mode ["local"; "cluster"; "dependency"; "global"]%string /\
  shape0 X' = n + a /\
  cells w' y' = repeat 0%Z n ++ repeat 1%Z a /\
  shape0 (normal_block X' n) = n /\ shape0 (anomaly_block X' n) = a /\
  exists Xm gm X1 w1 w2,
    mask_rows (map (Z.eqb 0) (cells w y)) X = Some Xm /\
    synthetic_normal self mode Xm n w
    = inr ((gm, X1, Some (normal_block X' n)), w1) /\
    synthetic_anomalies mode alpha percentage gm X1
                        (Some (normal_block X' n)) a w1
    = inr (Some (anomaly_block X' n), w2).
Proof.
  intros H n a.
  destruct (generate_realistic_synthetic_inv self _ _ _ _ _ _ _ _ _ H)
    as (Xm & gm & X1 & Xn & Xa & w1 & w2 & Hmode & Hm & Hnorm & Hanom
        & Hcat & _ & Hy & _ & _).
  fold n in Hnorm. fold a in Hanom.
  destruct (synthetic_normal_draw self _ _ _ _ _ _ _ _ Hmode Hnorm)
    as (Xn0 & t1 & E1 & Hn & _). inversion E1. subst Xn0. clear E1.
  destruct (synthetic_anomalies_draw _ _ _ _ _ _ _ _ _ _ Hmode Hanom)
    as (Xa0 & t2 & E2 & Ha & _). inversion E2. subst Xa0. clear E2.
  specialize (Hn OK). specialize (Ha OK).
  destruct (blocks_of_concatenate0 _ _ _ Hcat) as (Hbn & Hba & Hrows).
  rewrite Hn in Hbn, Hba, Hrows, Hy. rewrite Ha in Hrows, Hy.
  rewrite Hbn, Hba. split.
  { apply in_list_modes in Hmode.
    destruct Hmode as [-> | [-> | [-> | ->]]]; simpl; auto 6. }
  split; [exact Hrows|]. split; [exact Hy|]. split; [exact Hn|].
  split; [exact Ha|]. exists Xm, gm, X1, w1, w2. auto.
Qed.

(** C4, as the code has it.  No draw is skipped when a target is 0: the
    draw of the synthetic normal rows is always requested with the size
    [n], and (as soon as the result has a column) the draw of the
    synthetic anomalies with the size [a].  Whenever the call returns,
    [a = 0] leaves the synthetic normal rows alone with [n] labels 0, and
    [n = 0] leaves the synthetic anomalies alone with [a] labels 1; in
    global mode the call never returns with [n = 0]. *)
Theorem zero_target_still_drawn (X : matrix) (y : loc) (mode : string)
  (alpha percentage : Q) (w : world L) X' y' w' :
  generate_realistic_synthetic self X y mode alpha percentage w
  = inr ((X', y'), w') ->
  let n := length (np_where (cells w y) 0) in
  let a := length (np_where (cells w y) 1) in
  (exists t, trace w' = trace w ++ t /\ In (normal_draw mode n) t /\
             (0 < shape1 X' -> In (anomaly_draw mode a) t)) /\
  (a = 0 -> X' = normal_block X' n /\ shape0 X' = n /\
            cells w' y' = repeat 0%Z n) /\
  (n = 0 -> X' = anomaly_block X' n /\ shape0 X' = a /\
            cells w' y' = repeat 1%Z a /\ mode <> "global"%string).
Proof.
  intros H n a.
  destruct (generate_realistic_synthetic_inv self _ _ _ _ _ _ _ _ _ H)
    as (Xm & gm & X1 & Xn & Xa & w1 & w2 & Hmode & Hm & Hnorm & Hanom
        & Hcat & _ & Hy & _ & Htr).
  fold n in Hnorm. fold a in Hanom.
  destruct (synthetic_normal_draw self _ _ _ _ _ _ _ _ Hmode Hnorm)
    as (Xn0 & t1 & E1 & Hn & Hl1 & Hin1). inversion E1. subst Xn0. clear E1.
  destruct (synthetic_anomalies_draw _ _ _ _ _ _ _ _ _ _ Hmode Hanom)
    as (Xa0 & t2 & E2 & Ha & Hl2 & Hin2). inversion E2. subst Xa0. clear E2.
  specialize (Hn OK). specialize (Ha OK).
  destruct (blocks_of_concatenate0 _ _ _ Hcat) as (Hbn & Hba & Hrows).
  destruct (concatenate0_rows _ _ _ Hcat) as (Hr & Hs1 & Hs2).
  rewrite Hn in Hbn, Hba, Hrows, Hy. rewrite Ha in Hrows, Hy.
  split; [|split].
  - exists (t1 ++ t2). destruct (logs_trans _ _ _ _ _ Hl1 Hl2) as (_ & _ & Ht).
    rewrite Htr, Ht. split; [reflexivity|]. split.
    + apply in_or_app. auto.
    + intros Hpos. apply in_or_app. right. apply Hin2. lia.
  - intros Ha0. rewrite Ha0 in *. simpl in Hy. rewrite app_nil_r in Hy.
    split; [|split; [lia|exact Hy]].
    destruct X' as [d rs]. unfold normal_block. simpl in *. f_equal.
    unfold shape0 in Hrows. simpl in Hrows. rewrite firstn_all2; [reflexivity|lia].
  - intros Hn0. rewrite Hn0 in *. simpl in Hy.
    split; [|split; [lia|split; [exact Hy|]]].
    + destruct X' as [d rs]. reflexivity.
    + intros ->. apply synthetic_anomalies_global in Hanom.
      destruct Hanom as (cols & t & _ & Hne & Hall & _).
      destruct (shape1 Xn) eqn:Ed; simpl in Hall.
      * inversion Hall. subst. congruence.
      * inversion Hall as [|i c fs cs (lo & hi & us & Hlo & _) Hrest].
        unfold column in Hlo. unfold shape0 in Hn.
        destruct (rows Xn); [discriminate Hlo|discriminate Hn].
Qed.

End SynthesisTheorems.

Section GlobalAndSelection.

Context {L : library}.
Hypothesis OK : library_ok L.
Variable self : DataGenerator.

(** C5, as the code has it.  In global mode, for every feature [j], with
    [lo] and [hi] the minimum and the maximum of the synthetic normal
    rows on that feature, each synthetic anomaly has the value
    [lo * (1 + percentage) + (hi * (1 + percentage) - lo * (1 + percentage)) * u]
    for a draw [u] of the unit interval, one draw per anomaly and per
    feature; when [1 + percentage >= 0] the value lies between
    [lo * (1 + percentage)] and [hi * (1 + percentage)]. *)
Theorem global_anomalies_scaled_range (X : matrix) (y : loc)
  (alpha percentage : Q) (w : world L) X' y' w' :
  generate_realistic_synthetic self X y "global" alpha percentage w
  = inr ((X', y'), w') ->
  let n := length (np_where (cells w y) 0) in
  let a := length (np_where (cells w y) 1) in
  forall j, j < shape1 X' ->
  exists lo hi us,
    np_min (column (normal_block X' n) j) = Some lo /\
    np_max (column (normal_block X' n) j) = Some hi /\
    length us = a /\ Forall unit_interval us /\
    column (anomaly_block X' n) j
    = map (fun u => (lo * (1 + percentage)
                     + (hi * (1 + percentage) - lo * (1 + percentage)) * u)%Q)
          us /\
    ((0 <= 1 + percentage)%Q ->
     Forall (fun v => (lo * (1 + percentage) <= v)%Q /\
                      (v <= hi * (1 + percentage))%Q)
            (column (anomaly_block X' n) j)).
Proof.
  intros H n a j Hj.
  destruct (generate_realistic_synthetic_inv self _ _ _ _ _ _ _ _ _ H)
    as (Xm & gm & X1 & Xn & Xa & w1 & w2 & Hmode & Hm & Hnorm & Hanom
        & Hcat & _ & _ & _ & _).
  fold n in Hnorm. fold a in Hanom.
  destruct (synthetic_normal_draw self _ _ _ _ _ _ _ _ Hmode Hnorm)
    as (Xn0 & t1 & E1 & Hn & _). inversion E1. subst Xn0. clear E1.
  specialize (Hn OK).
  destruct (blocks_of_concatenate0 _ _ _ Hcat) as (Hbn & Hba & _).
  destruct (concatenate0_rows _ _ _ Hcat) as (_ & Hs1 & _).
  rewrite Hn in Hbn, Hba. rewrite Hbn, Hba. rewrite Hs1 in Hj.
  apply synthetic_anomalies_global in Hanom.
  destruct Hanom as (cols & t & E & _ & Hall & _). inversion E. subst Xa.
  pose proof (Forall2_nth _ _ _ 0 [] Hall j) as Hcol.
  rewrite length_seq, seq_nth in Hcol by exact Hj. simpl in Hcol.
  destruct (Hcol Hj) as (lo & hi & us & Hlo & Hhi & Hlen & Hus & Hc).
  exists lo, hi, us.
  assert (Ecol : column (of_columns a cols) j = nth j cols []).
  { apply column_of_columns. rewrite Hc, length_map. exact Hlen. }
  rewrite Ecol, <- Hc.
  split; [exact Hlo|]. split; [exact Hhi|]. split; [exact Hlen|].
  split; [exact (Hus OK)|]. split; [reflexivity|].
  intros Hp. rewrite Hc. apply Forall_forall. intros v Hv.
  apply in_map_iff in Hv. destruct Hv as (u & <- & Hu).
  pose proof (Hus OK) as Hall_us. rewrite Forall_forall in Hall_us.
  destruct (Hall_us u Hu) as [Hu0 Hu1].
  apply uniform_between; auto.
  apply Qmult_le_compat_r; [|exact Hp].
  eapply np_min_le_max; eauto.
Qed.

(** C6. In the local, cluster and global modes a successful run fits a
    mixture for each of the component counts 1 to 9 in turn and records
    its BIC, nine fits whatever the scores; the count it then refits is
    the first one whose BIC is minimal (no other count scores lower, every
    smaller count scores strictly higher); the refit comes right after
    the search and right before the draw of the synthetic normal rows,
    which are sampled from the refitted mixture. *)
Theorem mixture_selected_by_bic (X : matrix) (y : loc) (mode : string)
  (alpha percentage : Q) (w : world L) X' y' w' :
  In mode ["local"; "cluster"; "global"]%string ->
  generate_realistic_synthetic self X y mode alpha percentage w
  = inr ((X', y'), w') ->
  let n := length (np_where (cells w y) 0) in
  exists Xm metric_list gm rest,
    let best := nth (np_argmin metric_list) n_components_list 0 in
    mask_rows (map (Z.eqb 0) (cells w y)) X = Some Xm /\
    Forall2 (fun k b => exists g, gm_fit L k (seed self) Xm = Some g /\
                                  b = gm_bic L g Xm)
            n_components_list metric_list /\
    In best n_components_list /\
    (forall k, In k n_components_list ->
       (nth (best - 1) metric_list 0 <= nth (k - 1) metric_list 0)%Q) /\
    (forall k, In k n_components_list -> k < best ->
       (nth (best - 1) metric_list 0 < nth (k - 1) metric_list 0)%Q) /\
    gm_fit L best (seed self) Xm = Some gm /\
    gm_sample L gm n = Some (normal_block X' n) /\
    trace w' = trace w ++ search_log n_components_list
               ++ [EvMixtureFit best; EvMixtureSample n] ++ rest.
Proof.
  intros Hin H n.
  assert (Hmix : in_list mode ["local"; "cluster"; "global"]%string = true).
  { simpl in Hin. destruct Hin as [<- | [<- | [<- | []]]]; reflexivity. }
  destruct (generate_realistic_synthetic_inv self _ _ _ _ _ _ _ _ _ H)
    as (Xm & gm & X1 & Xn & Xa & w1 & w2 & Hmode & Hm & Hnorm & Hanom
        & Hcat & _ & _ & _ & Htr).
  fold n in Hnorm.
  destruct (synthetic_normal_mixture self _ _ _ _ _ _ _ _ Hmix Hnorm)
    as (ml & g & Xn0 & Hall & Hfit & Hsam & _ & _ & E & Hl1).
  inversion E. subst Xn0. clear E.
  destruct (synthetic_anomalies_draw _ _ _ _ _ _ _ _ _ _ Hmode Hanom)
    as (Xa0 & t2 & _ & _ & Hl2 & _).
  destruct (blocks_of_concatenate0 _ _ _ Hcat) as (Hbn & _ & _).
  rewrite (gm_sample_rows L OK _ _ _ Hsam) in Hbn.
  pose proof (Forall2_length _ _ _ Hall) as Hlen.
  unfold n_components_list in Hlen. rewrite length_seq in Hlen.
  assert (Hne : ml <> []) by (destruct ml; [discriminate|congruence]).
  destruct (np_argmin_spec ml Hne) as (Hi & Hmin & Hfirst).
  rewrite <- Hlen in Hi.
  assert (Hbest : nth (np_argmin ml) n_components_list 0 = S (np_argmin ml)).
  { unfold n_components_list. apply seq_nth. exact Hi. }
  assert (Hpred : nth (np_argmin ml) n_components_list 0 - 1 = np_argmin ml)
    by (rewrite Hbest; lia).
  exists Xm, ml, g, t2. cbv zeta. rewrite Hbn, Hpred.
  split; [exact Hm|]. split; [exact Hall|].
  split; [|split; [|split; [|split; [|split]]]].
  - rewrite Hbest. apply in_seq. lia.
  - intros k Hk. apply in_seq in Hk. apply Hmin. lia.
  - intros k Hk Hlt. apply in_seq in Hk. apply Hfirst. lia.
  - exact Hfit.
  - exact Hsam.
  - destruct (logs_trans _ _ _ _ _ Hl1 Hl2) as (_ & _ & Ht).
    rewrite Htr, Ht, <- !app_assoc. reflexivity.
Qed.

End GlobalAndSelection.

(** All four modes on twelve rows, ten of them normal. *)
Lemma synthetic_blocks_witness :
  Toy.returns_blocks "local" /\ Toy.returns_blocks "cluster" /\
  Toy.returns_blocks "dependency" /\ Toy.returns_blocks "global".
Proof.
  assert (Hall : forall mode,
    (exists r,
       generate_realistic_synthetic Toy.self Toy.X12 0 mode 5 (1 # 10)
                                    Toy.w12 = inr r) ->
    Toy.returns_blocks mode).
  { intros mode [[[X' y'] w'] Hrun]. exists X', y', w'.
    destruct (synthetic_blocks (toy_lib_ok true Toy.flat (Toy.X12, Toy.y12))
                Toy.self Toy.X12 0 mode 5 (1 # 10) Toy.w12 X' y' w' Hrun)
      as (_ & Hrows & Hlabels & _).
    split; [exact Hrun|]. split; [exact Hrows|exact Hlabels]. }
  repeat split; apply Hall; eexists; vm_compute; reflexivity.
Defined.

(** No normal row, global mode, a library that accepts every size: the
    minimum of an empty column is undefined and the call fails. *)
Lemma zero_normal_target_fails :
  length (np_where (cells Toy.w_ones 0) 0) = 0 /\
  generate_realistic_synthetic Toy.self Toy.X12 0 "global" 5 (1 # 10)
                               Toy.w_ones = inl ValueError.
Proof. split; vm_compute; reflexivity. Qed.

(** No anomaly, local mode, a library that is strict like scikit-learn:
    the draw of size 0 is requested and refused. *)
Lemma zero_anomaly_target_fails :
  length (np_where (cells Toy.w_zeros 0) 1) = 0 /\
  generate_realistic_synthetic Toy.self Toy.X12 0 "local" 5 (1 # 10)
                               Toy.w_zeros = inl ExternalError.
Proof. split; vm_compute; reflexivity. Qed.

(** No anomaly, global mode: the uniform draws are requested with size 0
    and the result is the twelve synthetic normal rows. *)
Lemma zero_target_still_drawn_witness :
  exists X' y' w',
    generate_realistic_synthetic Toy.self Toy.X12 0 "global" 5 (1 # 10)
                                 Toy.w_zeros = inr ((X', y'), w') /\
    In (EvUniform 0) (trace w') /\ shape0 X' = 12 /\
    cells w' y' = repeat 0%Z 12.
Proof.
  destruct (generate_realistic_synthetic Toy.self Toy.X12 0 "global" 5
              (1 # 10) Toy.w_zeros) as [e|[[X' y'] w']] eqn:Hrun.
  - vm_compute in Hrun. discriminate Hrun.
  - exists X', y', w'.
    destruct (zero_target_still_drawn (L:=Toy.L0)
                (toy_lib_ok true Toy.flat (Toy.X12, Toy.y12))
                Toy.self Toy.X12 0 "global" 5 (1 # 10) Toy.w_zeros X' y' w'
                Hrun)
      as ((t & Htrace & _ & Hdraw) & Hzero & _).
    destruct (Hzero eq_refl) as (_ & Hrows & Hlabels).
    split; [reflexivity|]. split; [|split; [exact Hrows|exact Hlabels]].
    rewrite Htrace. apply in_or_app. right. apply Hdraw.
    vm_compute in Hrun. injection Hrun as <- _ _. vm_compute. lia.
Defined.

(** Global mode with [percentage = 0.1] on normal rows whose first
    feature runs from 1 to 10: the second anomaly takes the value 3.575
    there, inside the range of the normal rows and inside the scaled
    range from 1.1 to 11. *)
Lemma global_anomaly_inside_normal_range :
  exists X' y' w',
    generate_realistic_synthetic Toy.self Toy.X12 0 "global" 5 (1 # 10)
                                 Toy.w12 = inr ((X', y'), w') /\
    np_min (column (normal_block X' 10) 0) = Some 1%Q /\
    np_max (column (normal_block X' 10) 0) = Some 10%Q /\
    exists v,
      nth_error (column (anomaly_block X' 10) 0) 1 = Some v /\
      (v == 3575 # 1000)%Q /\ (1 <= v)%Q /\ (v <= 10)%Q.
Proof.
  eexists. eexists. eexists. split; [vm_compute; reflexivity|].
  split; [vm_compute; reflexivity|]. split; [vm_compute; reflexivity|].
  eexists. split; [vm_compute; reflexivity|].
  split; [reflexivity|]. split; unfold Qle; simpl; lia.
Qed.

(** The same run: both anomalies of the first feature lie between 1.1
    and 11. *)
Lemma global_anomalies_scaled_range_witness :
  exists X' y' w',
    generate_realistic_synthetic Toy.self Toy.X12 0 "global" 5 (1 # 10)
                                 Toy.w12 = inr ((X', y'), w') /\
    Forall (fun v => (11 # 10 <= v)%Q /\ (v <= 11)%Q)
           (column (anomaly_block X' 10) 0).
Proof.
  destruct (generate_realistic_synthetic Toy.self Toy.X12 0 "global" 5
              (1 # 10) Toy.w12) as [e|[[X' y'] w']] eqn:Hrun.
  - vm_compute in Hrun. discriminate Hrun.
  - exists X', y', w'. split; [reflexivity|].
    assert (Hj : 0 < shape1 X').
    { vm_compute in Hrun. injection Hrun as <- _ _. vm_compute. lia. }
    destruct (global_anomalies_scaled_range (L:=Toy.L0)
                (toy_lib_ok true Toy.flat (Toy.X12, Toy.y12))
                Toy.self Toy.X12 0 5 (1 # 10) Toy.w12 X' y' w' Hrun 0 Hj)
      as (lo & hi & us & Hlo & Hhi & _ & _ & _ & Hrange).
    assert (Hp : (0 <= 1 + (1 # 10))%Q) by (unfold Qle; simpl; lia).
    specialize (Hrange Hp).
    vm_compute in Hrun. injection Hrun as <- _ _.
    vm_compute in Hlo. injection Hlo as <-.
    vm_compute in Hhi. injection Hhi as <-.
    eapply Forall_impl; [|exact Hrange]. simpl. intros v [H1 H2]. split.
    + eapply Qle_trans; [|exact H1]. unfold Qle. simpl. lia.
    + eapply Qle_trans; [exact H2|]. unfold Qle. simpl. lia.
Defined.

(** BIC scores tied from three components on: all nine counts are fitted,
    the refit takes three components, then ten normal rows are drawn. *)
Lemma mixture_selected_by_bic_witness :
  exists X' y' w' rest,
    generate_realistic_synthetic Toy.self Toy.X12 0 "local" 5 (1 # 10)
                                 Toy.w_tied = inr ((X', y'), w') /\
    trace w' = search_log n_components_list
               ++ [EvMixtureFit 3; EvMixtureSample 10] ++ rest.
Proof.
  destruct (generate_realistic_synthetic Toy.self Toy.X12 0 "local" 5
              (1 # 10) Toy.w_tied) as [e|[[X' y'] w']] eqn:Hrun.
  - vm_compute in Hrun. discriminate Hrun.
  - assert (Hmode : In "local"%string ["local"; "cluster"; "global"]%string)
      by (simpl; auto).
    destruct (mixture_selected_by_bic (L:=Toy.L2)
                (toy_lib_ok true Toy.tied (Toy.X12, Toy.y12))
                Toy.self Toy.X12 0 "local" 5 (1 # 10) Toy.w_tied X' y' w'
                Hmode Hrun)
      as (Xm & ml & gm & rest & _ & _ & _ & _ & _ & _ & _ & Htrace).
    exists X', y', w', rest. split; [reflexivity|].
    vm_compute in Hrun. injection Hrun as _ _ <-.
    simpl in Htrace. inversion Htrace as [[Hbest Hrest]].
    reflexivity.
Defined.

(** ** Irrelevant features *)

Lemma Qeq_bool_false_lt (r : Q) : (0 < r)%Q -> Qeq_bool r 0 = false.
Proof.
  intros H. destruct (Qeq_bool r 0) eqn:E; [|reflexivity].
  apply Qeq_bool_iff in E. rewrite E in H. apply Qlt_irrefl in H.
  contradiction.
Qed.

(** When the product is below one, [int] gives no positive number. *)
Lemma py_int_below_one (x : Q) : (x < 1)%Q -> (py_int x <= 0)%Z.
Proof.
  intros H. destruct (Qlt_le_dec x 0) as [Hneg|Hpos].
  - apply py_int_nonpos. apply Qlt_le_weak. exact Hneg.
  - rewrite py_int_nonneg by exact Hpos.
    assert (Hlt : (Qfloor x < 1)%Z); [|lia].
    rewrite Zlt_Qlt. eapply Qle_lt_trans; [apply Qfloor_le|exact H].
Qed.

(** C10, as the code computes it.  When the noise dimension that line
    171 computes, in binary64, is zero or negative,
    [add_irrelevant_features] returns the very pair it was given and
    leaves the world as it was: nothing is drawn, nothing is logged, no
    column is added or moved.  The computed dimension is
    [int(fl(fl(r / fl(1 - r)) * d))], each [fl] a rounding to the nearest
    double; it is not the floor of the exact [r / (1 - r) * d].  In
    particular, for a double [r] other than 1 and [d] features (fewer
    than [2^63]), the call is the identity as soon as the binary64 value
    [fl(fl(r / fl(1 - r)) * d)] is below 1. *)
Theorem no_noise_dimension_identity {L : library} (X : matrix) (y : loc)
  (r : Q) (w : world L) :
  (forall k, noise_dimension r (shape1 X) = inr k -> (k <= 0)%Z ->
     add_irrelevant_features X y r w = inr ((X, y), w)) /\
  (is_double r -> ~ (r == 1)%Q -> (Z.of_nat (shape1 X) < 2 ^ 63)%Z ->
   (nearest (nearest (r / nearest (1 - r)) * nearest (Qof_nat (shape1 X)))
    < 1)%Q ->
   add_irrelevant_features X y r w = inr ((X, y), w)).
Proof.
  assert (Hgate : forall k, noise_dimension r (shape1 X) = inr k ->
            (k <= 0)%Z -> add_irrelevant_features X y r w = inr ((X, y), w)).
  { intros k Hk Hle. unfold add_irrelevant_features.
    destruct (Qeq_bool r 0); [reflexivity|].
    rewrite Hk, bind_attempt_ok.
    destruct (Z.ltb_spec 0 k); [lia|reflexivity]. }
  split; [exact Hgate|].
  intros Hd Hne Hcols Hlt.
  destruct (noise_dimension_finite r (shape1 X) Hd Hne Hcols) as (Hdim & _).
  apply (Hgate _ Hdim). apply py_int_below_one. exact Hlt.
Qed.

(** Two features and a noise ratio of 0.1: [0.1 / 0.9 * 2] is below 1. *)
Lemma no_noise_dimension_identity_witness :
  is_double (double (1 # 10)) /\ ~ (double (1 # 10) == 1)%Q /\
  (nearest (nearest (double (1 # 10) / nearest (1 - double (1 # 10)))
            * nearest (Qof_nat (shape1 Toy.X12))) < 1)%Q /\
  noise_dimension (double (1 # 10)) (shape1 Toy.X12) = inr 0%Z /\
  add_irrelevant_features Toy.X12 0 (double (1 # 10)) Toy.w12
  = inr ((Toy.X12, 0), Toy.w12).
Proof.
  assert (Hd : is_double (double (1 # 10))) by (split; vm_compute; reflexivity).
  assert (Hne : ~ (double (1 # 10) == 1)%Q)
    by (vm_compute; intros E; discriminate E).
  assert (Hlt : (nearest (nearest (double (1 # 10)
                                   / nearest (1 - double (1 # 10)))
                          * nearest (Qof_nat (shape1 Toy.X12))) < 1)%Q)
    by (vm_compute; reflexivity).
  assert (H : noise_dimension (double (1 # 10)) (shape1 Toy.X12) = inr 0%Z)
    by (vm_compute; reflexivity).
  split; [exact Hd|]. split; [exact Hne|]. split; [exact Hlt|].
  split; [exact H|].
  destruct (no_noise_dimension_identity (L:=Toy.L0) Toy.X12 0
              (double (1 # 10)) Toy.w12) as [_ Hid].
  apply Hid; [exact Hd|exact Hne|reflexivity|exact Hlt].
Defined.

(** A noise ratio of [1/7] on six features: the floor of the exact
    [r / (1 - r) * 6] is 0, the code computes 1.0 and a seventh column is
    added. *)
Lemma exact_floor_zero_adds_a_column :
  is_double (double (1 # 7)) /\ (0 < double (1 # 7))%Q /\
  Qfloor (double (1 # 7) / (1 - double (1 # 7))
          * Qof_nat (shape1 (Toy.grid 12 6))) = 0%Z /\
  exists X' w',
    add_irrelevant_features (Toy.grid 12 6) 0 (double (1 # 7)) Toy.w12
    = inr ((X', 0), w') /\
    shape1 X' = 7.
Proof.
  split; [split; vm_compute; reflexivity|].
  split; [vm_compute; reflexivity|]. split; [vm_compute; reflexivity|].
  destruct (add_irrelevant_features (Toy.grid 12 6) 0 (double (1 # 7))
              Toy.w12) as [e|[[X' y'] w']] eqn:Hrun.
  - vm_compute in Hrun. discriminate Hrun.
  - vm_compute in Hrun. injection Hrun as <- <- <-.
    eexists. eexists. split; reflexivity.
Qed.

Lemma nth_map_in {A B : Type} (f : A -> B) (l : list A) (c : nat) (d : B)
  (d' : A) : c < length l -> nth c (map f l) d = f (nth c l d').
Proof.
  revert c. induction l as [|a l IH]; intros [|c] H; simpl in *; try lia; auto.
  apply IH. lia.
Qed.

Lemma column_take_cols (idx : list nat) (X X' : matrix) (c : nat) :
  take_cols idx X = Some X' -> c < length idx ->
  column X' c = column X (nth c idx 0).
Proof.
  unfold take_cols. destruct (forallb _ idx); [|discriminate].
  intros H Hc. inversion H. unfold column. simpl. rewrite map_map.
  apply map_ext. intros r.
  exact (nth_map_in (fun j => nth j r 0%Q) idx c 0%Q 0 Hc).
Qed.

Lemma take_cols_shape (idx : list nat) (X X' : matrix) :
  take_cols idx X = Some X' ->
  shape0 X' = shape0 X /\ shape1 X' = length idx.
Proof.
  unfold take_cols. destruct (forallb _ idx); [|discriminate].
  intros H. inversion H. unfold shape0. simpl. rewrite length_map. auto.
Qed.

Lemma take_cols_single (j : nat) (X Xi : matrix) :
  take_cols [j] X = Some Xi ->
  j < shape1 X /\ concat (rows Xi) = column X j.
Proof.
  unfold take_cols. simpl.
  destruct (Nat.ltb_spec j (shape1 X)) as [Hj|]; [|discriminate].
  simpl. intros H. inversion H. simpl. split; [exact Hj|].
  apply concat_singletons.
Qed.

Lemma column_concatenate1 (A B X : matrix) (c : nat) :
  concatenate1 A B = Some X -> well_shaped A ->
  shape0 X = shape0 A /\ shape1 X = shape1 A + shape1 B /\
  (c < shape1 A -> column X c = column A c) /\
  (shape1 A <= c -> column X c = column B (c - shape1 A)).
Proof.
  unfold concatenate1, well_shaped, shape0, column.
  destruct A as [da ra], B as [db rb]. simpl.
  destruct (Nat.eqb_spec (length ra) (length rb)) as [Hlen|]; [|discriminate].
  intros H Hws. injection H as <-. simpl.
  split; [rewrite length_map, length_combine; lia|]. split; [reflexivity|].
  rewrite map_map. revert rb Hlen.
  induction Hws as [|r ra Hr Hra IH]; intros [|s rb] Hlen; simpl in *;
    try discriminate; [split; reflexivity|].
  destruct (IH rb ltac:(lia)) as [IH1 IH2]. split; intros Hc.
  - rewrite (IH1 Hc), app_nth1 by lia. reflexivity.
  - rewrite (IH2 Hc), app_nth2 by lia. rewrite Hr. reflexivity.
Qed.

Section IrrelevantFeatures.

Context {L : library}.

Lemma np_random_choice_replace_length (a : list nat) (size : Z)
  (w : world L) r w' :
  np_random_choice a size true w = inr (r, w') -> length r = Z.to_nat size.
Proof.
  unfold np_random_choice. intros H.
  apply bind_inr in H. destruct H as (u & w1 & Ht & H).
  destruct ((length a =? 0) && negb (size =? 0)%Z); [discriminate|].
  destruct (size <? 0)%Z; [discriminate|].
  destruct (randints_spec (length a) (Z.to_nat size) w1)
    as (idx & w2 & Hrun & Hlen & _).
  rewrite (bind_ok _ _ _ _ _ Hrun) in H.
  apply lift_inr in H. destruct H as [H _].
  rewrite (take_length _ _ _ H). exact Hlen.
Qed.

Lemma noise_columns_inv (X : matrix) (k : nat) :
  forall (w : world L) cols w1,
  noise_columns X k w = inr (cols, w1) ->
  (library_ok L -> exists sources, Forall2 (noise_column X) sources cols) /\
  length cols = k /\ cells w1 = cells w /\ next_loc w1 = next_loc w.
Proof.
  induction k as [|k IH]; intros w cols w1 H; simpl in H.
  - run H. split; [intros _; exists []; constructor|auto].
  - apply bind_inr in H. destruct H as (idx & w2 & Hch & H).
    pose proof (np_random_choice_replace_length _ _ _ _ _ Hch) as Hlen.
    apply np_random_choice_inv in Hch. destruct Hch as (_ & Hc2 & Hn2 & _).
    destruct idx as [|j [|]]; try discriminate Hlen.
    apply bind_inr in H. destruct H as (Xi & w3 & Hxi & H).
    apply lift_inr in Hxi. destruct Hxi as [Hxi ->].
    apply take_cols_single in Hxi. destruct Hxi as [Hj Hcol].
    rewrite Hcol in H.
    apply bind_inr in H. destruct H as (lo & w3 & Hlo & H).
    apply lift_inr in Hlo. destruct Hlo as [Hlo ->].
    apply bind_inr in H. destruct H as (hi & w3 & Hhi & H).
    apply lift_inr in Hhi. destruct Hhi as [Hhi ->].
    apply bind_inr in H. destruct H as (c & w3 & Hu & H).
    destruct (np_random_uniform_spec lo hi (shape0 X) w2)
      as (us & w4 & Hrun & Hlus & (Hc4 & Hn4 & _) & Hus).
    rewrite Hrun in Hu. inversion Hu. subst c w4. clear Hu.
    apply bind_inr in H. destruct H as (cols' & w5 & Hrest & H).
    unfold ret in H. inversion H. subst cols w5. clear H.
    apply IH in Hrest. destruct Hrest as (Hsrc & Hk & Hc5 & Hn5).
    split; [|split; [simpl; congruence|split; congruence]].
    intros OK. destruct (Hsrc OK) as [sources Hall].
    exists (j :: sources). constructor; [|exact Hall].
    split; [exact Hj|]. split; [rewrite length_map; exact Hlus|].
    exists lo, hi. split; [exact Hlo|]. split; [exact Hhi|].
    apply Forall_forall. intros v Hv. apply in_map_iff in Hv.
    destruct Hv as (u & <- & Hu). specialize (Hus OK).
    rewrite Forall_forall in Hus. destruct (Hus u Hu) as [Hu0 Hu1].
    apply uniform_between; auto. eapply np_min_le_max; eauto.
Qed.

Lemma bind_lift_some {A B : Type} (e : exn) (o : option A) (a : A)
  (f : A -> M L B) (w : world L) :
  o = Some a -> bind (lift e o) f w = f a w.
Proof. intros ->. reflexivity. Qed.

Lemma np_random_choice_one (OK : library_ok L) (a : list nat) (w : world L) :
  0 < length a ->
  exists j w', np_random_choice a 1 true w = inr ([j], w') /\ In j a.
Proof.
  intros Ha. unfold np_random_choice. unfold bind at 1, tick.
  destruct (Nat.eqb_spec (length a) 0); [lia|]. cbn [andb].
  change (1 <? 0)%Z with false. cbv iota.
  match goal with
  | |- context [bind (randints ?h ?n) _ ?w0] =>
      destruct (randints_spec h n w0) as (r & w1 & Hrun & Hlen & _ & Hr)
  end.
  rewrite (bind_ok _ _ _ _ _ Hrun). specialize (Hr OK Ha).
  destruct (take_total r a Hr) as [x Hx]. rewrite Hx. simpl.
  pose proof (take_length _ _ _ Hx) as Hlx. rewrite Hlen in Hlx.
  destruct x as [|j [|]]; try discriminate Hlx.
  exists j, w1. split; [reflexivity|].
  eapply take_incl; [exact Hx|]. left. reflexivity.
Qed.

Lemma take_cols_single_total (j : nat) (X : matrix) :
  j < shape1 X -> exists Xi, take_cols [j] X = Some Xi.
Proof.
  intros Hj. unfold take_cols. simpl.
  destruct (Nat.ltb_spec j (shape1 X)); [|lia]. simpl. eauto.
Qed.

Lemma noise_columns_total (OK : library_ok L) (X : matrix) (k : nat) :
  0 < shape0 X -> 0 < shape1 X ->
  forall w : world L, exists r, noise_columns X k w = inr r.
Proof.
  intros Hrows Hcols. induction k as [|k IH]; intros w; simpl.
  - eexists. reflexivity.
  - destruct (np_random_choice_one OK (seq 0 (shape1 X)) w)
      as (j & w1 & Hch & Hin); [rewrite length_seq; exact Hcols|].
    rewrite (bind_ok _ _ _ _ _ Hch). apply in_seq in Hin.
    destruct (take_cols_single_total j X) as [Xi Hxi]; [lia|].
    rewrite (bind_lift_some _ _ _ _ _ Hxi).
    apply take_cols_single in Hxi. destruct Hxi as [_ Hcol]. rewrite Hcol.
    assert (Hne : column X j <> []).
    { unfold column, shape0 in *. destruct (rows X); simpl in *;
        [lia|discriminate]. }
    destruct (np_min_some _ Hne) as [lo Hlo].
    destruct (np_max_some _ Hne) as [hi Hhi].
    rewrite (bind_lift_some _ _ _ _ _ Hlo), (bind_lift_some _ _ _ _ _ Hhi).
    destruct (np_random_uniform_spec lo hi (shape0 X) w1)
      as (us & w2 & Hrun & _).
    rewrite (bind_ok _ _ _ _ _ Hrun).
    destruct (IH w2) as [[cols w3] Hrest].
    rewrite (bind_ok _ _ _ _ _ Hrest). eexists. reflexivity.
Qed.

Lemma concatenate1_shape (A B X : matrix) :
  concatenate1 A B = Some X ->
  shape0 X = shape0 A /\ shape1 X = shape1 A + shape1 B.
Proof.
  unfold concatenate1, shape0. destruct A as [da ra], B as [db rb]. simpl.
  destruct (Nat.eqb_spec (length ra) (length rb)); [|discriminate].
  intros H. injection H as <-. simpl.
  rewrite length_map, length_combine. split; [lia|reflexivity].
Qed.

(** The store and the row count survive the widening. *)
Lemma append_noise_frame (X : matrix) (nd : Z) (w : world L) X' w' :
  append_noise X nd w = inr (X', w') ->
  cells w' = cells w /\ next_loc w' = next_loc w /\ shape0 X' = shape0 X.
Proof.
  unfold append_noise. intros H.
  apply bind_inr in H. destruct H as (cols & w1 & Hcols & H).
  apply noise_columns_inv in Hcols. destruct Hcols as (_ & _ & Hc1 & Hn1).
  apply bind_inr in H. destruct H as (Xc & w2 & Hcat & H).
  apply lift_inr in Hcat. destruct Hcat as [Hcat ->].
  apply bind_inr in H. destruct H as (idx & w3 & Hch & H).
  apply np_random_choice_inv in Hch. destruct Hch as (_ & Hc3 & Hn3 & _).
  apply lift_inr in H. destruct H as [Htake ->].
  apply concatenate1_shape in Hcat. apply take_cols_shape in Htake.
  split; [congruence|]. split; [congruence|]. lia.
Qed.

Lemma add_irrelevant_features_frame (X : matrix) (y : loc) (r : Q)
  (w : world L) X' y' w' :
  add_irrelevant_features X y r w = inr ((X', y'), w') ->
  y' = y /\ cells w' = cells w /\ next_loc w' = next_loc w /\
  shape0 X' = shape0 X.
Proof.
  unfold add_irrelevant_features. intros H.
  destruct (Qeq_bool r 0); [inversion H; auto|].
  apply bind_inr in H. destruct H as (k & w0 & Hk & H).
  apply attempt_inr in Hk. destruct Hk as [_ ->].
  destruct (0 <? k)%Z; [|inversion H; auto].
  apply bind_inr in H. destruct H as (X1 & w1 & Happ & H).
  inversion H. subst. apply append_noise_frame in Happ. tauto.
Qed.

(** Where the columns of the widened matrix come from: [order] lists, for
    each column of the result, its position before the shuffle; the
    positions below [shape1 X] are the features of [X], the others are
    noise columns, each within the range of its source feature. *)
Lemma append_noise_inv (OK : library_ok L) (X : matrix) (nd : Z)
  (w : world L) X' w' :
  well_shaped X -> (0 <= nd)%Z ->
  append_noise X nd w = inr (X', w') ->
  Z.of_nat (shape1 X') = (Z.of_nat (shape1 X) + nd)%Z /\
  exists sources order,
    length sources = Z.to_nat nd /\
    Permutation (seq 0 (shape1 X')) order /\
    forall c, c < shape1 X' ->
      (nth c order 0 < shape1 X ->
       column X' c = column X (nth c order 0)) /\
      (shape1 X <= nth c order 0 ->
       noise_column X (nth (nth c order 0 - shape1 X) sources 0)
                    (column X' c)).
Proof.
  intros Hws Hnd H. unfold append_noise in H.
  apply bind_inr in H. destruct H as (cols & w1 & Hcols & H).
  apply noise_columns_inv in Hcols. destruct Hcols as (Hsrc & Hk & _ & _).
  destruct (Hsrc OK) as [sources Hall].
  apply bind_inr in H. destruct H as (Xc & w2 & Hcat & H).
  apply lift_inr in Hcat. destruct Hcat as [Hcat ->].
  apply bind_inr in H. destruct H as (idx & w3 & Hch & H).
  apply lift_inr in H. destruct H as [Htake ->].
  destruct (concatenate1_shape _ _ _ Hcat) as [_ Hd]. simpl in Hd.
  destruct (np_random_choice_distinct (seq 0 (shape1 Xc))
              (Z.of_nat (shape1 Xc)) w1 OK)
    as (idx' & w4 & Hrun & Hlen & Hincl & Hnd' & _).
  { rewrite length_seq. lia. }
  rewrite Hrun in Hch. inversion Hch. subst idx' w4. clear Hch.
  rewrite Nat2Z.id in Hlen.
  destruct (take_cols_shape _ _ _ Htake) as [_ Hs1].
  assert (Hperm : Permutation (seq 0 (shape1 Xc)) idx).
  { apply Permutation_sym. apply NoDup_Permutation_bis.
    - apply Hnd'. apply seq_NoDup.
    - rewrite length_seq. lia.
    - exact Hincl. }
  split; [rewrite Hs1, Hlen, Hd, Hk; lia|].
  exists sources, idx.
  split; [rewrite (Forall2_length _ _ _ Hall), Hk; reflexivity|].
  split; [rewrite Hs1, Hlen; exact Hperm|].
  intros c Hc. rewrite Hs1 in Hc.
  rewrite (column_take_cols _ _ _ c Htake Hc).
  set (o := nth c idx 0).
  assert (Ho : o < shape1 Xc).
  { assert (In o (seq 0 (shape1 Xc))) as Hin.
    { apply Hincl. apply nth_In. exact Hc. }
    apply in_seq in Hin. lia. }
  destruct (column_concatenate1 _ _ _ o Hcat Hws) as (_ & _ & Hleft & Hright).
  split.
  - intros Hlt. apply Hleft. exact Hlt.
  - intros Hge. rewrite (Hright Hge).
    assert (Hcol : o - shape1 X < length cols) by lia.
    rewrite <- (Forall2_length _ _ _ Hall) in Hcol.
    pose proof (Forall2_nth _ _ _ 0 [] Hall _ Hcol) as Hnoise.
    rewrite column_of_columns; [exact Hnoise|].
    destruct Hnoise as (_ & Hl & _). exact Hl.
Qed.

Lemma append_noise_total (OK : library_ok L) (X : matrix) (nd : Z)
  (w : world L) :
  0 < shape0 X -> 0 < shape1 X -> (0 <= nd)%Z ->
  exists r, append_noise X nd w = inr r.
Proof.
  intros Hrows Hcols Hnd. unfold append_noise.
  destruct (noise_columns_total OK X (Z.to_nat nd) Hrows Hcols w)
    as [[cols w1] Hrun].
  rewrite (bind_ok _ _ _ _ _ Hrun).
  destruct (concatenate1 X (of_columns (shape0 X) cols)) as [Xc|] eqn:Hcat.
  2: { unfold concatenate1 in Hcat. rewrite shape0_of_columns in Hcat.
       rewrite Nat.eqb_refl in Hcat. discriminate. }
  rewrite (bind_lift_some _ _ _ _ _ eq_refl).
  destruct (np_random_choice_distinct (seq 0 (shape1 Xc))
              (Z.of_nat (shape1 Xc)) w1 OK)
    as (idx & w2 & Hch & _ & Hincl & _).
  { rewrite length_seq. lia. }
  rewrite (bind_ok _ _ _ _ _ Hch).
  unfold take_cols.
  assert (forallb (fun j => j <? shape1 Xc) idx = true) as ->.
  { apply forallb_forall. intros j Hj. apply Hincl in Hj.
    apply in_seq in Hj. apply Nat.ltb_lt. lia. }
  simpl. eexists. reflexivity.
Qed.

End IrrelevantFeatures.

(** C8, as the code has it.  A noise ratio equal to 0 gives back the pair
    and the world unchanged.  For a double [r] with [0 < r < 1] and [d]
    features (fewer than [2^63], as numpy has them) the noise dimension
    [k] of line 171 is computed without an error and is the floor of the
    binary64 value of the expression: of [fl(fl(r / fl(1 - r)) * d)],
    each [fl] a rounding to the nearest double.  The call returns as soon
    as [X] has a row or [k = 0]; whenever it returns, the labels are the
    same array with the same contents, the row count is unchanged, there
    are [d + k] columns, and the columns are a rearrangement of the [d]
    features of [X] and of [k] noise columns, each noise column having
    its values between the minimum and the maximum of the feature of [X]
    it was drawn from. *)
Theorem irrelevant_features_columns {L : library} (OK : library_ok L)
  (X : matrix) (y : loc) (r : Q) (w : world L) :
  well_shaped X ->
  ((r == 0)%Q -> add_irrelevant_features X y r w = inr ((X, y), w)) /\
  (is_double r -> (0 < r)%Q -> (r < 1)%Q ->
   (Z.of_nat (shape1 X) < 2 ^ 63)%Z ->
   let d := shape1 X in
   let k := Qfloor (nearest (nearest (r / nearest (1 - r))
                             * nearest (Qof_nat d))) in
   noise_dimension r d = inr k /\ (0 <= k)%Z /\
   (0 < shape0 X \/ k = 0%Z ->
    exists res, add_irrelevant_features X y r w = inr res) /\
   forall X' y' w',
     add_irrelevant_features X y r w = inr ((X', y'), w') ->
     y' = y /\ cells w' = cells w /\ shape0 X' = shape0 X /\
     Z.of_nat (shape1 X') = (Z.of_nat d + k)%Z /\
     exists sources order,
       length sources = Z.to_nat k /\
       Permutation (seq 0 (shape1 X')) order /\
       forall c, c < shape1 X' ->
         (nth c order 0 < d -> column X' c = column X (nth c order 0)) /\
         (d <= nth c order 0 ->
          noise_column X (nth (nth c order 0 - d) sources 0) (column X' c))).
Proof.
  intros Hws. split.
  { intros Hr. unfold add_irrelevant_features.
    apply Qeq_bool_iff in Hr. rewrite Hr. reflexivity. }
  intros Hdbl H0 H1 Hcols d k.
  assert (Hne : ~ (r == 1)%Q).
  { intros E. rewrite E in H1. exact (Qlt_irrefl 1 H1). }
  destruct (noise_dimension_finite r d Hdbl Hne Hcols)
    as (Hdim & Hsign & _).
  specialize (Hsign (Qlt_le_weak _ _ H0) H1).
  rewrite py_int_nonneg in Hdim by exact Hsign. fold k in Hdim.
  assert (Hk : (0 <= k)%Z).
  { change 0%Z with (Qfloor 0). apply Qfloor_resp_le. exact Hsign. }
  split; [exact Hdim|]. split; [exact Hk|].
  assert (Hrun : add_irrelevant_features X y r w
                 = if (0 <? k)%Z
                   then bind (append_noise X k) (fun X => ret (X, y)) w
                   else inr ((X, y), w)).
  { unfold add_irrelevant_features.
    rewrite (Qeq_bool_false_lt r H0). fold d. rewrite Hdim, bind_attempt_ok.
    destruct (0 <? k)%Z; reflexivity. }
  rewrite Hrun. clear Hrun. destruct (Z.ltb_spec 0 k) as [Hpos|Hzero].
  - assert (Hd : 0 < d).
    { destruct d eqn:Ed; [|lia]. exfalso. unfold k in Hpos.
      change (nearest (Qof_nat 0)) with 0%Q in Hpos.
      rewrite (nearest_zero (_ * 0)) in Hpos by ring.
      discriminate Hpos. }
    split.
    + intros [Hrows|Hk0]; [|lia].
      destruct (append_noise_total OK X k w Hrows Hd Hk) as [[X1 w1] Happ].
      rewrite (bind_ok _ _ _ _ _ Happ). eexists. reflexivity.
    + intros X' y' w' H.
      apply bind_inr in H. destruct H as (X1 & w1 & Happ & H).
      inversion H. subst X1 y' w1. clear H.
      destruct (append_noise_frame _ _ _ _ _ Happ) as (Hc & _ & Hrows).
      destruct (append_noise_inv OK _ _ _ _ _ Hws Hk Happ) as (Hcols' & Hsrc).
      auto.
  - assert (k = 0%Z) as Hk0 by lia. split; [eauto|].
    intros X' y' w' H. inversion H. subst X' y' w'. clear H.
    split; [reflexivity|]. split; [reflexivity|]. split; [reflexivity|].
    split; [fold d; lia|].
    exists [], (seq 0 d). rewrite Hk0. split; [reflexivity|].
    split; [apply Permutation_refl|].
    intros c Hc. fold d in Hc. rewrite seq_nth by exact Hc. simpl.
    split; [reflexivity|lia].
Qed.

(** A noise ratio of 2 on two features: the call returns the same two
    columns, while [d + floor(r / (1 - r) * d)] is [2 + (-4)]. *)
Lemma noise_ratio_two_adds_no_column :
  (0 < 2)%Q /\
  add_irrelevant_features Toy.X12 0 2 Toy.w12 = inr ((Toy.X12, 0), Toy.w12) /\
  (Z.of_nat (shape1 Toy.X12)
   + Qfloor (2 / (1 - 2) * Qof_nat (shape1 Toy.X12)))%Z = (-2)%Z.
Proof.
  split; [reflexivity|]. split; vm_compute; reflexivity.
Qed.

(** A noise ratio of 0.45 on 33 features: the code computes
    26.999999999999996 and adds 26 columns, the floor of the exact
    [r / (1 - r) * 33] being 27. *)
Lemma noise_dimension_is_not_exact :
  is_double (double (45 # 100)) /\
  (0 < double (45 # 100))%Q /\ (double (45 # 100) < 1)%Q /\
  Qfloor (double (45 # 100) / (1 - double (45 # 100))
          * Qof_nat (shape1 (Toy.grid 12 33))) = 27%Z /\
  exists X' w',
    add_irrelevant_features (Toy.grid 12 33) 0 (double (45 # 100)) Toy.w12
    = inr ((X', 0), w') /\
    shape1 X' = 59.
Proof.
  split; [split; vm_compute; reflexivity|].
  split; [vm_compute; reflexivity|]. split; [vm_compute; reflexivity|].
  split; [vm_compute; reflexivity|].
  destruct (add_irrelevant_features (Toy.grid 12 33) 0 (double (45 # 100))
              Toy.w12) as [e|[[X' y'] w']] eqn:Hrun.
  - vm_compute in Hrun. discriminate Hrun.
  - vm_compute in Hrun. injection Hrun as <- <- <-.
    eexists. eexists. split; reflexivity.
Qed.

(** A noise ratio of 0.5 on two features and twelve rows: two noise
    columns are added. *)
Lemma irrelevant_features_columns_witness :
  well_shaped Toy.X12 /\ is_double (1 # 2) /\
  exists X' w',
    add_irrelevant_features Toy.X12 0 (1 # 2) Toy.w12 = inr ((X', 0), w') /\
    shape0 X' = 12 /\ shape1 X' = 4.
Proof.
  assert (Hws : well_shaped Toy.X12) by (repeat constructor).
  assert (Hdbl : is_double (1 # 2)) by (split; vm_compute; reflexivity).
  split; [exact Hws|]. split; [exact Hdbl|].
  destruct (irrelevant_features_columns (L:=Toy.L0)
              (toy_lib_ok true Toy.flat (Toy.X12, Toy.y12))
              Toy.X12 0 (1 # 2) Toy.w12 Hws) as [_ Hnoise].
  destruct (Hnoise Hdbl eq_refl eq_refl eq_refl)
    as (_ & _ & Hreturns & Hshape).
  destruct Hreturns as [[[X' y'] w'] Hrun]; [left; vm_compute; lia|].
  destruct (Hshape X' y' w' Hrun) as (-> & _ & Hrows & Hcols & _).
  exists X', w'. split; [exact Hrun|]. split; [exact Hrows|].
  change (Z.of_nat (shape1 X') = 4%Z) in Hcols. lia.
Defined.

(** ** Row alignment and the test labels *)

Section Pipeline.

Context {L : library}.

Lemma add_label_contamination_frame (X : matrix) (y : loc) (r : Q)
  (w : world L) X' y' w' :
  add_label_contamination X y r w = inr ((X', y'), w') ->
  X' = X /\ y' = y /\ (forall l, l <> y -> cells w' l = cells w l) /\
  next_loc w' = next_loc w /\
  length (cells w' y) = length (cells w y) /\
  (Forall binary (cells w y) -> Forall binary (cells w' y)).
Proof.
  unfold add_label_contamination. intros H.
  destruct (Qeq_bool r 0).
  { inversion H. subst. repeat split; auto. }
  apply bind_inr in H. destruct H as (yv & wa & Hy & H).
  unfold load in Hy. inversion Hy. subst yv wa. clear Hy.
  apply bind_inr in H. destruct H as (size & wa & Hsize & H).
  apply attempt_inr in Hsize. destruct Hsize as [_ ->].
  apply bind_inr in H. destruct H as (idx & w1 & Hch & H).
  apply np_random_choice_inv in Hch. destruct Hch as (_ & Hc & Hn & _).
  apply bind_inr in H. destruct H as (flipped & wb & Hf & H).
  apply lift_inr in Hf. destruct Hf as [Hf ->].
  apply bind_inr in H. destruct H as (yv' & wb & Hs & H).
  apply lift_inr in Hs. destruct Hs as [Hs ->].
  apply bind_inr in H. destruct H as (u & wb & Hst & H).
  unfold store in Hst. inversion Hst. subst u wb. clear Hst.
  unfold ret in H. inversion H. subst X' y' w'. clear H. simpl.
  rewrite Nat.eqb_refl. split; [reflexivity|]. split; [reflexivity|].
  split; [|split; [exact Hn|split]].
  - intros l Hl. apply Nat.eqb_neq in Hl. rewrite Hl, Hc. reflexivity.
  - apply (scatter_length _ _ _ _ Hs).
  - intros Hb. eapply scatter_Forall; [exact Hs| |exact Hb].
    apply Forall_forall. intros v Hv. apply in_map_iff in Hv.
    destruct Hv as (u & <- & Hu).
    pose proof (take_Forall binary _ _ _ Hf Hb) as Hfb.
    rewrite Forall_forall in Hfb. destruct (Hfb u Hu) as [-> | ->];
      [right|left]; reflexivity.
Qed.

Lemma add_duplicated_anomalies_aligned (X : matrix) (y : loc) (dt : Q)
  (w : world L) X' y' w' :
  aligned X (cells w y) ->
  add_duplicated_anomalies X y dt w = inr ((X', y'), w') ->
  aligned X' (cells w' y').
Proof.
  unfold add_duplicated_anomalies. intros [Hlen Hbin] H.
  destruct (Qle_bool dt 1).
  { inversion H. subst. split; assumption. }
  apply bind_inr in H. destruct H as (yv & wa & Hy & H).
  unfold load in Hy. inversion Hy. subst yv wa. clear Hy.
  apply bind_inr in H. destruct H as (idx_a & w1 & Hch & H).
  apply bind_inr in H. destruct H as (idx & w2 & Hsh & H).
  apply bind_inr in H. destruct H as (X1 & wb & Hx & H).
  apply lift_inr in Hx. destruct Hx as [Hx ->].
  apply bind_inr in H. destruct H as (yv1 & wb & Hyv & H).
  apply lift_inr in Hyv. destruct Hyv as [Hyv ->].
  apply bind_inr in H. destruct H as (l & wb & Hal & H).
  unfold alloc in Hal. inversion Hal. subst l wb. clear Hal.
  unfold ret in H. inversion H. subst X' y' w'. clear H. simpl.
  rewrite Nat.eqb_refl. unfold take_rows in Hx.
  destruct (take idx (rows X)) as [rs|] eqn:Hrs; [|discriminate].
  inversion Hx. subst X1. unfold aligned, shape0. simpl. split.
  - rewrite (take_length _ _ _ Hyv), (take_length _ _ _ Hrs). reflexivity.
  - eapply take_Forall; [exact Hyv|exact Hbin].
Qed.

Lemma synthetic_aligned (self : DataGenerator) (X : matrix) (y : loc)
  (mode : string) (alpha percentage : Q) (w : world L) X' y' w' :
  generate_realistic_synthetic self X y mode alpha percentage w
  = inr ((X', y'), w') ->
  aligned X' (cells w' y').
Proof.
  intros H.
  destruct (generate_realistic_synthetic_inv self _ _ _ _ _ _ _ _ _ H)
    as (Xm & gm & X1 & Xn & Xa & w1 & w2 & _ & _ & _ & _ & Hcat & _ & Hy & _).
  destruct (blocks_of_concatenate0 _ _ _ Hcat) as (_ & _ & Hrows).
  rewrite Hy. split.
  - rewrite length_app, !repeat_length. symmetry. exact Hrows.
  - apply Forall_app. split; apply Forall_forall; intros v Hv;
      apply repeat_spec in Hv; subst; [left|right]; reflexivity.
Qed.

Lemma partition_labels_aligned (X : matrix) (y : loc)
  (la : labeled_anomalies) (alo : bool) (noise_type : option string)
  (w : world L) labeled w' :
  aligned X (cells w y) ->
  partition_labels y la alo noise_type w = inr (labeled, w') ->
  aligned X (cells w' y) /\ (forall l, l <> y -> cells w' l = cells w l).
Proof.
  intros [Hlen Hbin] H.
  destruct (partition_labels_inv _ _ _ _ _ _ _ H) as (w1 & Hsel & Hnoise).
  destruct (partition_labels_run y la alo noise_type w labeled w1 Hsel Hnoise)
    as (w2 & Hrun & Hframe & _ & Hl & _ & Hb).
  rewrite Hrun in H. inversion H. subst w2. split; [split|exact Hframe].
  - rewrite Hl. exact Hlen.
  - apply Hb. exact Hbin.
Qed.

(** C9. Each transformation hands back one binary label per row: outlier
    synthesis whatever it was given; duplicated anomalies, irrelevant
    features, label contamination and the label partition whenever they
    were given one binary label per row. *)
Theorem transformations_keep_labels_aligned (self : DataGenerator) :
  (forall X y mode alpha percentage (w : world L) X' y' w',
     generate_realistic_synthetic self X y mode alpha percentage w
     = inr ((X', y'), w') ->
     aligned X' (cells w' y')) /\
  (forall X y duplicate_times (w : world L) X' y' w',
     aligned X (cells w y) ->
     add_duplicated_anomalies X y duplicate_times w = inr ((X', y'), w') ->
     aligned X' (cells w' y')) /\
  (forall X y noise_ratio (w : world L) X' y' w',
     aligned X (cells w y) ->
     add_irrelevant_features X y noise_ratio w = inr ((X', y'), w') ->
     aligned X' (cells w' y')) /\
  (forall X y noise_ratio (w : world L) X' y' w',
     aligned X (cells w y) ->
     add_label_contamination X y noise_ratio w = inr ((X', y'), w') ->
     aligned X' (cells w' y')) /\
  (forall X y la at_least_one_labeled noise_type (w : world L) labeled w',
     aligned X (cells w y) ->
     partition_labels y la at_least_one_labeled noise_type w
     = inr (labeled, w') ->
     aligned X (cells w' y)).
Proof.
  split; [|split; [|split; [|split]]].
  - intros. eapply synthetic_aligned; eauto.
  - intros. eapply add_duplicated_anomalies_aligned; eauto.
  - intros X y r w X' y' w' [Hlen Hbin] H.
    apply add_irrelevant_features_frame in H.
    destruct H as (-> & Hc & _ & Hrows). rewrite Hc. split; congruence.
  - intros X y r w X' y' w' [Hlen Hbin] H.
    apply add_label_contamination_frame in H.
    destruct H as (-> & -> & _ & _ & Hl & Hb). split; [congruence|auto].
  - intros X y la alo nt w labeled w' Hal H.
    eapply partition_labels_aligned; eauto.
Qed.

End Pipeline.

Section TestLabels.

Context {L : library}.
Variable self : DataGenerator.

(** The split reads the labels it is given and stores its two label
    arrays in two new cells. *)
Lemma split_inv (X : matrix) (y : loc) (w : world L) d w' :
  split self X y w = inr (d, w') ->
  exists train test g,
    split_indices L (cells w y) (test_size self) (rng w)
    = Some (train, test, g) /\
    take train (cells w y) = Some (cells w' (y_train d)) /\
    take test (cells w y) = Some (cells w' (y_test d)) /\
    take_rows train X = Some (X_train d) /\
    take_rows test X = Some (X_test d) /\
    y_test d <> y_train d.
Proof.
  unfold split. intros H.
  apply bind_inr in H. destruct H as (yv & wa & Hy & H).
  unfold load in Hy. inversion Hy. subst yv wa. clear Hy.
  apply bind_inr in H. destruct H as (u & wa & Ht & H).
  unfold tick in Ht. inversion Ht. subst u wa. clear Ht.
  apply bind_inr in H. destruct H as ([train test] & wa & Hs & H).
  apply call_inr in Hs. destruct Hs as (g & Hs & ->). simpl in Hs.
  apply bind_inr in H. destruct H as (Xtr & wb & H1 & H).
  apply lift_inr in H1. destruct H1 as [H1 ->].
  apply bind_inr in H. destruct H as (Xte & wb & H2 & H).
  apply lift_inr in H2. destruct H2 as [H2 ->].
  apply bind_inr in H. destruct H as (ytr & wb & H3 & H).
  apply lift_inr in H3. destruct H3 as [H3 ->].
  apply bind_inr in H. destruct H as (yte & wb & H4 & H).
  apply lift_inr in H4. destruct H4 as [H4 ->].
  apply bind_inr in H. destruct H as (l1 & wb & Ha1 & H).
  unfold alloc in Ha1. inversion Ha1. subst l1 wb. clear Ha1.
  apply bind_inr in H. destruct H as (l2 & wb & Ha2 & H).
  unfold alloc in Ha2. inversion Ha2. subst l2 wb. clear Ha2.
  unfold ret in H. inversion H. subst d w'. clear H. simpl.
  exists train, test, g.
  destruct (Nat.eqb_spec (next_loc w) (S (next_loc w))) as [E|_]; [lia|].
  rewrite !Nat.eqb_refl. repeat split; auto; lia.
Qed.

Lemma minmax_scale_frame (d : dataset_split) (w : world L) d' w' :
  minmax_scale d w = inr (d', w') ->
  cells w' = cells w /\ y_train d' = y_train d /\ y_test d' = y_test d /\
  (library_ok L -> shape0 (X_train d') = shape0 (X_train d) /\
                   shape0 (X_test d') = shape0 (X_test d)).
Proof.
  unfold minmax_scale. intros H.
  apply bind_inr in H. destruct H as (u & wa & Ht & H).
  unfold tick in Ht. inversion Ht. subst u wa. clear Ht.
  apply bind_inr in H. destruct H as (sc & wa & Hf & H).
  apply lift_inr in Hf. destruct Hf as [Hf ->].
  apply bind_inr in H. destruct H as (Xtr & wa & H1 & H).
  apply lift_inr in H1. destruct H1 as [H1 ->].
  apply bind_inr in H. destruct H as (Xte & wa & H2 & H).
  apply lift_inr in H2. destruct H2 as [H2 ->].
  unfold ret in H. inversion H. subst d' w'. simpl.
  repeat split; auto; eapply scaler_transform_rows; eauto.
Qed.

(** C7. In a run of [generator] with label contamination, the label
    vector handed to the split is the one of the loaded (and resized or
    synthesised) data, with no noise applied before the split; the
    contamination runs after the split on the training arrays, whose
    label array is not the one of the test split; and the test labels
    returned are the labels the split selected for testing. *)
Theorem test_labels_are_ground_truth (la : labeled_anomalies)
  (at_least_one_labeled : bool) (mode : option string) (alpha percentage : Q)
  (duplicate_times contam_ratio noise_ratio : Q) (w0 : world L)
  (d : dataset_split) (w' : world L) :
  generator self la at_least_one_labeled mode alpha percentage
            (Some "label_contamination"%string) duplicate_times contam_ratio
            noise_ratio w0 = inr (d, w') ->
  exists X y w1 d0 w2 w3 train test g,
    before_noise self la mode alpha percentage w0 = inr ((X, y), w1) /\
    split self X y w1 = inr (d0, w2) /\
    split_indices L (cells w1 y) (test_size self) (rng w1)
    = Some (train, test, g) /\
    add_label_contamination (X_train d0) (y_train d0) noise_ratio w2
    = inr ((X_train d0, y_train d0), w3) /\
    y_train d = y_train d0 /\ y_test d = y_test d0 /\
    y_test d <> y_train d /\
    take test (cells w1 y) = Some (cells w' (y_test d)).
Proof.
  unfold generator. intros H.
  apply bind_inr in H. destruct H as (d1 & w4 & Hprep & H).
  apply bind_inr in H. destruct H as (labeled & w5 & Hpart & H).
  unfold ret in H. inversion H. subst d1 w5. clear H.
  unfold prepare in Hprep.
  apply bind_inr in Hprep. destruct Hprep as ([X y] & w1 & Hbefore & Hprep).
  apply bind_inr in Hprep. destruct Hprep as (d0 & w2 & Hsplit & Hafter).
  unfold before_split in Hbefore.
  apply bind_inr in Hbefore.
  destruct Hbefore as ([X0 y0] & w1' & Hnoise0 & Hbefore).
  unfold noise_before_split in Hbefore. simpl in Hbefore.
  unfold ret in Hbefore. inversion Hbefore. subst X0 y0 w1'. clear Hbefore.
  unfold after_split in Hafter.
  apply bind_inr in Hafter. destruct Hafter as (d2 & w3 & Hnoise & Hscale).
  unfold noise_after_split in Hnoise. simpl in Hnoise.
  apply bind_inr in Hnoise.
  destruct Hnoise as ([Xtr ytr] & w3' & Hcont & Hnoise).
  unfold ret in Hnoise. inversion Hnoise. subst d2 w3'. clear Hnoise.
  destruct (add_label_contamination_frame _ _ _ _ _ _ _ Hcont)
    as (-> & -> & Hframe & _ & _ & _).
  destruct (minmax_scale_frame _ _ _ _ Hscale) as (Hc4 & Htr & Hte & _).
  simpl in Htr, Hte.
  destruct (split_inv _ _ _ _ _ Hsplit)
    as (train & test & g & Hidx & _ & Htest & _ & _ & Hne).
  destruct (partition_labels_inv _ _ _ _ _ _ _ Hpart) as (w6 & Hsel & Hnt).
  destruct (partition_labels_run _ _ _ _ _ _ _ Hsel Hnt)
    as (w7 & Hrun & Hpf & _).
  rewrite Hrun in Hpart. inversion Hpart. subst w7. clear Hpart.
  exists X, y, w1, d0, w2, w3, train, test, g.
  split; [exact Hnoise0|]. split; [exact Hsplit|]. split; [exact Hidx|].
  split; [exact Hcont|]. split; [exact Htr|]. split; [exact Hte|].
  split; [congruence|].
  rewrite Hpf by congruence. rewrite Hc4, Hte, Hframe by exact Hne.
  exact Htest.
Qed.

End TestLabels.

(** Twelve rows, the first three go to the test set with the labels 1, 0
    and 1; a quarter of the nine training labels is flipped; the test
    labels come back as they were. *)
Lemma test_labels_are_ground_truth_witness :
  exists d w',
    generator Toy.self (LaFloat (1 # 2)) false None 5 (1 # 10)
              (Some "label_contamination"%string) 2 1 (1 # 4) Toy.w_init3
    = inr (d, w') /\
    y_test d <> y_train d /\
    cells w' (y_test d) = [1; 0; 1]%Z /\
    cells w' (y_train d) = repeat 0%Z 9.
Proof.
  destruct (generator Toy.self (LaFloat (1 # 2)) false None 5 (1 # 10)
              (Some "label_contamination"%string) 2 1 (1 # 4) Toy.w_init3)
    as [e|[d w']] eqn:Hrun.
  - vm_compute in Hrun. discriminate Hrun.
  - destruct (test_labels_are_ground_truth Toy.self _ _ _ _ _ _ _ _ _ _ _ Hrun)
      as (X & y & w1 & d0 & w2 & w3 & train & test & g & _ & _ & _ & _ & _
          & _ & Hne & _).
    exists d, w'. split; [reflexivity|]. split; [exact Hne|].
    vm_compute in Hrun. injection Hrun as <- <-. split; reflexivity.
Defined.

Lemma Forall_binary_check (yv : list Z) :
  forallb (fun v => (v =? 0)%Z || (v =? 1)%Z) yv = true -> Forall binary yv.
Proof.
  intros H. apply Forall_forall. intros v Hv.
  rewrite forallb_forall in H. specialize (H v Hv).
  apply orb_true_iff in H. unfold binary.
  destruct H as [H|H]; apply Z.eqb_eq in H; auto.
Qed.

(** Flipping a quarter of twelve labels keeps one binary label per row. *)
Lemma transformations_keep_labels_aligned_witness :
  aligned Toy.X12 (cells Toy.w12 0) /\
  exists w',
    add_label_contamination Toy.X12 0 (1 # 4) Toy.w12
    = inr ((Toy.X12, 0), w') /\
    aligned Toy.X12 (cells w' 0) /\
    cells w' 0 = (repeat 0 9 ++ [1; 0; 0])%Z.
Proof.
  assert (Hal : aligned Toy.X12 (cells Toy.w12 0)).
  { split; [reflexivity|]. apply Forall_binary_check. reflexivity. }
  split; [exact Hal|].
  destruct (add_label_contamination Toy.X12 0 (1 # 4) Toy.w12)
    as [e|[[X' y'] w']] eqn:Hrun.
  - vm_compute in Hrun. discriminate Hrun.
  - destruct (transformations_keep_labels_aligned (L:=Toy.L0) Toy.self)
      as (_ & _ & _ & Hcont & _).
    pose proof (Hcont _ _ _ _ _ _ _ Hal Hrun) as Hal'.
    vm_compute in Hrun. injection Hrun as <- <- <-.
    eexists. split; [reflexivity|]. split; [exact Hal'|reflexivity].
Defined.

(* ================================================================== *)
(** * Further properties of the methods *)

(** ** Noise ratios outside the unit interval *)

(** X1. Outside the unit interval the noise ratio adds nothing: for a
    double below 0 or above 1 (and fewer than [2^63] features, as numpy
    has them) the noise dimension that line 171 computes in binary64 is
    not positive, and [add_irrelevant_features] gives back its arguments
    and leaves the world as it was; a ratio of exactly 1 raises
    [ZeroDivisionError]. *)
Theorem irrelevant_features_outside_unit_interval {L : library} (X : matrix)
  (y : loc) (r : Q) (w : world L) :
  (is_double r -> (Z.of_nat (shape1 X) < 2 ^ 63)%Z ->
   (r < 0)%Q \/ (1 < r)%Q ->
   add_irrelevant_features X y r w = inr ((X, y), w)) /\
  ((r == 1)%Q -> add_irrelevant_features X y r w = inl ZeroDivisionError).
Proof.
  split.
  - intros Hd Hc Hr. unfold add_irrelevant_features.
    destruct (Qeq_bool r 0); [reflexivity|].
    assert (Hne : ~ (r == 1)%Q) by (intros E; rewrite E in Hr; lra).
    destruct (noise_dimension_finite r (shape1 X) Hd Hne Hc)
      as (Hdim & _ & Hneg).
    rewrite Hdim, bind_attempt_ok.
    pose proof (py_int_nonpos _ (Hneg Hr)) as Hn.
    destruct (Z.ltb_spec 0 (py_int (nearest (nearest (r / nearest (1 - r))
                                             * nearest (Qof_nat (shape1 X))))));
      [lia|reflexivity].
  - intros Hr. unfold add_irrelevant_features.
    assert (Qeq_bool r 0 = false) as ->.
    { destruct (Qeq_bool r 0) eqn:E; [|reflexivity].
      apply Qeq_bool_iff in E. rewrite E in Hr. discriminate Hr. }
    rewrite (noise_dimension_one r _ Hr). reflexivity.
Qed.

Lemma irrelevant_features_outside_unit_interval_witness :
  is_double (- (1 # 2)) /\
  add_irrelevant_features Toy.X12 0 (- (1 # 2)) Toy.w12
  = inr ((Toy.X12, 0), Toy.w12) /\
  add_irrelevant_features Toy.X12 0 1 Toy.w12 = inl ZeroDivisionError.
Proof.
  assert (Hd : is_double (- (1 # 2))) by (split; vm_compute; reflexivity).
  destruct (irrelevant_features_outside_unit_interval Toy.X12 0 (- (1 # 2))
              Toy.w12) as [Hout _].
  destruct (irrelevant_features_outside_unit_interval Toy.X12 0 1 Toy.w12)
    as [_ Hone].
  split; [exact Hd|].
  split; [apply Hout; [exact Hd|vm_compute; reflexivity|left; reflexivity]
         |apply Hone; reflexivity].
Defined.

(** ** What [generator] refuses *)

Section Refusals.

Context {L : library}.
Variable self : DataGenerator.

Lemma load_data_known (w : world L) r :
  load_data self w = inr r ->
  exists name, dataset self = Some name /\ In name supported_datasets.
Proof.
  unfold load_data. destruct (dataset self) as [name|]; [|discriminate].
  destruct (in_list name supported_datasets) eqn:E; [|discriminate].
  intros _. exists name. split; [reflexivity|].
  unfold in_list in E. apply existsb_exists in E.
  destruct E as (s & Hs & Heq). apply String.eqb_eq in Heq. subst. exact Hs.
Qed.

Lemma noise_before_split_names (X : matrix) (y : loc)
  (noise_type : option string) (noise_ratio : Q) (w : world L) r :
  noise_before_split X y noise_type noise_ratio w = inr r ->
  noise_type = None \/
  noise_type = Some "duplicated_anomalies"%string \/
  noise_type = Some "irrelevant_features"%string \/
  noise_type = Some "label_contamination"%string.
Proof.
  unfold noise_before_split. destruct noise_type as [s|]; auto.
  destruct (String.eqb_spec s "duplicated_anomalies") as [->|_]; auto.
  destruct (String.eqb_spec s "irrelevant_features") as [->|_]; auto.
  destruct (String.eqb_spec s "label_contamination") as [->|_]; auto.
  discriminate.
Qed.

(** X2. [generator] returns only for a dataset name of its lists, an
    [la] that is a float or an int, and a noise type that is unset or one
    of the three it names; in particular it never returns for the noise
    type ["anomaly_contamination"], so the call of
    [remove_anomaly_contamination] at line 380 is never reached. *)
Theorem generator_returns_only_when_supported (la : labeled_anomalies)
  (at_least_one_labeled : bool) (mode : option string) (alpha percentage : Q)
  (noise_type : option string) (duplicate_times contam_ratio noise_ratio : Q)
  (w : world L) r :
  generator self la at_least_one_labeled mode alpha percentage noise_type
            duplicate_times contam_ratio noise_ratio w = inr r ->
  (exists name, dataset self = Some name /\ In name supported_datasets) /\
  la <> LaOther /\
  (noise_type = None \/
   noise_type = Some "duplicated_anomalies"%string \/
   noise_type = Some "irrelevant_features"%string \/
   noise_type = Some "label_contamination"%string) /\
  noise_type <> Some "anomaly_contamination"%string.
Proof.
  unfold generator, prepare, before_split, before_noise. intros H.
  apply bind_inr in H. destruct H as (d1 & w1 & H & _).
  apply bind_inr in H. destruct H as ([X y] & w2 & H & _).
  apply bind_inr in H. destruct H as ([X1 y1] & w3 & H & Hnoise).
  apply bind_inr in H. destruct H as (u & w4 & _ & H).
  apply bind_inr in H. destruct H as ([X2 y2] & w5 & Hload & H).
  apply bind_inr in H. destruct H as (u' & w6 & Hla & _).
  apply noise_before_split_names in Hnoise.
  split; [eapply load_data_known; exact Hload|]. split.
  - intros ->. discriminate Hla.
  - split; [exact Hnoise|].
    destruct Hnoise as [-> | [-> | [-> | ->]]]; discriminate.
Qed.

End Refusals.

Lemma generator_returns_only_when_supported_witness :
  exists r,
    generator Toy.self (LaFloat (1 # 2)) false None 5 (1 # 10) None 2 1
              (1 # 4) Toy.w_init3 = inr r /\
    In "wine"%string supported_datasets.
Proof.
  destruct (generator Toy.self (LaFloat (1 # 2)) false None 5 (1 # 10) None
              2 1 (1 # 4) Toy.w_init3) as [e|r] eqn:Hrun.
  - vm_compute in Hrun. discriminate Hrun.
  - exists r. split; [reflexivity|].
    destruct (generator_returns_only_when_supported Toy.self _ _ _ _ _ _ _ _
                _ _ _ Hrun) as ((name & Hname & Hin) & _).
    injection Hname as <-. exact Hin.
Defined.

(** ** Label contamination flips an exact number of labels *)

Lemma take_nth {A : Type} (idx : list nat) (l r : list A) :
  take idx l = Some r ->
  forall k i, nth_error idx k = Some i -> nth_error r k = nth_error l i.
Proof.
  revert r. induction idx as [|j idx IH]; simpl; intros r H k i Hk.
  - destruct k; discriminate.
  - destruct (nth_error l j) as [a|] eqn:Ej; [|discriminate].
    destruct (take idx l) as [r'|]; [|discriminate].
    inversion H. subst r. destruct k as [|k]; simpl in *.
    + inversion Hk. subst. symmetry. exact Ej.
    + eapply IH; eauto.
Qed.

Lemma scatter_total (idx : list nat) : forall vals y,
  Forall (fun i => i < length y) idx -> length vals = length idx ->
  exists y', scatter idx vals y = Some y'.
Proof.
  induction idx as [|i idx IH]; intros vals y Hidx Hlen; simpl.
  - eauto.
  - destruct vals as [|v vals]; [discriminate|].
    inversion Hidx as [|? ? Hi Hrest]. subst.
    destruct (Nat.ltb_spec i (length y)); [|lia].
    apply IH; [rewrite set_nth_length; exact Hrest|].
    simpl in Hlen. lia.
Qed.

Lemma scatter_out (idx : list nat) : forall vals y y' j,
  scatter idx vals y = Some y' -> ~ In j idx ->
  nth_error y' j = nth_error y j.
Proof.
  induction idx as [|i idx IH]; intros vals y y' j H Hj; simpl in H.
  - inversion H. reflexivity.
  - destruct vals as [|v vals]; [discriminate|].
    destruct (i <? length y); [|discriminate].
    rewrite (IH _ _ _ j H).
    + apply set_nth_other. intros ->. apply Hj. left. reflexivity.
    + intros Hin. apply Hj. right. exact Hin.
Qed.

Lemma scatter_in (idx : list nat) : forall vals y y' k i v,
  NoDup idx -> scatter idx vals y = Some y' ->
  nth_error idx k = Some i -> nth_error vals k = Some v ->
  nth_error y' i = Some v.
Proof.
  induction idx as [|j idx IH]; intros vals y y' k i v Hnd H Hk Hv;
    simpl in H.
  - destruct k; discriminate.
  - destruct vals as [|v0 vals]; [destruct k; discriminate|].
    destruct (Nat.ltb_spec j (length y)) as [Hj|]; [|discriminate].
    inversion Hnd as [|? ? Hnotin Hnd']. subst.
    destruct k as [|k]; simpl in Hk, Hv.
    + inversion Hk. inversion Hv. subst.
      rewrite (scatter_out _ _ _ _ i H Hnotin). apply set_nth_same. exact Hj.
    + eapply IH; eauto.
Qed.

Section Contamination.

Context {L : library}.

(** X3. For a noise ratio [r] with [0 < r <= 1] and [n] labels (a count
    that is a double, as every length of an array is),
    [add_label_contamination] succeeds, returns the matrix and the label
    array it was given, and has flipped exactly [floor(p)] distinct
    positions of that array (each to one minus its value), where [p] is
    the binary64 product of [n] and [r]: the exact product rounded to the
    nearest double.  Every other position and every other array keep
    their contents. *)
Theorem label_contamination_flips_exactly (OK : library_ok L) (X : matrix)
  (y : loc) (r : Q) (w : world L) :
  (0 < r)%Q -> (r <= 1)%Q ->
  let yv := cells w y in
  (Z.of_nat (length yv) <= 2 ^ 53)%Z ->
  exists idx_flips w',
    add_label_contamination X y r w = inr ((X, y), w') /\
    NoDup idx_flips /\
    Z.of_nat (length idx_flips)
    = Qfloor (nearest (Qof_nat (length yv) * r)) /\
    length (cells w' y) = length yv /\
    (forall i, In i idx_flips ->
       exists v, nth_error yv i = Some v /\
                 nth_error (cells w' y) i = Some (1 - v)%Z) /\
    (forall i, ~ In i idx_flips ->
       nth_error (cells w' y) i = nth_error yv i) /\
    (forall l, l <> y -> cells w' l = cells w l).
Proof.
  intros H0 H1 yv Hcount. set (n := length yv) in *.
  destruct (flip_target_range n r (Qlt_le_weak _ _ H0) H1 Hcount)
    as [Htarget Hrange0].
  set (size := Qfloor (nearest (Qof_nat n * r))) in *.
  assert (Hrange : (0 <= size <= Z.of_nat (length (seq 0 n)))%Z)
    by (rewrite length_seq; exact Hrange0).
  destruct (np_random_choice_distinct (seq 0 n) size w OK Hrange)
    as (idx & w1 & Hrun & Hlen & Hincl & Hnd & (Hc & Hn & _)).
  specialize (Hnd (seq_NoDup n 0)).
  assert (Hlt : Forall (fun i => i < length yv) idx).
  { apply Forall_forall. intros i Hi. apply Hincl in Hi. apply in_seq in Hi.
    fold n. lia. }
  destruct (take_total idx yv Hlt) as [flipped Hf].
  destruct (scatter_total idx (map (fun v => (1 - v)%Z) flipped) yv Hlt)
    as [yv' Hs].
  { rewrite length_map. apply (take_length _ _ _ Hf). }
  exists idx, (World (rng w1) (fun l' => if l' =? y then yv' else cells w1 l')
                     (next_loc w1) (trace w1)).
  split.
  { unfold add_label_contamination. rewrite (Qeq_bool_false_lt r H0).
    unfold bind at 1, load. fold yv. fold n.
    rewrite Htarget, bind_attempt_ok.
    rewrite (bind_ok _ _ _ _ _ Hrun).
    rewrite (bind_lift_some _ _ _ _ _ Hf), (bind_lift_some _ _ _ _ _ Hs).
    reflexivity. }
  cbn [cells]. rewrite Nat.eqb_refl.
  split; [exact Hnd|]. split; [rewrite Hlen, Z2Nat.id by lia; reflexivity|].
  split; [apply (scatter_length _ _ _ _ Hs)|]. split; [|split].
  - intros i Hi. apply In_nth_error in Hi. destruct Hi as [k Hk].
    pose proof (take_nth _ _ _ Hf k i Hk) as Hfk.
    assert (Hi : i < length yv).
    { rewrite Forall_forall in Hlt. apply Hlt. eapply nth_error_In. exact Hk. }
    destruct (nth_error yv i) as [v|] eqn:Ev;
      [|apply nth_error_Some in Hi; contradiction].
    exists v. split; [reflexivity|].
    eapply scatter_in; [exact Hnd|exact Hs|exact Hk|].
    rewrite nth_error_map, Hfk. reflexivity.
  - intros i Hi. apply (scatter_out _ _ _ _ i Hs Hi).
  - intros l Hl. apply Nat.eqb_neq in Hl. rewrite Hl, Hc. reflexivity.
Qed.

(** X4. When [int(len(y) * noise_ratio)] is negative or exceeds the
    number of labels (a negative ratio, or a ratio above 1 on enough
    labels), [add_label_contamination] raises [ValueError] in the draw of
    the positions, before any label is written; when the product is too
    large for a double, [int] raises before the draw.  With up to [2^53]
    labels and a ratio of at most [2^960] in size the product is finite
    and the size is [int] of its binary64 value. *)
Theorem label_contamination_rejects_size (X : matrix) (y : loc) (r : Q)
  (w : world L) :
  let n := length (cells w y) in
  (forall size, flip_target n r = inr size ->
     (size < 0)%Z \/ (Z.of_nat n < size)%Z ->
     add_label_contamination X y r w = inl ValueError) /\
  (forall e, ~ (r == 0)%Q -> flip_target n r = inl e ->
     add_label_contamination X y r w = inl e) /\
  ((Z.of_nat n <= 2 ^ 53)%Z -> (Qabs r <= pow2 960)%Q ->
   let size := py_int (nearest (Qof_nat n * r)) in
   (size < 0)%Z \/ (Z.of_nat n < size)%Z ->
   add_label_contamination X y r w = inl ValueError).
Proof.
  intros n.
  assert (Hreject : forall size, flip_target n r = inr size ->
            (size < 0)%Z \/ (Z.of_nat n < size)%Z ->
            add_label_contamination X y r w = inl ValueError).
  { intros size Htarget Hsize. unfold add_label_contamination.
    assert (Qeq_bool r 0 = false) as ->.
    { destruct (Qeq_bool r 0) eqn:E; [|reflexivity]. exfalso.
      apply Qeq_bool_iff in E.
      pose proof (flip_target_zero n r size E Htarget). lia. }
    unfold bind at 1, load. fold n. rewrite Htarget, bind_attempt_ok.
    apply bind_fail.
    unfold np_random_choice. unfold bind, tick. rewrite length_seq.
    destruct ((n =? 0) && negb (size =? 0)%Z); [reflexivity|]. simpl.
    destruct (Z.ltb_spec (Z.of_nat n) size); [reflexivity|].
    destruct (Z.ltb_spec size 0); [reflexivity|lia]. }
  split; [exact Hreject|]. split.
  - intros e Hr Htarget. unfold add_label_contamination.
    assert (Qeq_bool r 0 = false) as ->.
    { destruct (Qeq_bool r 0) eqn:E; [|reflexivity].
      apply Qeq_bool_iff in E. contradiction. }
    unfold bind at 1, load. fold n. rewrite Htarget. reflexivity.
  - intros Hn Hr size Hsize.
    apply (Hreject size); [|exact Hsize].
    apply flip_target_finite; assumption.
Qed.

End Contamination.

(** Ten labels and a ratio of 0.7: seven labels are flipped, the product
    of the double and ten being rounded to 7.0 (the exact product is
    below 7). *)
Lemma label_contamination_flips_exactly_witness :
  (0 < double (7 # 10))%Q /\ (double (7 # 10) <= 1)%Q /\
  Qfloor (Qof_nat 10 * double (7 # 10)) = 6%Z /\
  exists (idx_flips : list nat) w',
    add_label_contamination Toy.X12 0 (double (7 # 10))
                            (Toy.world_of Toy.L0 0 [repeat 0%Z 10])
    = inr ((Toy.X12, 0), w') /\
    length idx_flips = 7.
Proof.
  assert (H0 : (0 < double (7 # 10))%Q) by (vm_compute; reflexivity).
  assert (H1 : (double (7 # 10) <= 1)%Q) by (vm_compute; discriminate).
  split; [exact H0|]. split; [exact H1|]. split; [vm_compute; reflexivity|].
  destruct (label_contamination_flips_exactly (L:=Toy.L0)
              (toy_lib_ok true Toy.flat (Toy.X12, Toy.y12))
              Toy.X12 0 (double (7 # 10))
              (Toy.world_of Toy.L0 0 [repeat 0%Z 10]) H0 H1)
    as (idx & w' & Hrun & _ & Hlen & _); [vm_compute; discriminate|].
  exists idx, w'. split; [exact Hrun|].
  assert (E : Qfloor (nearest (Qof_nat 10 * double (7 # 10))) = 7%Z)
    by (vm_compute; reflexivity).
  change (Z.of_nat (length idx)
          = Qfloor (nearest (Qof_nat 10 * double (7 # 10)))) in Hlen.
  rewrite E in Hlen. lia.
Defined.

(** Twelve labels and a ratio of 2: twenty-four positions are asked of
    twelve. *)
Lemma label_contamination_rejects_size_witness :
  flip_target 12 2 = inr 24%Z /\ (Qabs 2 <= pow2 960)%Q /\
  py_int (nearest (Qof_nat 12 * 2)) = 24%Z /\
  add_label_contamination Toy.X12 0 2 Toy.w12 = inl ValueError.
Proof.
  assert (H : flip_target 12 2 = inr 24%Z) by (vm_compute; reflexivity).
  assert (Hr : (Qabs 2 <= pow2 960)%Q) by (vm_compute; discriminate).
  split; [exact H|]. split; [exact Hr|]. split; [vm_compute; reflexivity|].
  destruct (label_contamination_rejects_size (L:=Toy.L0) Toy.X12 0 2 Toy.w12)
    as (_ & _ & Hreject).
  apply Hreject; [vm_compute; discriminate|exact Hr|].
  right. vm_compute. reflexivity.
Defined.

(** ** Duplicated anomalies *)





Section Duplicates.

Context {L : library}.



End Duplicates.


(** ** Size normalisation *)

Section Resize.

Context {L : library}.
Variable self : DataGenerator.

Lemma np_random_choice_length (OK : library_ok L) (a : list nat) (size : Z)
  (replace : bool) (w : world L) r w' :
  np_random_choice a size replace w = inr (r, w') ->
  (0 <= size)%Z /\ length r = Z.to_nat size.
Proof.
  intros H. destruct replace.
  - split; [|eapply np_random_choice_replace_length; exact H].
    unfold np_random_choice in H.
    apply bind_inr in H. destruct H as (u & w1 & _ & H).
    destruct ((length a =? 0) && negb (size =? 0)%Z); [discriminate|].
    destruct (Z.ltb_spec size 0); [discriminate|assumption].
  - assert (Hrange : (0 <= size <= Z.of_nat (length a))%Z).
    { unfold np_random_choice in H.
      apply bind_inr in H. destruct H as (u & w1 & _ & H).
      destruct ((length a =? 0) && negb (size =? 0)%Z); [discriminate|].
      destruct (Z.ltb_spec (Z.of_nat (length a)) size); [discriminate|].
      destruct (Z.ltb_spec size 0); [discriminate|]. lia. }
    destruct (np_random_choice_distinct a size w OK Hrange)
      as (r' & w1 & Hrun & Hlen & _).
    rewrite Hrun in H. inversion H. subst. split; [lia|exact Hlen].
Qed.

Lemma resample_inv (OK : library_ok L) (X : matrix) (y : loc) (size : Z)
  (replace : bool) (w : world L) X' y' w' :
  resample self X y size replace w = inr ((X', y'), w') ->
  (0 <= size)%Z /\ length (cells w' y') = Z.to_nat size /\
  shape0 X' = Z.to_nat size.
Proof.
  unfold resample. intros H.
  apply bind_inr in H. destruct H as (yv & wa & Hy & H).
  unfold load in Hy. inversion Hy. subst yv wa. clear Hy.
  apply bind_inr in H. destruct H as (u & wa & _ & H).
  apply bind_inr in H. destruct H as (idx & w1 & Hch & H).
  apply (np_random_choice_length OK) in Hch. destruct Hch as [Hsize Hlen].
  apply bind_inr in H. destruct H as (X1 & wb & Hx & H).
  apply lift_inr in Hx. destruct Hx as [Hx ->].
  apply bind_inr in H. destruct H as (yv1 & wb & Hyv & H).
  apply lift_inr in Hyv. destruct Hyv as [Hyv ->].
  apply bind_inr in H. destruct H as (l & wb & Hal & H).
  unfold alloc in Hal. inversion Hal. subst l wb. clear Hal.
  unfold ret in H. inversion H. subst X' y' w'. clear H.
  cbn [cells]. rewrite Nat.eqb_refl. unfold take_rows in Hx.
  destruct (take idx (rows X)) as [rs|] eqn:Hrs; [|discriminate].
  inversion Hx. unfold shape0. simpl.
  rewrite (take_length _ _ _ Hyv), (take_length _ _ _ Hrs). auto.
Qed.

(** X6. After the size normalisation of lines 289-302 the dataset never
    has more than 10000 rows: a dataset below [n_samples_threshold] (with
    [generate_duplicates] set) comes out with the threshold as its row
    count, cut to 10000 if the threshold is larger; any other dataset
    keeps its rows up to 10000 and is cut to 10000 beyond, and is handed
    back untouched, with no draw, when it has at most 10000 rows. *)
Theorem normalised_size (OK : library_ok L) (X : matrix) (y : loc)
  (w : world L) X' y' w' :
  normalise_size self X y w = inr ((X', y'), w') ->
  let n := Z.of_nat (length (cells w y)) in
  let n' := Z.of_nat (length (cells w' y')) in
  let small := (n <? n_samples_threshold self)%Z && generate_duplicates self in
  (n' <= 10000)%Z /\
  n' = Z.min (if small then n_samples_threshold self else n) 10000 /\
  (small = true \/ (10000 < n)%Z -> Z.of_nat (shape0 X') = n') /\
  (small = false -> (n <= 10000)%Z -> X' = X /\ y' = y /\ w' = w).
Proof.
  intros H n n' small. unfold normalise_size in H.
  apply bind_inr in H. destruct H as (yv & wa & Hy & H).
  unfold load in Hy. inversion Hy. subst yv wa. clear Hy.
  fold n in H. fold small in H.
  apply bind_inr in H. destruct H as ([X1 y1] & w1 & Hfirst & H).
  apply bind_inr in H. destruct H as (yv1 & wa & Hy & H).
  unfold load in Hy. inversion Hy. subst yv1 wa. clear Hy.
  assert (Hstage1 :
    Z.of_nat (length (cells w1 y1))
    = (if small then n_samples_threshold self else n) /\
    (small = true -> shape0 X1 = length (cells w1 y1)) /\
    (small = false -> X1 = X /\ y1 = y /\ w1 = w)).
  { destruct small eqn:Es.
    - apply (resample_inv OK) in Hfirst.
      destruct Hfirst as (Hs & Hl & Hr). split; [lia|].
      split; [congruence|discriminate].
    - unfold ret in Hfirst. inversion Hfirst. subst.
      split; [reflexivity|]. split; [discriminate|auto]. }
  destruct Hstage1 as (Hlen1 & Hrows1 & Hsame1).
  destruct (Z.ltb_spec 10000 (Z.of_nat (length (cells w1 y1)))) as [Hbig|Hok].
  - apply (resample_inv OK) in H. destruct H as (_ & Hl & Hr).
    assert (Hn' : n' = 10000%Z) by (unfold n'; rewrite Hl; reflexivity).
    split; [lia|]. split; [lia|]. split.
    + intros _. unfold n'. rewrite Hl, Hr. reflexivity.
    + intros Es Hn. destruct (Hsame1 Es) as (_ & -> & ->).
      fold n in Hbig. lia.
  - unfold ret in H. inversion H. subst X' y' w'. clear H.
    split; [exact Hok|]. split; [unfold n'; lia|]. split.
    + intros [Es|Hn].
      * unfold n'. rewrite (Hrows1 Es). reflexivity.
      * destruct small eqn:Es.
        -- unfold n'. rewrite (Hrows1 eq_refl). reflexivity.
        -- rewrite Hlen1 in Hok. lia.
    + intros Es _. apply Hsame1. exact Es.
Qed.

End Resize.

(** Twelve rows and a threshold of 20: the dataset comes out with twenty
    rows. *)
Lemma normalised_size_witness :
  exists X' y' w',
    normalise_size (Self 42 (Some "wine"%string) (3 # 10) true 20)
                   Toy.X12 0 Toy.w12 = inr ((X', y'), w') /\
    length (cells w' y') = 20 /\ shape0 X' = 20.
Proof.
  destruct (normalise_size (Self 42 (Some "wine"%string) (3 # 10) true 20)
              Toy.X12 0 Toy.w12) as [e|[[X' y'] w']] eqn:Hrun.
  - vm_compute in Hrun. discriminate Hrun.
  - exists X', y', w'. split; [reflexivity|].
    destruct (normalised_size (L:=Toy.L0) _
                (toy_lib_ok true Toy.flat (Toy.X12, Toy.y12))
                Toy.X12 0 Toy.w12 X' y' w' Hrun)
      as (_ & Hlen & Hrows & _).
    change (Z.of_nat (length (cells w' y')) = 20%Z) in Hlen.
    split; [lia|]. specialize (Hrows (or_introl eq_refl)). lia.
Defined.

(** ** The feature cap of the dependency mode *)

Section DependencyCap.

Context {L : library}.
Variable self : DataGenerator.

Lemma mask_rows_shape1 (mask : list bool) (X Xm : matrix) :
  mask_rows mask X = Some Xm -> shape1 Xm = shape1 X.
Proof.
  unfold mask_rows. destruct (mask_select mask (rows X)); [|discriminate].
  intros H. inversion H. reflexivity.
Qed.

Lemma concatenate0_shape1 (A B X : matrix) :
  concatenate0 A B = Some X -> shape1 X = shape1 A /\ shape1 X = shape1 B.
Proof.
  unfold concatenate0. destruct (Nat.eqb_spec (shape1 A) (shape1 B)) as [E|];
    [|discriminate].
  intros H. inversion H. simpl. auto.
Qed.

(** The calls of the dependency branch of lines 87-97: the draw of fifty
    columns when there are more, the fit of the copula on the columns
    kept and the draw of its sample. *)
Lemma synthetic_normal_dependency_calls (OK : library_ok L) (X : matrix)
  (n : nat) (w : world L) gm X1 Xsn w1 :
  synthetic_normal self "dependency" X n w = inr ((gm, X1, Xsn), w1) ->
  exists w0 copula g2 g3 Xn,
    (shape1 X <= 50 -> X1 = X /\ w0 = w) /\
    (50 < shape1 X -> exists idx,
       np_random_choice (seq 0 (shape1 X)) 50 false w = inr (idx, w0) /\
       length idx = 50 /\ NoDup idx /\ take_cols idx X = Some X1) /\
    shape1 X1 = Nat.min (shape1 X) 50 /\
    vine_fit L X1 (rng w0) = Some (copula, g2) /\
    vine_sample L copula n g2 = Some (Xn, g3) /\
    Xsn = Some Xn.
Proof.
  unfold synthetic_normal. simpl. intros H.
  apply bind_inr in H. destruct H as (X2 & w0 & Hsub & H).
  apply bind_inr in H. destruct H as (u1 & wa & Ht1 & H).
  unfold tick in Ht1. inversion Ht1. subst u1 wa. clear Ht1.
  apply bind_inr in H. destruct H as (copula & wb & Hfit & H).
  apply call_inr in Hfit. destruct Hfit as (g2 & Hfit & ->).
  apply bind_inr in H. destruct H as (u2 & wa & Ht2 & H).
  unfold tick in Ht2. inversion Ht2. subst u2 wa. clear Ht2.
  apply bind_inr in H. destruct H as (Xn & wb & Hsam & H).
  apply call_inr in Hsam. destruct Hsam as (g3 & Hsam & ->).
  unfold ret in H. inversion H. subst gm X1 Xsn w1. clear H.
  cbn [rng] in Hfit, Hsam.
  exists w0, copula, g2, g3, Xn.
  destruct (Nat.ltb_spec 50 (shape1 X)) as [Hbig|Hsmall].
  - apply bind_inr in Hsub. destruct Hsub as (idx & wa & Hch & Hsub).
    apply lift_inr in Hsub. destruct Hsub as [Htake ->].
    assert (Hrange : (0 <= 50 <= Z.of_nat (length (seq 0 (shape1 X))))%Z)
      by (rewrite length_seq; lia).
    destruct (np_random_choice_distinct _ 50 w OK Hrange)
      as (r & wb & Hrun & Hlen & _ & Hnd & _).
    rewrite Hrun in Hch. inversion Hch. subst r wb. clear Hch.
    destruct (take_cols_shape _ _ _ Htake) as [_ Hs].
    split; [lia|]. split.
    + intros _. exists idx. split; [exact Hrun|].
      split; [exact Hlen|]. split; [apply Hnd, seq_NoDup|exact Htake].
    + split; [rewrite Hs, Hlen; change (Z.to_nat 50) with 50; lia|].
      auto.
  - unfold ret in Hsub. inversion Hsub. subst X2 w0.
    split; [auto|]. split; [lia|]. split; [lia|]. auto.
Qed.

(** Lines 117-120: each column comes from a density estimate fitted on
    the feature of the same position. *)
Lemma kde_columns_estimates (X : matrix) (a : nat) (features : list nat) :
  forall (w : world L) cols w1,
  kde_columns X a features w = inr (cols, w1) ->
  Forall2 (fun j c => exists k g g' s,
             kde_fit L (column X j) = Some k /\
             kde_sample L k a g = Some (s, g') /\
             fill_column a s = Some c) features cols.
Proof.
  induction features as [|i features IH]; intros w cols w1 H; simpl in H.
  - unfold ret in H. inversion H. constructor.
  - apply bind_inr in H. destruct H as (u1 & wa & Ht1 & H).
    unfold tick in Ht1. inversion Ht1. subst u1 wa. clear Ht1.
    apply bind_inr in H. destruct H as (k & wa & Hk & H).
    apply lift_inr in Hk. destruct Hk as [Hk ->].
    apply bind_inr in H. destruct H as (u2 & wa & Ht2 & H).
    unfold tick in Ht2. inversion Ht2. subst u2 wa. clear Ht2.
    apply bind_inr in H. destruct H as (s0 & wb & Hs & H).
    apply call_inr in Hs. destruct Hs as (g' & Hs & ->).
    apply bind_inr in H. destruct H as (c & wa & Hfill & H).
    apply lift_inr in Hfill. destruct Hfill as [Hfill ->].
    apply bind_inr in H. destruct H as (cols' & w7 & Hrest & H).
    unfold ret in H. inversion H. subst cols w1. clear H.
    constructor; [|eapply IH; exact Hrest].
    exists k. eexists. exists g', s0. split; [exact Hk|].
    split; [exact Hs|exact Hfill].
Qed.

(** X7. In the dependency mode the synthetic data has the features of the
    input when there are at most fifty, and exactly fifty otherwise:
    fifty distinct columns of the normal rows are then drawn without
    replacement; the copula is fitted on the columns kept and its sample
    is the normal block; and the anomaly block has one column per column
    kept, each a sample of a density estimate fitted on that column. *)
Theorem dependency_feature_cap (OK : library_ok L) (X : matrix) (y : loc)
  (alpha percentage : Q) (w : world L) X' y' w' :
  generate_realistic_synthetic self X y "dependency" alpha percentage w
  = inr ((X', y'), w') ->
  let n := length (np_where (cells w y) 0) in
  let a := length (np_where (cells w y) 1) in
  shape1 X' = Nat.min (shape1 X) 50 /\
  exists Xm X1 w0 copula g2 g3 cols,
    mask_rows (map (Z.eqb 0) (cells w y)) X = Some Xm /\
    (shape1 X <= 50 -> X1 = Xm /\ w0 = w) /\
    (50 < shape1 X -> exists idx,
       np_random_choice (seq 0 (shape1 X)) 50 false w = inr (idx, w0) /\
       length idx = 50 /\ NoDup idx /\ take_cols idx Xm = Some X1) /\
    shape1 X1 = Nat.min (shape1 X) 50 /\
    vine_fit L X1 (rng w0) = Some (copula, g2) /\
    vine_sample L copula n g2 = Some (normal_block X' n, g3) /\
    Forall2 (fun j c => exists k g g' s,
               kde_fit L (column X1 j) = Some k /\
               kde_sample L k a g = Some (s, g') /\
               fill_column a s = Some c)
            (seq 0 (Nat.min (shape1 X) 50)) cols /\
    anomaly_block X' n = of_columns a cols.
Proof.
  intros H n a.
  destruct (generate_realistic_synthetic_inv self _ _ _ _ _ _ _ _ _ H)
    as (Xm & gm & X1 & Xn & Xa & w1 & w2 & _ & Hm & Hnorm & Hanom
        & Hcat & _).
  fold n in Hnorm. fold a in Hanom.
  pose proof (mask_rows_shape1 _ _ _ Hm) as Hsm.
  destruct (synthetic_normal_dependency_calls OK _ _ _ _ _ _ _ Hnorm)
    as (w0 & copula & g2 & g3 & Xn0 & Hsame & Hcut & Hcap & Hfit & Hsam & E).
  inversion E. subst Xn0. clear E.
  rewrite Hsm in Hsame, Hcut, Hcap.
  pose proof (vine_sample_rows L OK _ _ _ _ _ Hsam) as Hrows.
  unfold synthetic_anomalies in Hanom. simpl in Hanom.
  apply bind_inr in Hanom. destruct Hanom as (cols & w3 & Hcols & Hret).
  unfold ret in Hret. inversion Hret. subst Xa w3. clear Hret.
  pose proof (kde_columns_estimates _ _ _ _ _ _ Hcols) as Hest.
  apply kde_columns_inv in Hcols. destruct Hcols as (Hlen & _).
  rewrite length_seq in Hlen.
  destruct (concatenate0_shape1 _ _ _ Hcat) as [_ Hs]. simpl in Hs.
  destruct (blocks_of_concatenate0 _ _ _ Hcat) as (Hbn & Hblock & _).
  rewrite Hrows in Hbn, Hblock. rewrite Hcap in Hest.
  split; [congruence|]. exists Xm, X1, w0, copula, g2, g3, cols.
  split; [exact Hm|]. split; [exact Hsame|]. split; [exact Hcut|].
  split; [exact Hcap|]. split; [exact Hfit|].
  split; [rewrite Hbn; exact Hsam|]. split; [exact Hest|exact Hblock].
Qed.

End DependencyCap.

(** Twelve rows with sixty features come back with fifty. *)
Lemma dependency_feature_cap_witness :
  exists X' y' w',
    generate_realistic_synthetic Toy.self (Toy.grid 12 60) 0 "dependency" 5
                                 (1 # 10) Toy.w12 = inr ((X', y'), w') /\
    shape1 X' = 50.
Proof.
  destruct (generate_realistic_synthetic Toy.self (Toy.grid 12 60) 0
              "dependency" 5 (1 # 10) Toy.w12)
    as [e|[[X' y'] w']] eqn:Hrun.
  - vm_compute in Hrun. discriminate Hrun.
  - exists X', y', w'. split; [reflexivity|].
    destruct (dependency_feature_cap (L:=Toy.L0) Toy.self
                (toy_lib_ok true Toy.flat (Toy.X12, Toy.y12))
                _ _ _ _ _ _ _ _ Hrun) as [Hcap _].
    exact Hcap.
Defined.

(** ** Which label arrays are written *)

Section Store.

Context {L : library}.

Lemma random_shuffle_frame (idx : list nat) (w : world L) r w' :
  random_shuffle idx w = inr (r, w') ->
  cells w' = cells w /\ next_loc w' = next_loc w.
Proof.
  unfold random_shuffle. intros H.
  apply bind_inr in H. destruct H as (u & wa & Ht & H).
  unfold tick in Ht. inversion Ht. subst u wa. clear Ht.
  apply bind_inr in H. destruct H as (p & wb & Hd & H).
  apply draw_inr in Hd. destruct Hd as [_ ->].
  apply lift_inr in H. destruct H as [_ ->]. simpl. auto.
Qed.

(** Either nothing happens, or the result is a new array with one label
    per row. *)
Lemma add_duplicated_anomalies_frame (X : matrix) (y : loc) (dt : Q)
  (w : world L) X' y' w' :
  add_duplicated_anomalies X y dt w = inr ((X', y'), w') ->
  (Qle_bool dt 1 = true /\ X' = X /\ y' = y /\ w' = w) \/
  (Qle_bool dt 1 = false /\ y' = next_loc w /\
   next_loc w' = S (next_loc w) /\
   (forall l, l <> next_loc w -> cells w' l = cells w l) /\
   length (cells w' y') = shape0 X').
Proof.
  unfold add_duplicated_anomalies. intros H.
  destruct (Qle_bool dt 1).
  { left. inversion H. auto. }
  right. split; [reflexivity|].
  apply bind_inr in H. destruct H as (yv & wa & Hy & H).
  unfold load in Hy. inversion Hy. subst yv wa. clear Hy.
  apply bind_inr in H. destruct H as (idx_a & w1 & Hch & H).
  apply np_random_choice_inv in Hch. destruct Hch as (_ & Hc1 & Hn1 & _).
  apply bind_inr in H. destruct H as (idx & w2 & Hsh & H).
  apply random_shuffle_frame in Hsh. destruct Hsh as [Hc2 Hn2].
  apply bind_inr in H. destruct H as (X1 & wb & Hx & H).
  apply lift_inr in Hx. destruct Hx as [Hx ->].
  apply bind_inr in H. destruct H as (yv1 & wb & Hyv & H).
  apply lift_inr in Hyv. destruct Hyv as [Hyv ->].
  apply bind_inr in H. destruct H as (l & wb & Hal & H).
  unfold alloc in Hal. inversion Hal. subst l wb. clear Hal.
  unfold ret in H. inversion H. subst X' y' w'. clear H. cbn [cells next_loc].
  rewrite Nat.eqb_refl. rewrite Hn2, Hn1.
  split; [reflexivity|]. split; [reflexivity|]. split.
  - intros l Hl. apply Nat.eqb_neq in Hl. rewrite Hl, Hc2, Hc1. reflexivity.
  - unfold take_rows in Hx.
    destruct (take idx (rows X)) as [rs|] eqn:Hrs; [|discriminate].
    inversion Hx. unfold shape0. simpl.
    rewrite (take_length _ _ _ Hyv), (take_length _ _ _ Hrs). reflexivity.
Qed.

Lemma generate_realistic_synthetic_frame (self : DataGenerator) (X : matrix)
  (y : loc) (mode : string) (alpha percentage : Q) (w : world L) X' y' w' :
  generate_realistic_synthetic self X y mode alpha percentage w
  = inr ((X', y'), w') ->
  y' = next_loc w /\ next_loc w' = S (next_loc w) /\
  forall l, l <> next_loc w -> cells w' l = cells w l.
Proof.
  intros H. unfold generate_realistic_synthetic in H.
  destruct (in_list mode _) eqn:Hmode; [|discriminate].
  apply bind_inr in H. destruct H as (yv & wa & Hy & H).
  unfold load in Hy. inversion Hy. subst yv wa. clear Hy.
  apply bind_inr in H. destruct H as (Xm & wb & Hm & H).
  apply lift_inr in Hm. destruct Hm as [Hm ->].
  apply bind_inr in H. destruct H as ([[gm X1] Xsn] & w1 & Hnorm & H).
  apply bind_inr in H. destruct H as (Xsa & w2 & Hanom & H).
  apply bind_inr in H. destruct H as (Xn & wc & Hn & H).
  apply lift_inr in Hn. destruct Hn as [-> ->].
  apply bind_inr in H. destruct H as (Xa & wd & Ha & H).
  apply lift_inr in Ha. destruct Ha as [-> ->].
  apply bind_inr in H. destruct H as (Xc & we & Hc & H).
  apply lift_inr in Hc. destruct Hc as [Hc ->].
  apply bind_inr in H. destruct H as (l & wf & Hl & H).
  unfold alloc in Hl. inversion Hl. subst l wf. clear Hl.
  unfold ret in H. inversion H. subst X' y' w'. clear H.
  destruct (synthetic_normal_draw self _ _ _ _ _ _ _ _ Hmode Hnorm)
    as (Xn0 & t1 & _ & _ & (Hc1 & Hn1 & _) & _).
  destruct (synthetic_anomalies_draw _ _ _ _ _ _ _ _ _ _ Hmode Hanom)
    as (Xa0 & t2 & _ & _ & (Hc2 & Hn2 & _) & _).
  cbn [cells next_loc]. rewrite Hn2, Hn1.
  split; [reflexivity|]. split; [reflexivity|].
  intros l Hl. apply Nat.eqb_neq in Hl. rewrite Hl, Hc2, Hc1. reflexivity.
Qed.

(** X8. Outlier synthesis, duplicated anomalies and irrelevant features
    never write into a label array that exists: synthesis and an actual
    duplication hand back a new array, and every array of the store keeps
    its content; irrelevant features hand back the array they were given,
    unchanged.  (Label contamination and the label partition, by
    contrast, write into the array they are given.) *)
Theorem label_arrays_not_overwritten (self : DataGenerator) :
  (forall X y mode alpha percentage (w : world L) X' y' w',
     generate_realistic_synthetic self X y mode alpha percentage w
     = inr ((X', y'), w') ->
     y' = next_loc w /\ next_loc w' = S (next_loc w) /\
     forall l, l <> next_loc w -> cells w' l = cells w l) /\
  (forall X y duplicate_times (w : world L) X' y' w',
     add_duplicated_anomalies X y duplicate_times w = inr ((X', y'), w') ->
     (if Qle_bool duplicate_times 1 then y' = y /\ next_loc w' = next_loc w
      else y' = next_loc w /\ next_loc w' = S (next_loc w)) /\
     forall l, l <> next_loc w -> cells w' l = cells w l) /\
  (forall X y noise_ratio (w : world L) X' y' w',
     add_irrelevant_features X y noise_ratio w = inr ((X', y'), w') ->
     y' = y /\ next_loc w' = next_loc w /\ cells w' = cells w).
Proof.
  split; [|split].
  - intros X y mode alpha percentage w X' y' w' H.
    eapply generate_realistic_synthetic_frame. exact H.
  - intros X y dt w X' y' w' H.
    apply add_duplicated_anomalies_frame in H.
    destruct H as [(-> & _ & -> & ->) | (-> & -> & Hn & Hc & _)]; auto.
  - intros X y r w X' y' w' H.
    apply add_irrelevant_features_frame in H. tauto.
Qed.

End Store.

(** Synthesis on the twelve labelled rows stores its labels in a new
    array and leaves the twelve labels it read as they were. *)
Lemma label_arrays_not_overwritten_witness :
  exists X' y' w',
    generate_realistic_synthetic Toy.self Toy.X12 0 "cluster" 5 (1 # 10)
                                 Toy.w12 = inr ((X', y'), w') /\
    y' = 1 /\ cells w' 0 = Toy.y12.
Proof.
  destruct (generate_realistic_synthetic Toy.self Toy.X12 0 "cluster" 5
              (1 # 10) Toy.w12) as [e|[[X' y'] w']] eqn:Hrun.
  - vm_compute in Hrun. discriminate Hrun.
  - exists X', y', w'. split; [reflexivity|].
    destruct (label_arrays_not_overwritten (L:=Toy.L0) Toy.self)
      as (Hsyn & _ & _).
    destruct (Hsyn _ _ _ _ _ _ _ _ _ Hrun) as (Hy & _ & Hc).
    split; [exact Hy|]. apply (Hc 0). discriminate.
Defined.

(** ** The arrays returned by [generator] *)

Section Returned.

Context {L : library}.
Variable self : DataGenerator.

(** The two label arrays of the split are the next two cells of the
    store, with one label per selected row. *)
Lemma split_rows (X : matrix) (y : loc) (w : world L) d w' :
  split self X y w = inr (d, w') ->
  y_train d = next_loc w /\ y_test d = S (next_loc w) /\
  next_loc w' = S (S (next_loc w)) /\
  length (cells w' (y_train d)) = shape0 (X_train d) /\
  length (cells w' (y_test d)) = shape0 (X_test d).
Proof.
  unfold split. intros H.
  apply bind_inr in H. destruct H as (yv & wa & Hy & H).
  unfold load in Hy. inversion Hy. subst yv wa. clear Hy.
  apply bind_inr in H. destruct H as (u & wa & Ht & H).
  unfold tick in Ht. inversion Ht. subst u wa. clear Ht.
  apply bind_inr in H. destruct H as ([train test] & wa & Hs & H).
  apply call_inr in Hs. destruct Hs as (g & Hs & ->). simpl in Hs.
  apply bind_inr in H. destruct H as (Xtr & wb & H1 & H).
  apply lift_inr in H1. destruct H1 as [H1 ->].
  apply bind_inr in H. destruct H as (Xte & wb & H2 & H).
  apply lift_inr in H2. destruct H2 as [H2 ->].
  apply bind_inr in H. destruct H as (ytr & wb & H3 & H).
  apply lift_inr in H3. destruct H3 as [H3 ->].
  apply bind_inr in H. destruct H as (yte & wb & H4 & H).
  apply lift_inr in H4. destruct H4 as [H4 ->].
  apply bind_inr in H. destruct H as (l1 & wb & Ha1 & H).
  unfold alloc in Ha1. inversion Ha1. subst l1 wb. clear Ha1.
  apply bind_inr in H. destruct H as (l2 & wb & Ha2 & H).
  unfold alloc in Ha2. inversion Ha2. subst l2 wb. clear Ha2.
  unfold ret in H. inversion H. subst d w'. clear H. simpl.
  destruct (Nat.eqb_spec (next_loc w) (S (next_loc w))) as [E|_]; [lia|].
  rewrite !Nat.eqb_refl.
  unfold take_rows in H1, H2.
  destruct (take train (rows X)) as [r1|] eqn:Hr1; [|discriminate].
  destruct (take test (rows X)) as [r2|] eqn:Hr2; [|discriminate].
  inversion H1. inversion H2. unfold shape0. simpl.
  rewrite (take_length _ _ _ H3), (take_length _ _ _ H4),
    (take_length _ _ _ Hr1), (take_length _ _ _ Hr2). auto.
Qed.

Lemma noise_after_split_rows (d : dataset_split) (noise_type : option string)
  (duplicate_times noise_ratio : Q) (w : world L) d' w' :
  noise_after_split d noise_type duplicate_times noise_ratio w
  = inr (d', w') ->
  y_train d < y_test d -> y_test d < next_loc w ->
  length (cells w (y_train d)) = shape0 (X_train d) ->
  length (cells w (y_test d)) = shape0 (X_test d) ->
  y_train d' <> y_test d' /\
  length (cells w' (y_train d')) = shape0 (X_train d') /\
  length (cells w' (y_test d')) = shape0 (X_test d').
Proof.
  unfold noise_after_split. intros H Hlt Hold Htr Hte.
  destruct (is_noise noise_type "duplicated_anomalies").
  - apply bind_inr in H. destruct H as ([Xtr ytr] & w1 & H1 & H).
    apply bind_inr in H. destruct H as ([Xte yte] & w2 & H2 & H).
    unfold ret in H. inversion H. subst d' w'. clear H. simpl.
    apply add_duplicated_anomalies_frame in H1.
    apply add_duplicated_anomalies_frame in H2.
    destruct H1 as [(E1 & -> & -> & ->) | (E1 & -> & Hn1 & Hc1 & Hl1)];
      destruct H2 as [(E2 & -> & -> & ->) | (E2 & -> & Hn2 & Hc2 & Hl2)];
      try congruence.
    + split; [lia|]. split; assumption.
    + split; [lia|]. split; [|exact Hl2].
      rewrite Hc2 by lia. exact Hl1.
  - destruct (is_noise noise_type "label_contamination").
    + apply bind_inr in H. destruct H as ([Xtr ytr] & w1 & H1 & H).
      unfold ret in H. inversion H. subst d' w'. clear H. simpl.
      apply add_label_contamination_frame in H1.
      destruct H1 as (-> & -> & Hc & _ & Hl & _).
      split; [lia|]. split; [congruence|]. rewrite Hc by lia. exact Hte.
    + unfold ret in H. inversion H. subst d' w'.
      split; [lia|]. split; assumption.
Qed.

(** X9. Whatever the options, the four arrays [generator] returns go
    together: the training labels have one entry per row of the training
    matrix, the test labels one per row of the test matrix, and the two
    label arrays are distinct arrays. *)
Theorem generator_rows_match_labels (OK : library_ok L)
  (la : labeled_anomalies) (at_least_one_labeled : bool)
  (mode : option string) (alpha percentage : Q) (noise_type : option string)
  (duplicate_times contam_ratio noise_ratio : Q) (w0 : world L)
  (d : dataset_split) (w' : world L) :
  generator self la at_least_one_labeled mode alpha percentage noise_type
            duplicate_times contam_ratio noise_ratio w0 = inr (d, w') ->
  length (cells w' (y_train d)) = shape0 (X_train d) /\
  length (cells w' (y_test d)) = shape0 (X_test d) /\
  y_train d <> y_test d.
Proof.
  unfold generator. intros H.
  apply bind_inr in H. destruct H as (d1 & w4 & Hprep & H).
  apply bind_inr in H. destruct H as (labeled & w5 & Hpart & H).
  unfold ret in H. inversion H. subst d1 w5. clear H.
  unfold prepare in Hprep.
  apply bind_inr in Hprep. destruct Hprep as ([X y] & w1 & _ & Hprep).
  apply bind_inr in Hprep. destruct Hprep as (d0 & w2 & Hsplit & Hafter).
  unfold after_split in Hafter.
  apply bind_inr in Hafter. destruct Hafter as (d2 & w3 & Hnoise & Hscale).
  destruct (split_rows _ _ _ _ _ Hsplit) as (Ey1 & Ey2 & Hn2 & Hl1 & Hl2).
  destruct (noise_after_split_rows _ _ _ _ _ _ _ Hnoise)
    as (Hne & Hr1 & Hr2); [lia|lia|exact Hl1|exact Hl2|].
  destruct (minmax_scale_frame _ _ _ _ Hscale) as (Hc4 & Htr & Hte & Hrows).
  destruct (Hrows OK) as [Hs1 Hs2].
  destruct (partition_labels_inv _ _ _ _ _ _ _ Hpart) as (w6 & Hsel & Hnt).
  destruct (partition_labels_run _ _ _ _ _ _ _ Hsel Hnt)
    as (w7 & Hrun & Hpf & _ & Hlen & _).
  rewrite Hrun in Hpart. inversion Hpart. subst w7. clear Hpart.
  split; [|split].
  - rewrite Hlen, Hc4, Htr, Hs1. exact Hr1.
  - rewrite Hpf by congruence. rewrite Hc4, Hte, Hs2. exact Hr2.
  - congruence.
Qed.

End Returned.

(** With every anomaly duplicated twice the twelve rows still come back
    as matrices and label arrays of the same heights. *)
Lemma generator_rows_match_labels_witness :
  exists d w',
    generator Toy.self (LaFloat (1 # 2)) true None 5 (1 # 10)
              (Some "duplicated_anomalies"%string) 2 1 (1 # 4) Toy.w_init
    = inr (d, w') /\
    length (cells w' (y_train d)) = shape0 (X_train d) /\
    length (cells w' (y_test d)) = shape0 (X_test d).
Proof.
  destruct (generator Toy.self (LaFloat (1 # 2)) true None 5 (1 # 10)
              (Some "duplicated_anomalies"%string) 2 1 (1 # 4) Toy.w_init)
    as [e|[d w']] eqn:Hrun.
  - vm_compute in Hrun. discriminate Hrun.
  - exists d, w'. split; [reflexivity|].
    destruct (generator_rows_match_labels (L:=Toy.L0) Toy.self
                (toy_lib_ok true Toy.flat (Toy.X12, Toy.y12))
                _ _ _ _ _ _ _ _ _ _ _ _ Hrun) as (H1 & H2 & _).
    split; assumption.
Defined.

(** ** The pipeline without noise after the split *)

Section Clean.

Context {L : library}.
Variable self : DataGenerator.

(** X10. When neither duplicated anomalies nor label contamination is
    asked for, the arrays [generator] returns are read off the split: the
    scaler is fitted on the training rows alone and transforms both
    matrices, the test labels are the labels the split selected for
    testing, and every position labeled 1 in the returned training labels
    held 1 in the labels the split selected for training. *)
Theorem clean_run_keeps_true_labels (la : labeled_anomalies)
  (at_least_one_labeled : bool) (mode : option string) (alpha percentage : Q)
  (noise_type : option string) (duplicate_times contam_ratio noise_ratio : Q)
  (w0 : world L) (d : dataset_split) (w' : world L) :
  is_noise noise_type "duplicated_anomalies" = false ->
  is_noise noise_type "label_contamination" = false ->
  generator self la at_least_one_labeled mode alpha percentage noise_type
            duplicate_times contam_ratio noise_ratio w0 = inr (d, w') ->
  exists X y w1 train test g Xtr Xte ytr sc,
    before_split self la mode alpha percentage noise_type noise_ratio w0
    = inr ((X, y), w1) /\
    split_indices L (cells w1 y) (test_size self) (rng w1)
    = Some (train, test, g) /\
    take_rows train X = Some Xtr /\ take_rows test X = Some Xte /\
    scaler_fit L Xtr = Some sc /\
    scaler_transform L sc Xtr = Some (X_train d) /\
    scaler_transform L sc Xte = Some (X_test d) /\
    take test (cells w1 y) = Some (cells w' (y_test d)) /\
    take train (cells w1 y) = Some ytr /\
    length (cells w' (y_train d)) = length ytr /\
    incl (np_where (cells w' (y_train d)) 1) (np_where ytr 1).
Proof.
  intros Hdup Hcont H. unfold generator in H.
  apply bind_inr in H. destruct H as (d1 & w4 & Hprep & H).
  apply bind_inr in H. destruct H as (labeled & w5 & Hpart & H).
  unfold ret in H. inversion H. subst d1 w5. clear H.
  unfold prepare in Hprep.
  apply bind_inr in Hprep. destruct Hprep as ([X y] & w1 & Hbefore & Hprep).
  apply bind_inr in Hprep. destruct Hprep as (d0 & w2 & Hsplit & Hafter).
  unfold after_split in Hafter.
  apply bind_inr in Hafter. destruct Hafter as (d2 & w3 & Hnoise & Hscale).
  unfold noise_after_split in Hnoise. rewrite Hdup, Hcont in Hnoise.
  unfold ret in Hnoise. inversion Hnoise. subst d2 w3. clear Hnoise.
  unfold minmax_scale in Hscale.
  apply bind_inr in Hscale. destruct Hscale as (u & wa & Ht & Hscale).
  unfold tick in Ht. inversion Ht. subst u wa. clear Ht.
  apply bind_inr in Hscale. destruct Hscale as (sc & wa & Hf & Hscale).
  apply lift_inr in Hf. destruct Hf as [Hf ->].
  apply bind_inr in Hscale. destruct Hscale as (Xtr' & wa & H1 & Hscale).
  apply lift_inr in H1. destruct H1 as [H1 ->].
  apply bind_inr in Hscale. destruct Hscale as (Xte' & wa & H2 & Hscale).
  apply lift_inr in H2. destruct H2 as [H2 ->].
  unfold ret in Hscale. inversion Hscale. subst d w4. clear Hscale.
  cbn [X_train X_test y_train y_test] in *.
  destruct (split_inv _ _ _ _ _ _ Hsplit)
    as (train & test & g & Hidx & Htrain & Htest & Hx1 & Hx2 & Hne).
  destruct (partition_labels_inv _ _ _ _ _ _ _ Hpart) as (w6 & Hsel & Hnt).
  destruct (partition_labels_run _ _ _ _ _ _ _ Hsel Hnt)
    as (w7 & Hrun & Hpf & _ & Hlen & Hones & _).
  rewrite Hrun in Hpart. inversion Hpart. subst w7. clear Hpart.
  destruct (select_labeled_inv _ _ _ _ _ _ Hsel) as [Hincl _].
  cbn [cells] in Hlen, Hincl.
  exists X, y, w1, train, test, g, (X_train d0), (X_test d0),
    (cells w2 (y_train d0)), sc.
  split; [exact Hbefore|]. split; [exact Hidx|]. split; [exact Hx1|].
  split; [exact Hx2|]. split; [exact Hf|]. split; [exact H1|].
  split; [exact H2|]. split; [|split; [exact Htrain|split; [exact Hlen|]]].
  - rewrite Hpf by exact Hne. exact Htest.
  - intros i Hi. apply Hincl. apply Hones. exact Hi.
Qed.

End Clean.

(** The wine data without noise: the two anomalies are in the training
    split, and one of them keeps its label. *)
Lemma clean_run_keeps_true_labels_witness :
  exists d w',
    generator Toy.self (LaFloat (1 # 2)) true None 5 (1 # 10) None 2 1
              (1 # 20) Toy.w_init = inr (d, w') /\
    length (np_where (cells w' (y_train d)) 1) = 1 /\
    exists ytr, incl (np_where (cells w' (y_train d)) 1) (np_where ytr 1) /\
                length (np_where ytr 1) = 2.
Proof.
  destruct (generator Toy.self (LaFloat (1 # 2)) true None 5 (1 # 10) None 2 1
              (1 # 20) Toy.w_init) as [e|[d w']] eqn:Hrun.
  - vm_compute in Hrun. discriminate Hrun.
  - exists d, w'. split; [reflexivity|].
    destruct (clean_run_keeps_true_labels (L:=Toy.L0) Toy.self _ _ _ _ _ None
                _ _ _ _ _ _ eq_refl eq_refl Hrun)
      as (X & y & w1 & train & test & g & Xtr & Xte & ytr & sc & Hbefore
          & Hidx & _ & _ & _ & _ & _ & _ & Htrain & _ & Hincl).
    vm_compute in Hbefore. injection Hbefore as <- <- <-.
    vm_compute in Hidx. injection Hidx as <- <- <-.
    vm_compute in Hrun. injection Hrun as <- <-.
    split; [reflexivity|]. exists ytr. split; [exact Hincl|].
    vm_compute in Htrain. injection Htrain as <-. reflexivity.
Defined.

(** ** Local and cluster anomalies *)

Section ScaledMixture.

Context {L : library}.
Variable self : DataGenerator.

Lemma synthetic_anomalies_mixture (mode : string) (alpha percentage : Q)
  (gm : GaussianMixture) (X1 : matrix) (Xsn : option matrix) (a : nat)
  (w : world L) Xsa w1 :
  mode = "local"%string \/ mode = "cluster"%string ->
  synthetic_anomalies mode alpha percentage (Some gm) X1 Xsn a w
  = inr (Xsa, w1) ->
  exists Xa,
    Xsa = Some Xa /\
    gm_sample L (if String.eqb mode "local" then scale_covariances alpha gm
                 else scale_means alpha gm) a = Some Xa /\
    logs [EvMixtureSample a] w w1.
Proof.
  intros [-> | ->] H; unfold synthetic_anomalies in H; simpl in H.
  - apply bind_inr in H. destruct H as (g & w2 & Hg & H).
    unfold ret in Hg. inversion Hg. subst g w2. clear Hg.
    apply bind_inr in H. destruct H as (Xa & w3 & Hs & H).
    unfold ret in H. inversion H. subst Xsa w3. clear H.
    apply mixture_sample_inv in Hs. destruct Hs as [Hs Hl].
    exists Xa. auto.
  - apply bind_inr in H. destruct H as (g & w2 & Hg & H).
    unfold ret in Hg. inversion Hg. subst g w2. clear Hg.
    apply bind_inr in H. destruct H as (Xa & w3 & Hs & H).
    unfold ret in H. inversion H. subst Xsa w3. clear H.
    apply mixture_sample_inv in Hs. destruct Hs as [Hs Hl].
    exists Xa. auto.
Qed.

(** X11. In the local and cluster modes both blocks are drawn from one
    fitted mixture: the normal rows from the mixture refitted on the
    normal rows of the input, the anomalies from the same mixture with
    its covariances (local) or its means (cluster) multiplied by [alpha];
    no mixture is fitted between the two draws, which end the log. *)
Theorem anomalies_from_scaled_mixture (OK : library_ok L) (X : matrix)
  (y : loc) (mode : string) (alpha percentage : Q) (w : world L) X' y' w' :
  mode = "local"%string \/ mode = "cluster"%string ->
  generate_realistic_synthetic self X y mode alpha percentage w
  = inr ((X', y'), w') ->
  let n := length (np_where (cells w y) 0) in
  let a := length (np_where (cells w y) 1) in
  exists Xm best gm,
    mask_rows (map (Z.eqb 0) (cells w y)) X = Some Xm /\
    gm_fit L best (seed self) Xm = Some gm /\
    gm_sample L gm n = Some (normal_block X' n) /\
    gm_sample L (if String.eqb mode "local" then scale_covariances alpha gm
                 else scale_means alpha gm) a
    = Some (anomaly_block X' n) /\
    trace w' = trace w ++ search_log n_components_list
               ++ [EvMixtureFit best; EvMixtureSample n; EvMixtureSample a].
Proof.
  intros Hmode0 H n a.
  assert (Hmix : in_list mode ["local"; "cluster"; "global"]%string = true)
    by (destruct Hmode0 as [-> | ->]; reflexivity).
  destruct (generate_realistic_synthetic_inv self _ _ _ _ _ _ _ _ _ H)
    as (Xm & gm & X1 & Xn & Xa & w1 & w2 & Hmode & Hm & Hnorm & Hanom
        & Hcat & _ & _ & _ & Htr).
  fold n in Hnorm. fold a in Hanom.
  destruct (synthetic_normal_mixture self _ _ _ _ _ _ _ _ Hmix Hnorm)
    as (ml & g & Xn0 & _ & Hfit & Hsam & -> & _ & E & (_ & _ & Ht1)).
  inversion E. subst Xn0. clear E.
  destruct (synthetic_anomalies_mixture _ _ _ _ _ _ _ _ _ _ Hmode0 Hanom)
    as (Xa0 & E & Hsa & (_ & _ & Ht2)).
  inversion E. subst Xa0. clear E.
  destruct (blocks_of_concatenate0 _ _ _ Hcat) as (Hbn & Hba & _).
  rewrite (gm_sample_rows L OK _ _ _ Hsam) in Hbn, Hba.
  exists Xm, (nth (np_argmin ml) n_components_list 0), g.
  split; [exact Hm|]. split; [exact Hfit|].
  split; [rewrite Hbn; exact Hsam|]. split; [rewrite Hba; exact Hsa|].
  rewrite Htr, Ht2, Ht1, <- !app_assoc. reflexivity.
Qed.

(** X12. Each mode reads its own parameter only: [percentage] has no
    effect in the local and cluster modes, [alpha] has none in the global
    mode, and neither has any in the dependency mode. *)
Theorem parameters_read_by_mode (X : matrix) (y : loc)
  (alpha alpha' percentage percentage' : Q) (w : world L) :
  generate_realistic_synthetic self X y "local" alpha percentage w
  = generate_realistic_synthetic self X y "local" alpha percentage' w /\
  generate_realistic_synthetic self X y "cluster" alpha percentage w
  = generate_realistic_synthetic self X y "cluster" alpha percentage' w /\
  generate_realistic_synthetic self X y "global" alpha percentage w
  = generate_realistic_synthetic self X y "global" alpha' percentage w /\
  generate_realistic_synthetic self X y "dependency" alpha percentage w
  = generate_realistic_synthetic self X y "dependency" alpha' percentage' w.
Proof.
  unfold generate_realistic_synthetic, synthetic_anomalies. simpl.
  repeat split; reflexivity.
Qed.

End ScaledMixture.

(** In the local mode on the twelve rows the log ends with the refit and
    the two draws, of ten and of two rows. *)
Lemma anomalies_from_scaled_mixture_witness :
  exists X' y' w' best,
    generate_realistic_synthetic Toy.self Toy.X12 0 "local" 5 (1 # 10)
                                 Toy.w12 = inr ((X', y'), w') /\
    trace w' = search_log n_components_list
               ++ [EvMixtureFit best; EvMixtureSample 10; EvMixtureSample 2].
Proof.
  destruct (generate_realistic_synthetic Toy.self Toy.X12 0 "local" 5
              (1 # 10) Toy.w12) as [e|[[X' y'] w']] eqn:Hrun.
  - vm_compute in Hrun. discriminate Hrun.
  - destruct (anomalies_from_scaled_mixture (L:=Toy.L0) Toy.self
                (toy_lib_ok true Toy.flat (Toy.X12, Toy.y12))
                _ _ _ _ _ _ _ _ _ (or_introl eq_refl) Hrun)
      as (Xm & best & gm & _ & _ & _ & _ & Htrace).
    exists X', y', w', best. split; [reflexivity|exact Htrace].
Defined.

(** ** Precomputed dependency anomalies *)

Section Precomputed.

Context {L : library}.
Variable self : DataGenerator.

Lemma resample_trace (X : matrix) (y : loc) (size : Z) (replace : bool)
  (w : world L) r w' :
  resample self X y size replace w = inr (r, w') ->
  trace w' = trace w
             ++ [EvSetSeed; EvChoice (length (cells w y)) size replace].
Proof.
  unfold resample. intros H.
  apply bind_inr in H. destruct H as (yv & wa & Hy & H).
  unfold load in Hy. inversion Hy. subst yv wa. clear Hy.
  apply bind_inr in H. destruct H as (u & wa & Hs & H).
  unfold reseed in Hs. inversion Hs. subst u wa. clear Hs.
  apply bind_inr in H. destruct H as (idx & w1 & Hch & H).
  apply np_random_choice_inv in Hch. destruct Hch as (_ & _ & _ & Ht).
  apply bind_inr in H. destruct H as (X1 & wb & Hx & H).
  apply lift_inr in Hx. destruct Hx as [_ ->].
  apply bind_inr in H. destruct H as (yv1 & wb & Hyv & H).
  apply lift_inr in Hyv. destruct Hyv as [_ ->].
  apply bind_inr in H. destruct H as (l & wb & Hal & H).
  unfold alloc in Hal. inversion Hal. subst l wb. clear Hal.
  unfold ret in H. inversion H. subst r w'. clear H.
  cbn [trace] in *. rewrite Ht, length_seq, <- app_assoc. reflexivity.
Qed.

Lemma normalise_size_trace (X : matrix) (y : loc) (w : world L) r w' :
  normalise_size self X y w = inr (r, w') ->
  exists t, trace w' = trace w ++ t /\
            Forall (fun e => e = EvSetSeed \/
                             exists p s b, e = EvChoice p s b) t.
Proof.
  unfold normalise_size. intros H.
  apply bind_inr in H. destruct H as (yv & wa & Hy & H).
  unfold load in Hy. inversion Hy. subst yv wa. clear Hy.
  apply bind_inr in H. destruct H as ([X1 y1] & w1 & Hfirst & H).
  apply bind_inr in H. destruct H as (yv1 & wa & Hy & H).
  unfold load in Hy. inversion Hy. subst yv1 wa. clear Hy.
  assert (H1 : exists t, trace w1 = trace w ++ t /\
                 Forall (fun e => e = EvSetSeed \/
                                  exists p s b, e = EvChoice p s b) t).
  { destruct (_ && _).
    - apply resample_trace in Hfirst. eexists. split; [exact Hfirst|].
      constructor; [left; reflexivity|].
      constructor; [right; eauto|constructor].
    - unfold ret in Hfirst. inversion Hfirst. exists [].
      rewrite app_nil_r. auto. }
  destruct H1 as (t1 & Ht1 & Hall1).
  destruct (10000 <? _)%Z.
  - apply resample_trace in H. eexists. split.
    + rewrite H, Ht1, <- app_assoc. reflexivity.
    + apply Forall_app. split; [exact Hall1|].
      constructor; [left; reflexivity|].
      constructor; [right; eauto|constructor].
  - unfold ret in H. inversion H. subst. eauto.
Qed.

(** X13. In the dependency mode [generator] does not synthesise: the data
    it goes on with is the entry of the table of precomputed dependency
    outliers stored under the (supported) name of the dataset, whatever
    was loaded and whatever [alpha] and [percentage] are; up to there only
    seeds were set and rows drawn for resizing, no mixture, copula or
    density estimate was fitted or sampled. *)
Theorem dependency_mode_reads_table (la : labeled_anomalies)
  (alpha percentage : Q) (w : world L) X' y' w' :
  before_noise self la (Some "dependency"%string) alpha percentage w
  = inr ((X', y'), w') ->
  exists name t,
    dataset self = Some name /\ In name supported_datasets /\
    dependency_outlier L name = Some (X', cells w' y') /\
    trace w' = trace w ++ t /\
    Forall (fun e => e = EvSetSeed \/ exists p s b, e = EvChoice p s b) t.
Proof.
  unfold before_noise. intros H.
  apply bind_inr in H. destruct H as (u & wa & Hs & H).
  unfold reseed in Hs. inversion Hs. subst u wa. clear Hs.
  apply bind_inr in H. destruct H as ([X0 y0] & w1 & Hload & H).
  destruct (load_data_known self _ _ Hload) as (name & Hname & Hin).
  assert (Ht1 : trace w1 = trace w ++ [EvSetSeed]).
  { unfold load_data in Hload. rewrite Hname in Hload.
    destruct (in_list name supported_datasets); [|discriminate].
    apply bind_inr in Hload. destruct Hload as ([Xl yl] & wb & Hl & Hload).
    apply lift_inr in Hl. destruct Hl as [_ ->].
    apply bind_inr in Hload. destruct Hload as (l & wb & Hal & Hload).
    unfold alloc in Hal. inversion Hal. subst l wb. clear Hal.
    unfold ret in Hload. inversion Hload. reflexivity. }
  apply bind_inr in H. destruct H as (u & wa & Hla & H).
  assert (wa = w1) as ->.
  { destruct la; unfold check_la, ret in Hla; inversion Hla; reflexivity. }
  apply bind_inr in H. destruct H as ([X2 y2] & w2 & Hsize & H).
  destruct (normalise_size_trace _ _ _ _ _ Hsize) as (t2 & Ht2 & Hall2).
  unfold synthesise in H. simpl in H. rewrite Hname in H.
  destruct (dependency_outlier L name) as [[Xd yd]|] eqn:Htab; [|discriminate].
  apply bind_inr in H. destruct H as (l & wb & Hal & H).
  unfold alloc in Hal. inversion Hal. subst l wb. clear Hal.
  unfold ret in H. inversion H. subst X' y' w'. clear H.
  exists name, ([EvSetSeed] ++ t2). cbn [cells trace].
  rewrite Nat.eqb_refl.
  split; [exact Hname|]. split; [exact Hin|]. split; [exact Htab|]. split.
  - rewrite Ht2, Ht1, <- app_assoc. reflexivity.
  - constructor; [left; reflexivity|exact Hall2].
Qed.

End Precomputed.

(** For the wine dataset the three precomputed rows replace the twelve
    loaded ones. *)
Lemma dependency_mode_reads_table_witness :
  exists X' y' w',
    before_noise Toy.self (LaFloat (1 # 2)) (Some "dependency"%string) 5
                 (1 # 10) Toy.w_init4 = inr ((X', y'), w') /\
    (X', cells w' y') = Toy.outliers3.
Proof.
  destruct (before_noise Toy.self (LaFloat (1 # 2))
              (Some "dependency"%string) 5 (1 # 10) Toy.w_init4)
    as [e|[[X' y'] w']] eqn:Hrun.
  - vm_compute in Hrun. discriminate Hrun.
  - exists X', y', w'. split; [reflexivity|].
    destruct (dependency_mode_reads_table (L:=Toy.L4) Toy.self _ _ _ _ _ _ _
                Hrun) as (name & t & Hname & _ & Htab & _).
    injection Hname as <-.
    change (Some Toy.outliers3 = Some (X', cells w' y')) in Htab.
    congruence.
Defined.
